(** * Material packages and ubershader archives: a shallow embedding

    This development embeds three parts of the toolkit and checks the
    documented behaviour against them:

    - [Uberz]: the archive matcher [ArchiveCache::getMaterial]
      (libs/uberz/src/ArchiveCache.cpp), the archive writer
      [WritableArchive::serialize] and the relocation pass
      [convertOffsetsToPointers] (libs/uberz/src/ReadableArchive.cpp and
      the writer's translation unit);
    - [Matdbg]: the package rewriter of libs/matdbg/src/ShaderReplacer.cpp
      ([ShaderReplacer::replaceShaderSource], [ShaderIndex], [BlobIndex]).

    Conventions.  Unsigned machine integers are values of [Z] with the
    wrap-around written out ([wrap32], [wrap64]).  A byte is a [Z]; a byte
    buffer is a [list Z].  Multi-byte fields are little-endian.  C strings
    are values of [string]: the terminating NUL is implicit and is written
    out where the code copies it. *)

From Stdlib Require Import ZArith List String Ascii Lia Bool.
From stdpp Require Import gmap strings list fin_maps.

Local Open Scope Z_scope.

(** ** Machine integers and byte buffers *)

Definition wrap32 (v : Z) : Z := v mod 2 ^ 32.
Definition wrap64 (v : Z) : Z := v mod 2 ^ 64.
Definition UINT16_MAX : Z := 65535.

(** Little-endian image of the low [n] bytes of [v]. *)
Fixpoint le_bytes (n : nat) (v : Z) : list Z :=
  match n with
  | O => []
  | S n' => (v mod 256) :: le_bytes n' (v / 256)
  end.

(** Value of a little-endian byte sequence. *)
Fixpoint le_value (bs : list Z) : Z :=
  match bs with
  | [] => 0
  | b :: bs' => b + 256 * le_value bs'
  end.

Definition byte_of_ascii (c : ascii) : Z := Z.of_N (N_of_ascii c).
Definition ascii_of_byte (b : Z) : ascii := ascii_of_N (Z.to_N (b mod 256)).

Fixpoint bytes_of_string (s : string) : list Z :=
  match s with
  | EmptyString => []
  | String c s' => byte_of_ascii c :: bytes_of_string s'
  end.

(** [s.c_str()] copied with its terminator: [s.length() + 1] bytes. *)
Definition c_str (s : string) : list Z := bytes_of_string s ++ [0].

Definition strlen (s : string) : Z := Z.of_nat (String.length s).

(** ** The ubershader archive *)

Module Uberz.

(** The enumerations of the archive format.  [INVALID_SHADING_MODEL] and
    [INVALID_BLENDING] are the sentinels that mean "not set". *)
Inductive Shading :=
  | UNLIT | LIT | SUBSURFACE | CLOTH | SPECULAR_GLOSSINESS
  | INVALID_SHADING_MODEL.

Inductive BlendingMode :=
  | OPAQUE | TRANSPARENT | ADD | MASKED | FADE | MULTIPLY | SCREEN
  | INVALID_BLENDING.

Inductive ArchiveFeature := UNSUPPORTED | OPTIONAL | REQUIRED.

Global Instance Shading_eq_dec : EqDecision Shading.
Proof. solve_decision. Defined.
Global Instance BlendingMode_eq_dec : EqDecision BlendingMode.
Proof. solve_decision. Defined.
Global Instance ArchiveFeature_eq_dec : EqDecision ArchiveFeature.
Proof. solve_decision. Defined.

(** A relocated flag: [name] is the C string the flag points to. *)
Record ArchiveFlag := mkFlag {
  name : string;
  value : ArchiveFeature
}.

(** A relocated spec.  [flagsCount] and [packageByteCount] are the lengths
    of [flags] and [package]. *)
Record ArchiveSpec := mkSpec {
  shadingModel : Shading;
  blendingMode : BlendingMode;
  flags : list ArchiveFlag;
  package : list Z
}.

(** [reqs.features] is a [robin_map<CString, bool>]. *)
Record ArchiveRequirements := mkReqs {
  reqShadingModel : Shading;
  reqBlendingMode : BlendingMode;
  features : gmap string bool
}.

(** [strncmp(a, b, n) == 0] on NUL-terminated strings: at most [n]
    characters are compared and the comparison stops at a common
    terminator. *)
Fixpoint strncmp_eq (a b : string) (n : nat) : bool :=
  match n with
  | O => true
  | S n' =>
      match a, b with
      | EmptyString, EmptyString => true
      | String x a', String y b' =>
          if Ascii.eqb x y then strncmp_eq a' b' n' else false
      | _, _ => false
      end
  end.

Definition strIsEqual (a b : string) : bool :=
  strncmp_eq a b (String.length a).

(** The inner [j] loop of the coverage test: the value of [found] when
    the loop is left. *)
Fixpoint findFlag (meshRequirement : string) (fl : list ArchiveFlag) : bool :=
  match fl with
  | [] => false
  | flag :: rest =>
      if strIsEqual meshRequirement (name flag)
      then (if decide (value flag = UNSUPPORTED) then false else true)
      else findFlag meshRequirement rest
  end.

(** The loop over [reqs.features], in the iteration order [reqs] of the
    map: the value of [specIsSuitable] when the loop is left. *)
Fixpoint coverageLoop (reqs : list (string * bool)) (fl : list ArchiveFlag) : bool :=
  match reqs with
  | [] => true
  | (meshRequirement, second) :: rest =>
      if negb second then coverageLoop rest fl
      else if findFlag meshRequirement fl then coverageLoop rest fl
      else false
  end.

(** The loop over the flags of the spec that checks the REQUIRED ones. *)
Fixpoint requiredLoop (feat : gmap string bool) (fl : list ArchiveFlag)
    (specIsSuitable : bool) : bool :=
  match fl with
  | [] => specIsSuitable
  | flag :: rest =>
      if specIsSuitable then
        requiredLoop feat rest
          (if decide (value flag = REQUIRED) then
             match feat !! name flag with
             | None => false
             | Some false => false
             | Some true => specIsSuitable
             end
           else specIsSuitable)
      else specIsSuitable
  end.

(** One iteration of the loop of [getMaterial], up to the final test
    [if (specIsSuitable)]. *)
Definition specIsSuitable (reqs : ArchiveRequirements) (spec : ArchiveSpec) : bool :=
  if decide (blendingMode spec ≠ INVALID_BLENDING
             ∧ blendingMode spec ≠ reqBlendingMode reqs) then false
  else if decide (shadingModel spec ≠ INVALID_SHADING_MODEL
                  ∧ shadingModel spec ≠ reqShadingModel reqs) then false
  else requiredLoop (features reqs) (flags spec)
         (coverageLoop (map_to_list (features reqs)) (flags spec)).

Section Cache.
(** The engine side: [Material::Builder().package(p, n).build(engine)]. *)
Context {Material : Type} (build : list Z → Material).

(** [mArchive->specs] after relocation and the lazily filled
    [mMaterials]. *)
Record ArchiveCache := mkCache {
  mArchive : list ArchiveSpec;
  mMaterials : list (option Material)
}.

(** The loop of [getMaterial] from index [i] on; [specs] are the specs
    still to visit.  The result is the returned pointer ([None] is
    [nullptr]) and the cache after the call. *)
Fixpoint getMaterial_from (reqs : ArchiveRequirements) (i : nat)
    (specs : list ArchiveSpec) (mats : list (option Material))
    : option Material * list (option Material) :=
  match specs with
  | [] => (None, mats)
  | spec :: rest =>
      if specIsSuitable reqs spec then
        match mats !! i with
        | Some (Some m) => (Some m, mats)
        | _ =>
            let m := build (package spec) in
            (Some m, <[i := Some m]> mats)
        end
      else getMaterial_from reqs (S i) rest mats
  end.

Definition getMaterial (c : ArchiveCache) (reqs : ArchiveRequirements)
    : option Material * ArchiveCache :=
  let '(r, mats) := getMaterial_from reqs 0 (mArchive c) (mMaterials c) in
  (r, mkCache (mArchive c) mats).

(** [load] leaves a cache of [specsCount] null pointers. *)
Definition loaded (specs : list ArchiveSpec) : ArchiveCache :=
  mkCache specs (replicate (length specs) None).

End Cache.

(** *** The documented suitability predicate

    The four conditions as the matcher's documentation words them, over
    the same data: the flag that covers a requested feature is the flag
    {e named} like the feature. *)
Definition doc_blending (reqs : ArchiveRequirements) (spec : ArchiveSpec) : Prop :=
  blendingMode spec = INVALID_BLENDING ∨ blendingMode spec = reqBlendingMode reqs.

Definition doc_shading (reqs : ArchiveRequirements) (spec : ArchiveSpec) : Prop :=
  shadingModel spec = INVALID_SHADING_MODEL ∨ shadingModel spec = reqShadingModel reqs.

Definition doc_coverage (reqs : ArchiveRequirements) (spec : ArchiveSpec) : Prop :=
  ∀ n, features reqs !! n = Some true →
    ∃ flag, flag ∈ flags spec ∧ name flag = n
            ∧ (value flag = OPTIONAL ∨ value flag = REQUIRED).

Definition doc_required (reqs : ArchiveRequirements) (spec : ArchiveSpec) : Prop :=
  ∀ flag, flag ∈ flags spec → value flag = REQUIRED →
    features reqs !! name flag = Some true.

Definition doc_suitable (reqs : ArchiveRequirements) (spec : ArchiveSpec) : Prop :=
  doc_blending reqs spec ∧ doc_shading reqs spec
  ∧ doc_coverage reqs spec ∧ doc_required reqs spec.

(** The documented result: the first suitable spec in stored order, if
    there is one. *)
Definition doc_select (reqs : ArchiveRequirements) (specs : list ArchiveSpec)
    (r : option ArchiveSpec) : Prop :=
  match r with
  | Some spec =>
      ∃ i, specs !! i = Some spec ∧ doc_suitable reqs spec
           ∧ ∀ j spec', (j < i)%nat → specs !! j = Some spec' → ¬ doc_suitable reqs spec'
  | None => ∀ spec, spec ∈ specs → ¬ doc_suitable reqs spec
  end.

(** A spec has exact names for a request when none of its flags has a name
    that strictly extends a requested feature and no two flags share a
    name. *)
Definition exact_names (reqs : ArchiveRequirements) (spec : ArchiveSpec) : Prop :=
  (∀ n flag, features reqs !! n = Some true → flag ∈ flags spec →
     strIsEqual n (name flag) = true → name flag = n)
  ∧ NoDup (name <$> flags spec).

(** *** The writer *)

(** Sizes fixed by the static assertions of ReadableArchive.cpp. *)
Definition sizeof_ReadableArchive : Z := 4 + 4 + 8 + 8.
Definition sizeof_ArchiveSpec : Z := 4 + 4 + 8 + 8 + 8 + 8.
Definition sizeof_ArchiveFlag : Z := 8 + 8.

(** The multi-character literal ['UBER']: the four characters packed from
    the most significant byte down. *)
Definition magic_UBER : Z := 0x55424552.

(** [WritableArchive::Material].  [mflags] lists the entries of the
    [robin_map] in its iteration order, which every loop of [serialize]
    follows. *)
Record Material := mkMaterial {
  mname : string;
  mpackage : list Z;
  mflags : list (string * ArchiveFeature);
  mblendingMode : BlendingMode;
  mshadingModel : Shading
}.

Record WritableArchive := mkWritable {
  wLineNumber : Z;
  wMaterialIndex : Z;
  wMaterials : list Material
}.

(** [addMaterial] fills slot [++mMaterialIndex] of the fixed-capacity
    vector; a slot outside the vector is undefined behaviour ([None]). *)
Definition addMaterial (a : WritableArchive) (nm : string) (pkg : list Z)
    : option WritableArchive :=
  let idx := wMaterialIndex a + 1 in
  if decide (0 ≤ idx < Z.of_nat (length (wMaterials a))) then
    Some (mkWritable 1 idx
            (<[Z.to_nat idx := mkMaterial nm pkg [] INVALID_BLENDING INVALID_SHADING_MODEL]>
               (wMaterials a)))
  else None.

(** The serialized records, as the structs hold them before they are
    copied to the output buffer. *)
Record RawArchive := mkRawArchive {
  magic : Z;
  version : Z;
  specsCount : Z;
  specsOffset : Z
}.

Record RawSpec := mkRawSpec {
  rawShadingModel : Shading;
  rawBlendingMode : BlendingMode;
  flagsCount : Z;
  flagsOffset : Z;
  packageByteCount : Z;
  packageOffset : Z
}.

Record RawFlag := mkRawFlag {
  nameOffset : Z;
  rawValue : ArchiveFeature
}.

Definition len {A} (l : list A) : Z := Z.of_nat (length l).

(** The four prepasses of [serialize] that accumulate [byteCount]. *)
Definition flaglistOffset_of (mats : list Material) : Z :=
  fold_left (fun byteCount _ => wrap64 (byteCount + sizeof_ArchiveSpec))
    mats sizeof_ReadableArchive.

Definition nameOffset_of (mats : list Material) : Z :=
  fold_left (fun byteCount mat =>
      fold_left (fun byteCount _ => wrap64 (byteCount + sizeof_ArchiveFlag))
        (mflags mat) byteCount)
    mats (flaglistOffset_of mats).

Definition filamatOffset_of (mats : list Material) : Z :=
  fold_left (fun byteCount mat =>
      fold_left (fun byteCount entry => wrap64 (byteCount + (strlen (fst entry) + 1)))
        (mflags mat) byteCount)
    mats (nameOffset_of mats).

Definition byteCount_of (mats : list Material) : Z :=
  fold_left (fun byteCount mat => wrap64 (byteCount + len (mpackage mat)))
    mats (filamatOffset_of mats).

Definition archiveHeader (mats : list Material) : RawArchive :=
  mkRawArchive magic_UBER 0 (wrap64 (len mats)) sizeof_ReadableArchive.

(** The loop that fills [specs]; [filamatOffset] and [flagCount] are its
    running variables. *)
Fixpoint buildSpecs (mats : list Material)
    (flaglistOffset filamatOffset flagCount : Z) : list RawSpec :=
  match mats with
  | [] => []
  | mat :: rest =>
      mkRawSpec (mshadingModel mat) (mblendingMode mat)
        (wrap64 (len (mflags mat)))
        (wrap64 (flaglistOffset + flagCount * sizeof_ArchiveFlag))
        (wrap64 (len (mpackage mat)))
        filamatOffset
      :: buildSpecs rest flaglistOffset
           (wrap64 (filamatOffset + len (mpackage mat)))
           (wrap64 (flagCount + len (mflags mat)))
  end.

(** The nested loop that fills [flags], over the flags of all materials
    in order; [charCount] is its running variable. *)
Fixpoint buildFlags (pairs : list (string * ArchiveFeature))
    (nameOffset charCount : Z) : list RawFlag :=
  match pairs with
  | [] => []
  | entry :: rest =>
      mkRawFlag (wrap64 (nameOffset + charCount)) (snd entry)
      :: buildFlags rest nameOffset (wrap64 (charCount + (strlen (fst entry) + 1)))
  end.

Definition allFlags (mats : list Material) : list (string * ArchiveFeature) :=
  concat (map mflags mats).

(** [flagNames]: the names with their terminators, back to back. *)
Definition flagNames (mats : list Material) : list Z :=
  concat (map (fun entry => c_str (fst entry)) (allFlags mats)).

Section Codes.
(** The numeric values of the enumerations and the compression codec are
    declared outside the translation units embedded here. *)
Variable shading_code : Shading → Z.
Variable blending_code : BlendingMode → Z.
Variable feature_code : ArchiveFeature → Z.
Variable compress : list Z → list Z.
Variable decompress : list Z → option (list Z).

(** Modelled from the spec: the order of the fields of [ReadableArchive],
    [ArchiveSpec] and [ArchiveFlag], which uberz/ReadableArchive.h
    declares and the embedded files only use.  The widths are the
    summands of the static assertions; [serialize] copies the structs as
    they lie in memory, least significant byte first. *)
Definition bytes_of_RawArchive (a : RawArchive) : list Z :=
  le_bytes 4 (magic a) ++ le_bytes 4 (version a)
  ++ le_bytes 8 (specsCount a) ++ le_bytes 8 (specsOffset a).

Definition bytes_of_RawSpec (s : RawSpec) : list Z :=
  le_bytes 4 (shading_code (rawShadingModel s))
  ++ le_bytes 4 (blending_code (rawBlendingMode s))
  ++ le_bytes 8 (flagsCount s) ++ le_bytes 8 (flagsOffset s)
  ++ le_bytes 8 (packageByteCount s) ++ le_bytes 8 (packageOffset s).

Definition bytes_of_RawFlag (f : RawFlag) : list Z :=
  le_bytes 8 (nameOffset f) ++ le_bytes 8 (feature_code (rawValue f)).

(** [outputBuf] once every [memcpy] of [serialize] is done. *)
Definition outputBuf (mats : list Material) : list Z :=
  bytes_of_RawArchive (archiveHeader mats)
  ++ concat (map bytes_of_RawSpec
       (buildSpecs mats (flaglistOffset_of mats) (filamatOffset_of mats) 0))
  ++ concat (map bytes_of_RawFlag (buildFlags (allFlags mats) (nameOffset_of mats) 0))
  ++ flagNames mats
  ++ concat (map mpackage mats).

Definition serialize (a : WritableArchive) : list Z :=
  compress (outputBuf (wMaterials a)).

(** *** The reader *)

Inductive Outcome (A : Type) :=
  | Done (a : A)
  | AssertionFailed
  | OutOfBounds.
Arguments Done {A} a.
Arguments AssertionFailed {A}.
Arguments OutOfBounds {A}.

Definition obind {A B} (o : Outcome A) (k : A → Outcome B) : Outcome B :=
  match o with
  | Done a => k a
  | AssertionFailed => AssertionFailed
  | OutOfBounds => OutOfBounds
  end.

Definition read_bytes (buf : list Z) (off : Z) (n : nat) : Outcome (list Z) :=
  if decide (0 ≤ off ∧ off + Z.of_nat n ≤ len buf)
  then Done (take n (drop (Z.to_nat off) buf))
  else OutOfBounds.

Definition read_uint (buf : list Z) (off : Z) (n : nat) : Outcome Z :=
  obind (read_bytes buf off n) (fun bs => Done (le_value bs)).

(** The C string that starts a byte sequence. *)
Fixpoint cstr_of (bs : list Z) : Outcome string :=
  match bs with
  | [] => OutOfBounds
  | b :: bs' =>
      if decide (b = 0) then Done EmptyString
      else obind (cstr_of bs') (fun s => Done (String (ascii_of_byte b) s))
  end.

Definition read_cstr (buf : list Z) (off : Z) : Outcome string :=
  if decide (0 ≤ off ≤ len buf) then cstr_of (drop (Z.to_nat off) buf)
  else OutOfBounds.

(** The relocated structures: every offset replaced by what it points
    to.  Enumeration fields stay as stored. *)
Record ReadableFlag := mkReadableFlag {
  flagName : string;
  flagValue : Z
}.

Record ReadableSpec := mkReadableSpec {
  specShadingModel : Z;
  specBlendingMode : Z;
  specFlags : list ReadableFlag;
  specPackage : list Z
}.

Record ReadableArchive := mkReadableArchive {
  archiveMagic : Z;
  archiveVersion : Z;
  archiveSpecs : list ReadableSpec
}.

(** The inner loop over the flags of one spec: [k] flags remain, the
    next one is at byte address [addr]. *)
Fixpoint relocateFlags (buf : list Z) (k : nat) (addr : Z) : Outcome (list ReadableFlag) :=
  match k with
  | O => Done []
  | S k' =>
      obind (read_uint buf addr 8) (fun nameOff =>
      obind (read_uint buf (addr + 8) 8) (fun v =>
      obind (read_cstr buf nameOff) (fun nm =>
      obind (relocateFlags buf k' (addr + sizeof_ArchiveFlag)) (fun rest =>
      Done (mkReadableFlag nm v :: rest)))))
  end.

(** The byte address of [basePointer + offset / 8] for a [uint64_t*]
    base. *)
Definition word_address (offset : Z) : Z := 8 * (offset / 8).

(** The outer loop: [k] specs remain, the next one is at [addr].  The
    assertion on [flagsOffset] comes first; the fields the code only
    takes addresses of are resolved after it. *)
Fixpoint relocateSpecs (buf : list Z) (k : nat) (addr : Z) : Outcome (list ReadableSpec) :=
  match k with
  | O => Done []
  | S k' =>
      obind (read_uint buf (addr + 16) 8) (fun foff =>
      if decide (foff mod 8 = 0) then
        obind (read_uint buf addr 4) (fun sh =>
        obind (read_uint buf (addr + 4) 4) (fun bl =>
        obind (read_uint buf (addr + 8) 8) (fun fcount =>
        obind (read_uint buf (addr + 24) 8) (fun pcount =>
        obind (read_uint buf (addr + 32) 8) (fun poff =>
        obind (read_bytes buf poff (Z.to_nat pcount)) (fun pkg =>
        obind (relocateFlags buf (Z.to_nat fcount) (word_address foff)) (fun fl =>
        obind (relocateSpecs buf k' (addr + sizeof_ArchiveSpec)) (fun rest =>
        Done (mkReadableSpec sh bl fl pkg :: rest)))))))))
      else AssertionFailed)
  end.

Definition convertOffsetsToPointers (buf : list Z) : Outcome ReadableArchive :=
  obind (read_uint buf 16 8) (fun soff =>
  if decide (soff mod 8 = 0) then
    obind (read_uint buf 8 8) (fun count =>
    obind (relocateSpecs buf (Z.to_nat count) (word_address soff)) (fun specs =>
    obind (read_uint buf 0 4) (fun mg =>
    obind (read_uint buf 4 4) (fun ver =>
    Done (mkReadableArchive mg ver specs)))))
  else AssertionFailed).

(** [ArchiveCache::load] up to the relocation: a failed decompression
    panics ([None]). *)
Definition load (archiveData : list Z) : option (Outcome ReadableArchive) :=
  convertOffsetsToPointers <$> decompress archiveData.

(** The head of the buffer before compression, for a header of
    [header_size] bytes: the four header fields, [specsOffset] and the
    size of the header both equal to [header_size], and the spec records
    right behind the header. *)
Definition header_layout (header_size : Z) (mats : list Material) : Prop :=
  let buf := outputBuf mats in
  read_uint buf 0 4 = Done magic_UBER
  ∧ read_uint buf 4 4 = Done 0
  ∧ read_uint buf 8 8 = Done (len mats)
  ∧ read_uint buf 16 8 = Done header_size
  ∧ sizeof_ReadableArchive = header_size
  ∧ len (bytes_of_RawArchive (archiveHeader mats)) = header_size
  ∧ ∃ rest,
      drop (Z.to_nat header_size) buf
      = concat (map bytes_of_RawSpec
          (buildSpecs mats (flaglistOffset_of mats) (filamatOffset_of mats) 0))
        ++ rest.

(** The offsets the relocation pass asserts on, as it reads them. *)
Definition read_specsOffset (buf : list Z) : Outcome Z := read_uint buf 16 8.
Definition read_specsCount (buf : list Z) : Outcome Z := read_uint buf 8 8.
Definition read_flagsOffset (buf : list Z) (soff i : Z) : Outcome Z :=
  read_uint buf (word_address soff + i * sizeof_ArchiveSpec + 16) 8.

End Codes.

Arguments Done {A} a.
Arguments AssertionFailed {A}.
Arguments OutOfBounds {A}.

End Uberz.

(** ** The package rewriter *)

Module Matdbg.

(** *** Input streams

    The read side of a [std::stringstream]: the buffer, the get position
    and whether the stream is still good.  No code embedded here clears
    the state, so a stream that failed stays failed. *)
Record istream := mkIstream {
  sdata : list Z;
  spos : nat;
  sgood : bool
}.

Definition istream_of (data : list Z) : istream := mkIstream data 0 true.

(** [stream.read(dst, n)], [dst] being the current bytes of the
    destination.  A short read stores what is left, then sets the fail
    bit; a failed stream stores nothing. *)
Definition sread (s : istream) (dst : list Z) (n : nat) : list Z * istream :=
  if sgood s then
    let avail := drop (spos s) (sdata s) in
    if decide (n ≤ length avail)%nat
    then (take n avail ++ drop n dst, mkIstream (sdata s) (spos s + n) true)
    else (avail ++ drop (length avail) dst,
          mkIstream (sdata s) (length (sdata s)) false)
  else (dst, s).

(** [stream.seekg(pos)] *)
Definition sseekg (s : istream) (pos : Z) : istream :=
  if sgood s then
    if decide (0 ≤ pos ≤ Z.of_nat (length (sdata s)))
    then mkIstream (sdata s) (Z.to_nat pos) true
    else mkIstream (sdata s) (spos s) false
  else s.

(** [content.resize(size)] on a byte vector. *)
Definition resize (content : list Z) (size : nat) : list Z :=
  take size content ++ replicate (size - length content) 0.

(** *** Cloning the chunks that are not rewritten *)

(** The locals of the cloning block and the two streams. *)
Record CloneState := mkClone {
  cType : list Z;
  cSize : list Z;
  cContent : list Z;
  sstream : istream;
  tstream : list Z
}.

(** One pass through the body of [while (sstream)]. *)
Definition cloneStep (mDictionaryTag mMaterialTag : Z) (st : CloneState) : CloneState :=
  let '(type, s1) := sread (sstream st) (cType st) 8 in
  let '(size, s2) := sread s1 (cSize st) 4 in
  let content := resize (cContent st) (Z.to_nat (le_value size)) in
  let '(content, s3) := sread s2 content (Z.to_nat (le_value size)) in
  if decide (le_value type = mDictionaryTag ∨ le_value type = mMaterialTag)
  then mkClone type size content s3 (tstream st)
  else mkClone type size content s3 (tstream st ++ type ++ size ++ content).

(** The loop itself; [None] when [fuel] passes do not reach the end. *)
Fixpoint cloneLoop (fuel : nat) (mDictionaryTag mMaterialTag : Z)
    (st : CloneState) : option CloneState :=
  if sgood (sstream st) then
    match fuel with
    | O => None
    | S fuel' =>
        cloneLoop fuel' mDictionaryTag mMaterialTag
          (cloneStep mDictionaryTag mMaterialTag st)
    end
  else Some st.

(** The whole block.  [type] and [size] start out indeterminate in the
    code; they are zero bytes here.  Every pass on a good stream either
    consumes at least twelve bytes or fails the stream, so the fuel given
    here is enough (see [cloneChunks_total]). *)
Definition cloneChunks (mDictionaryTag mMaterialTag : Z) (data : list Z) : option (list Z) :=
  tstream <$>
    cloneLoop (S (length data)) mDictionaryTag mMaterialTag
      (mkClone (replicate 8 0) (replicate 4 0) [] (istream_of data) []).

(** *** The chunk container *)

(** A chunk as the stream holds it: tag, size, payload. *)
Definition chunk_bytes (tag : Z) (payload : list Z) : list Z :=
  le_bytes 8 tag ++ le_bytes 4 (Z.of_nat (length payload)) ++ payload.

(** Modelled from the spec: [filaflat::ChunkContainer], whose source is
    not part of the embedded files.  The buffer is parsed as a stream of
    (tag, size, payload); the result maps a tag to the start and the size
    of its payload; the parse fails when a declared size runs past the end
    of the buffer. *)
Record ChunkContainer := mkContainer {
  ccData : list Z;
  ccChunks : gmap Z (nat * nat)
}.

Fixpoint parseChunks (fuel : nat) (data : list Z) (pos : nat)
    (chunks : gmap Z (nat * nat)) : option (gmap Z (nat * nat)) :=
  match fuel with
  | O => None
  | S fuel' =>
      let rest := drop pos data in
      if decide (rest = []) then Some chunks
      else if decide (12 ≤ length rest)%nat then
        let tag := le_value (take 8 rest) in
        let size := Z.to_nat (le_value (take 4 (drop 8 rest))) in
        if decide (12 + size ≤ length rest)%nat
        then parseChunks fuel' data (pos + 12 + size) (<[tag := (pos + 12, size)%nat]> chunks)
        else None
      else None
  end.

Definition parse (data : list Z) : option ChunkContainer :=
  mkContainer data <$> parseChunks (S (length data)) data 0 ∅.

Definition hasChunk (cc : ChunkContainer) (tag : Z) : bool :=
  bool_decide (is_Some (ccChunks cc !! tag)).

Definition getChunkStart (cc : ChunkContainer) (tag : Z) : option nat :=
  fst <$> ccChunks cc !! tag.

Definition getChunkEnd (cc : ChunkContainer) (tag : Z) : option nat :=
  (fun c => (fst c + snd c)%nat) <$> ccChunks cc !! tag.

(** A chunk stream and the chunks the cloning block is meant to keep. *)
Definition stream_of (cs : list (Z * list Z)) : list Z :=
  concat (map (fun c => chunk_bytes (fst c) (snd c)) cs).

Definition kept (mDictionaryTag mMaterialTag : Z) (c : Z * list Z) : bool :=
  negb (bool_decide (fst c = mDictionaryTag ∨ fst c = mMaterialTag)).

Definition wf_chunk (c : Z * list Z) : Prop :=
  0 ≤ fst c < 2 ^ 64 ∧ Z.of_nat (length (snd c)) < 2 ^ 32.

(** What the stale locals add after the last pass: the last chunk once
    more, when it is one of those kept. *)
Definition lastAgain (mDictionaryTag mMaterialTag : Z) (cs : list (Z * list Z)) : list Z :=
  match last cs with
  | Some c => if kept mDictionaryTag mMaterialTag c then chunk_bytes (fst c) (snd c) else []
  | None => []
  end.

(** *** The text index: [ShaderIndex] *)

Record ShaderRecord := mkShaderRecord {
  model : Z;
  variant : Z;
  stage : Z;
  offset : Z;
  lineIndices : list Z;
  decodedShaderText : string;
  stringLength : Z
}.

Record ShaderIndex := mkShaderIndex {
  mDictTag : Z;
  mMatTag : Z;
  mShaderRecords : list ShaderRecord;
  mStringLines : list string
}.

Definition isEmpty (idx : ShaderIndex) : bool :=
  bool_decide (length (mStringLines idx) = 0%nat ∧ length (mShaderRecords idx) = 0%nat).

(** A [std::string] built from a character pointer: the characters up to the first NUL
    and the bytes after it; undefined ([None]) when the buffer ends
    first. *)
Fixpoint cstr_at (bs : list Z) : option (string * list Z) :=
  match bs with
  | [] => None
  | b :: bs' =>
      if decide (b = 0) then Some (EmptyString, bs')
      else '(s, rest) ← cstr_at bs'; Some (String (ascii_of_byte b) s, rest)
  end.

Fixpoint readLines (count : nat) (bs : list Z) : option (list string) :=
  match count with
  | O => Some []
  | S count' =>
      '(line, rest) ← cstr_at bs;
      lines ← readLines count' rest;
      Some (line :: lines)
  end.

(** The 16-bit values stored in a byte vector. *)
Fixpoint u16s (bs : list Z) : list Z :=
  match bs with
  | lo :: hi :: rest => (lo + 256 * hi) :: u16s rest
  | _ => []
  end.

(** The body of the loop that fills one record of the text index.  The
    local [lineCount] has no initial value: when its read fails the pass
    is undefined ([None]). *)
Definition readShaderRecord (stream : istream) : option (ShaderRecord * istream) :=
  let '(m, s1) := sread stream [0] 1 in
  let '(v, s2) := sread s1 [0] 1 in
  let '(st, s3) := sread s2 [0] 1 in
  let '(off, s4) := sread s3 (replicate 4 0) 4 in
  let previousPosition := Z.of_nat (spos s4) in
  let s5 := sseekg s4 (le_value off) in
  let '(slen, s6) := sread s5 (replicate 4 0) 4 in
  let '(lineCount, s7) := sread s6 (replicate 4 0) 4 in
  if sgood s7 then
    let n := (2 * Z.to_nat (le_value lineCount))%nat in
    let '(indices, s8) := sread s7 (replicate n 0) n in
    let s9 := sseekg s8 previousPosition in
    Some (mkShaderRecord (le_value m) (le_value v) (le_value st) (le_value off)
            (u16s indices) EmptyString (le_value slen), s9)
  else None.

Fixpoint readShaderRecords (count : nat) (stream : istream) : option (list ShaderRecord) :=
  match count with
  | O => Some []
  | S count' =>
      '(r, stream') ← readShaderRecord stream;
      rs ← readShaderRecords count' stream';
      Some (r :: rs)
  end.

(** The constructor.  Raw reads through [getChunkStart] are undefined
    ([None]) past the end of the package buffer; so is a [recordCount]
    that could not be read. *)
Definition ShaderIndex_new (dictTag matTag : Z) (cc : ChunkContainer) : option ShaderIndex :=
  dictStart ← getChunkStart cc dictTag;
  let dict := drop dictStart (ccData cc) in
  guard (4 ≤ length dict)%nat;;
  lines ← readLines (Z.to_nat (le_value (take 4 dict))) (drop 4 dict);
  chunkContent ← getChunkStart cc matTag;
  chunkEnd ← getChunkEnd cc matTag;
  let stream := istream_of (take (chunkEnd - chunkContent) (drop chunkContent (ccData cc))) in
  let '(recordCount, stream) := sread stream (replicate 8 0) 8 in
  guard (sgood stream = true);;
  records ← readShaderRecords (Z.to_nat (le_value recordCount)) stream;
  Some (mkShaderIndex dictTag matTag records lines).

(** [ShaderIndex::writeChunks]: the bytes appended to [stream]. *)
Definition dictChunkSize (lines : list string) : Z :=
  fold_left (fun size stringLine => wrap32 (size + (strlen stringLine + 1))) lines 4.

Definition matChunkSize (records : list ShaderRecord) : Z :=
  fold_left (fun size record =>
      wrap32 (wrap32 (wrap32 (size + 4) + 4)
              + Z.of_nat (length (lineIndices record)) * 2))
    records (wrap32 (8 + Z.of_nat (length records) * (1 + 1 + 1 + 4))).

Definition recordEntry (record : ShaderRecord) : list Z :=
  le_bytes 1 (model record) ++ le_bytes 1 (variant record)
  ++ le_bytes 1 (stage record) ++ le_bytes 4 (offset record).

Definition recordTail (record : ShaderRecord) : list Z :=
  le_bytes 4 (stringLength record)
  ++ le_bytes 4 (Z.of_nat (length (lineIndices record)))
  ++ concat (map (le_bytes 2) (lineIndices record)).

Definition writeChunks (idx : ShaderIndex) (stream : list Z) : list Z :=
  stream
  ++ le_bytes 8 (mDictTag idx)
  ++ le_bytes 4 (dictChunkSize (mStringLines idx))
  ++ le_bytes 4 (Z.of_nat (length (mStringLines idx)))
  ++ concat (map c_str (mStringLines idx))
  ++ le_bytes 8 (mMatTag idx)
  ++ le_bytes 4 (matChunkSize (mShaderRecords idx))
  ++ le_bytes 8 (Z.of_nat (length (mShaderRecords idx)))
  ++ concat (map recordEntry (mShaderRecords idx))
  ++ concat (map recordTail (mShaderRecords idx)).

(** The messages [replaceShader] sends to [slog.e]. *)
Definition msg_decoding : string := "Internal chunk decoding error.".
Definition msg_too_many : string := "Chunk encoding error: too many unique codelines.".
Definition msg_unable : string := "Unable to replace shader.".

Definition newline : ascii := ascii_of_nat 10.

(** First pass of [replaceShader]: every record gets its text back.  The
    pass stops, and [replaceShader] returns, at the first record with an
    index outside the dictionary ([false]). *)
Definition derefLines (lines : list string) (indices : list Z) : string :=
  fold_left (fun text index =>
      (text +:+ default EmptyString (lines !! Z.to_nat index))
      +:+ String newline EmptyString)
    indices EmptyString.

Fixpoint decodeRecords (lines : list string) (records : list ShaderRecord)
    : list ShaderRecord * bool :=
  match records with
  | [] => ([], true)
  | record :: rest =>
      if forallb (fun index => index <? Z.of_nat (length lines)) (lineIndices record)
      then
        let record' :=
          mkShaderRecord (model record) (variant record) (stage record)
            (offset record) (lineIndices record)
            (derefLines lines (lineIndices record)) (stringLength record) in
        let '(rest', ok) := decodeRecords lines rest in
        (record' :: rest', ok)
      else (record :: rest, false)
  end.

(** Second pass: the first record with the key takes the new text. *)
Fixpoint replaceText (shaderModel variant_ stage_ : Z) (source : string)
    (records : list ShaderRecord) : list ShaderRecord :=
  match records with
  | [] => []
  | record :: rest =>
      if decide (model record = shaderModel ∧ variant record = variant_
                 ∧ stage record = stage_)
      then mkShaderRecord (model record) (variant record) (stage record)
             (offset record) (lineIndices record) source (stringLength record)
           :: rest
      else record :: replaceText shaderModel variant_ stage_ source rest
  end.

(** [table.emplace(key, v)] keeps an entry that is already there. *)
Definition emplace (key : string) (v : Z) (table : gmap string Z) : gmap string Z :=
  match table !! key with
  | Some _ => table
  | None => <[key := v]> table
  end.

(** The table seeded from the dictionary; [i] is the loop counter and
    [uint16_t(i)] the stored value. *)
Fixpoint buildTable (lines : list string) (i : Z) (table : gmap string Z)
    : gmap string Z :=
  match lines with
  | [] => table
  | line :: rest => buildTable rest (i + 1) (emplace line (i mod 2 ^ 16) table)
  end.

(** The lines the [for (cur ...)] loop visits: [line] collects the
    characters of the inner [while]; a newline closes the line and the
    loop goes on only if characters remain. *)
Fixpoint splitLines_from (text : string) (line : string) : list string :=
  match text with
  | EmptyString => [line]
  | String c text' =>
      if Ascii.eqb c newline then
        line :: match text' with
                | EmptyString => []
                | _ => splitLines_from text' EmptyString
                end
      else splitLines_from text' (line +:+ String c EmptyString)
  end.

Definition splitLines (text : string) : list string :=
  match text with
  | EmptyString => []
  | _ => splitLines_from text EmptyString
  end.

(** The keys of [table] are [std::string_view]s, not strings.  The keys
    seeded from the dictionary point into the strings of [mStringLines].
    The constructor sized that vector with [resize(count)], which leaves
    no room to spare, so the first [emplace_back] moves the strings to a
    new block, and moving a string may invalidate the views into it (a
    short string keeps its characters inside the object): the seeded keys
    dangle from then on.  The keys the loop adds point into
    [record.decodedShaderText], which stays where it is.  [seeded] is the
    number of strings the table was seeded from: the table holds a
    dangling key once the dictionary has grown beyond a non-empty seed. *)
Definition dangling (seeded : nat) (lines : list string) : bool :=
  bool_decide (0 < seeded < length lines)%nat.

(** The re-encoding of the lines of one record.  The running state is the
    table, the dictionary and the indices of the record; the pass stops
    ([false]) when a new line would take an index above [UINT16_MAX].
    [table.find] compares the line with the keys of the table: with a
    dangling key in the table the search is undefined ([None]). *)
Fixpoint encodeLines (seeded : nat) (newLines : list string) (table : gmap string Z)
    (lines : list string) (indices : list Z)
    : option (gmap string Z * list string * list Z * bool) :=
  match newLines with
  | [] => Some (table, lines, indices, true)
  | newLine :: rest =>
      if dangling seeded lines then None
      else
        match table !! newLine with
        | None =>
            let index := Z.of_nat (length lines) in
            if decide (index > UINT16_MAX) then Some (table, lines, indices, false)
            else encodeLines seeded rest (emplace newLine index table)
                   (lines ++ [newLine]) (indices ++ [index])
        | Some second => encodeLines seeded rest table lines (indices ++ [second])
        end
  end.

(** The last loop of [replaceShader] over the records; [offset] is its
    running variable. *)
Fixpoint encodeRecords (seeded : nat) (records : list ShaderRecord) (offset_ : Z)
    (table : gmap string Z) (lines : list string)
    : option (list ShaderRecord * list string * bool) :=
  match records with
  | [] => Some ([], lines, true)
  | record :: rest =>
      let text := decodedShaderText record in
      match encodeLines seeded (splitLines text) table lines [] with
      | None => None
      | Some (table', lines', indices, ok) =>
          let record' :=
            mkShaderRecord (model record) (variant record) (stage record)
              offset_ indices text (wrap32 (strlen text + 1)) in
          if ok then
            match encodeRecords seeded rest
                    (wrap32 (wrap32 (wrap32 (offset_ + 4) + 4)
                             + 2 * Z.of_nat (length indices)))
                    table' lines' with
            | None => None
            | Some (rest', lines'', ok') => Some (record' :: rest', lines'', ok')
            end
          else Some (record' :: rest, lines', false)
      end
  end.

(** [ShaderIndex::replaceShader]: the index after the call and the line
    logged, if any; [None] when the call is undefined. *)
Definition replaceShader (idx : ShaderIndex) (shaderModel variant_ stage_ : Z)
    (source : string) : option (ShaderIndex * option string) :=
  let '(decoded, ok) := decodeRecords (mStringLines idx) (mShaderRecords idx) in
  if ok then
    let replaced := replaceText (shaderModel mod 2 ^ 8) variant_ stage_ source decoded in
    let table := buildTable (mStringLines idx) 0 ∅ in
    let offset_ :=
      fold_left (fun offset_ _ =>
          wrap32 (wrap32 (wrap32 (wrap32 (offset_ + 1) + 1) + 1) + 4))
        replaced 8 in
    match encodeRecords (length (mStringLines idx)) replaced offset_ table
            (mStringLines idx) with
    | None => None
    | Some (records, lines, ok') =>
        Some (mkShaderIndex (mDictTag idx) (mMatTag idx) records lines,
              if ok' then None else Some msg_too_many)
    end
  else
    Some (mkShaderIndex (mDictTag idx) (mMatTag idx) decoded (mStringLines idx),
          Some msg_decoding).

(** No record of the index has the key. *)
Definition no_record_matches (idx : ShaderIndex) (shaderModel variant_ stage_ : Z) : Prop :=
  ∀ record, record ∈ mShaderRecords idx →
    ¬ (model record = shaderModel mod 2 ^ 8 ∧ variant record = variant_
       ∧ stage record = stage_).

(** *** The blob index: [BlobIndex] *)

Record BlobRecord := mkBlobRecord {
  bmodel : Z;
  bvariant : Z;
  bstage : Z;
  blobIndex : Z
}.

Record BlobIndex := mkBlobIndex {
  bDictTag : Z;
  bMatTag : Z;
  bShaderRecords : list BlobRecord;
  mDataBlobs : list (list Z)
}.

Definition BlobIndex_isEmpty (idx : BlobIndex) : bool :=
  bool_decide (length (mDataBlobs idx) = 0%nat ∧ length (bShaderRecords idx) = 0%nat).

(** The body of the loop that fills one record of the blob index.  The
    records are value-initialised, so a failed read leaves zeros. *)
Definition readBlobRecord (stream : istream) : BlobRecord * istream :=
  let '(m, s1) := sread stream [0] 1 in
  let '(v, s2) := sread s1 [0] 1 in
  let '(st, s3) := sread s2 [0] 1 in
  let '(bi, s4) := sread s3 (replicate 4 0) 4 in
  (mkBlobRecord (le_value m) (le_value v) (le_value st) (le_value bi), s4).

Fixpoint readBlobRecords (count : nat) (stream : istream) : list BlobRecord :=
  match count with
  | O => []
  | S count' =>
      let '(r, stream') := readBlobRecord stream in
      r :: readBlobRecords count' stream'
  end.

(** [BlobIndex::replaceShader].  The blob of the first record with the
    key is overwritten in place with the new bytes; a blob index outside
    the dictionary is undefined ([None]).  Without such a record the
    index is left as it is and one line is logged. *)
Fixpoint findBlobRecord (shaderModel variant_ stage_ : Z)
    (records : list BlobRecord) : option BlobRecord :=
  match records with
  | [] => None
  | record :: rest =>
      if decide (bmodel record = shaderModel ∧ bvariant record = variant_
                 ∧ bstage record = stage_)
      then Some record
      else findBlobRecord shaderModel variant_ stage_ rest
  end.

Definition BlobIndex_replaceShader (idx : BlobIndex)
    (shaderModel variant_ stage_ : Z) (source : list Z)
    : option (BlobIndex * option string) :=
  match findBlobRecord (shaderModel mod 2 ^ 8) variant_ stage_ (bShaderRecords idx) with
  | Some record =>
      let i := Z.to_nat (blobIndex record) in
      guard (i < length (mDataBlobs idx))%nat;;
      Some (mkBlobIndex (bDictTag idx) (bMatTag idx) (bShaderRecords idx)
              (<[i := source]> (mDataBlobs idx)), None)
  | None => Some (idx, Some msg_unable)
  end.

(** Modelled from the spec: [filamat::BlobDictionary::addBlob], whose
    source is not part of the embedded files.  A blob that byte-equals one
    already stored gets the index of that one; any other blob is appended
    and gets the next index. *)
Definition addBlob (blobs : list (list Z)) (blob : list Z) : list (list Z) * Z :=
  match list_find (fun b => b = blob) blobs with
  | Some (i, _) => (blobs, Z.of_nat i)
  | None => (blobs ++ [blob], Z.of_nat (length blobs))
  end.

(** The words of a blob, as [vector<uint32_t>(ptr, ptr + src.size() / 4)]
    copies them: the bytes of the whole words. *)
Definition blobWords (src : list Z) : list Z :=
  take (4 * (length src / 4)) src.

(** The first loop of [BlobIndex::writeChunks]: equal blobs are merged and
    every record gets the index of its blob in the new dictionary.  A
    record whose index is outside [mDataBlobs] is undefined ([None]). *)
Fixpoint consolidate (dataBlobs : list (list Z)) (records : list BlobRecord)
    (blobs : list (list Z)) : option (list BlobRecord * list (list Z)) :=
  match records with
  | [] => Some ([], blobs)
  | record :: rest =>
      src ← dataBlobs !! Z.to_nat (blobIndex record);
      let '(blobs', i) := addBlob blobs (blobWords src) in
      '(rest', blobs'') ← consolidate dataBlobs rest blobs';
      Some (mkBlobRecord (bmodel record) (bvariant record) (bstage record)
              (wrap32 i) :: rest', blobs'')
  end.

Definition blobRecordEntry (record : BlobRecord) : list Z :=
  le_bytes 1 (bmodel record) ++ le_bytes 1 (bvariant record)
  ++ le_bytes 1 (bstage record) ++ le_bytes 4 (blobIndex record).

(** [backend::Backend]; the constructor of [ShaderReplacer] names three of
    its values and leaves the tags alone for the others. *)
Inductive Backend := DEFAULT | OPENGL | VULKAN | METAL | NOOP.

Section Replacer.
(** Declared outside the embedded files: the values of the chunk tags,
    the SPIR-V dictionary codec and the shader compiler. *)
Variables MaterialGlsl MaterialMetal MaterialSpirv : Z.
Variables DictionaryText DictionarySpirv Unknown : Z.
(** [DictionaryReader::unflatten]: the blobs of a dictionary chunk. *)
Variable unflatten : ChunkContainer → Z → option (list (list Z)).
(** The flattened [DictionarySpirvChunk] for a dictionary and a pad: the
    bytes that reach the stream. *)
Variable flattenDictionary : list (list Z) → nat → list Z.
(** glslang: the SPIR-V bytes for a shader model, a stage and a source,
    or a parse or link failure. *)
Variable compileSpirv : Z → Z → string → option (list Z).

(** [BlobIndex::BlobIndex] *)
Definition BlobIndex_new (dictTag matTag : Z) (cc : ChunkContainer) : option BlobIndex :=
  blobs ← unflatten cc dictTag;
  chunkContent ← getChunkStart cc matTag;
  chunkEnd ← getChunkEnd cc matTag;
  let stream := istream_of (take (chunkEnd - chunkContent) (drop chunkContent (ccData cc))) in
  let '(recordCount, stream) := sread stream (replicate 8 0) 8 in
  guard (sgood stream = true);;
  Some (mkBlobIndex dictTag matTag
          (readBlobRecords (Z.to_nat (le_value recordCount)) stream) blobs).

(** [BlobIndex::writeChunks]: the index after the call and the stream. *)
Definition BlobIndex_writeChunks (idx : BlobIndex) (stream : list Z)
    : option (BlobIndex * list Z) :=
  '(records, blobs) ← consolidate (mDataBlobs idx) (bShaderRecords idx) [];
  let pad := (length stream mod 8)%nat in
  let size := wrap32 (8 + Z.of_nat (length records) * (1 + 1 + 1 + 4)) in
  Some (mkBlobIndex (bDictTag idx) (bMatTag idx) records (mDataBlobs idx),
        stream ++ flattenDictionary blobs pad
        ++ le_bytes 8 (bMatTag idx) ++ le_bytes 4 size
        ++ le_bytes 8 (Z.of_nat (length records))
        ++ concat (map blobRecordEntry records)).

(** [ShaderReplacer]: the constructor picks the two tags. *)
Record ShaderReplacer := mkReplacer {
  mBackend : Backend;
  mOriginalPackage : list Z;
  mMaterialTag : Z;
  mDictionaryTag : Z;
  mEditedPackage : option (list Z)
}.

Definition ShaderReplacer_new (backend : Backend) (data : list Z) : ShaderReplacer :=
  match backend with
  | OPENGL => mkReplacer backend data MaterialGlsl DictionaryText None
  | METAL => mkReplacer backend data MaterialMetal DictionaryText None
  | VULKAN => mkReplacer backend data MaterialSpirv DictionarySpirv None
  | DEFAULT | NOOP => mkReplacer backend data Unknown Unknown None
  end.

Definition setEdited (r : ShaderReplacer) (data : list Z) : ShaderReplacer :=
  mkReplacer (mBackend r) (mOriginalPackage r) (mMaterialTag r)
    (mDictionaryTag r) (Some data).

(** [ShaderReplacer::replaceSpirv], entered with a parsed package.  The
    result is the returned flag and the replacer after the call;
    [None] stands for undefined behaviour. *)
Definition replaceSpirv (r : ShaderReplacer) (cc : ChunkContainer)
    (shaderModel variant_ stage_ : Z) (source : string)
    : option (bool * ShaderReplacer) :=
  match compileSpirv shaderModel stage_ source with
  | None => Some (false, r)
  | Some spirv =>
      copied ← cloneChunks (mDictionaryTag r) (mMaterialTag r) (ccData cc);
      shaderIndex ← BlobIndex_new (mDictionaryTag r) (mMaterialTag r) cc;
      if BlobIndex_isEmpty shaderIndex then Some (true, setEdited r copied)
      else
        '(shaderIndex', _) ← BlobIndex_replaceShader shaderIndex shaderModel
                               variant_ stage_ spirv;
        '(_, out) ← BlobIndex_writeChunks shaderIndex' copied;
        Some (true, setEdited r out)
  end.

(** [ShaderReplacer::replaceShaderSource] *)
Definition replaceShaderSource (r : ShaderReplacer)
    (shaderModel variant_ stage_ : Z) (source : string)
    : option (bool * ShaderReplacer) :=
  match parse (mOriginalPackage r) with
  | None => Some (false, r)
  | Some cc =>
      if negb (hasChunk cc (mMaterialTag r)) || negb (hasChunk cc (mDictionaryTag r))
      then Some (false, r)
      else if decide (mDictionaryTag r = DictionarySpirv)
      then replaceSpirv r cc shaderModel variant_ stage_ source
      else
        copied ← cloneChunks (mDictionaryTag r) (mMaterialTag r) (ccData cc);
        shaderIndex ← ShaderIndex_new (mDictionaryTag r) (mMaterialTag r) cc;
        if isEmpty shaderIndex then Some (true, setEdited r copied)
        else
          '(shaderIndex', _) ←
            replaceShader shaderIndex shaderModel variant_ stage_ source;
          Some (true, setEdited r (writeChunks shaderIndex' copied))
  end.

Definition getEditedPackage (r : ShaderReplacer) : option (list Z) :=
  mEditedPackage r.

End Replacer.

End Matdbg.

(** * Inputs used in the statements *)

Module Inputs.
Import Uberz.

Local Open Scope string_scope.

(** A request for one feature, and specs whose flags are named like the
    feature, or like an extension of it. *)
Definition reqs_normalMap : ArchiveRequirements :=
  mkReqs LIT OPAQUE {[ "normalMap" := true ]}.

Definition reqs_plain : ArchiveRequirements := mkReqs LIT OPAQUE ∅.

Definition spec_normalMapped : ArchiveSpec :=
  mkSpec INVALID_SHADING_MODEL INVALID_BLENDING [mkFlag "normalMapped" OPTIONAL] [1].

Definition spec_normalMap : ArchiveSpec :=
  mkSpec INVALID_SHADING_MODEL INVALID_BLENDING [mkFlag "normalMap" OPTIONAL] [2].

Definition spec_shadowed : ArchiveSpec :=
  mkSpec INVALID_SHADING_MODEL INVALID_BLENDING
    [mkFlag "normalMapped" UNSUPPORTED; mkFlag "normalMap" OPTIONAL] [3].

Definition spec_required : ArchiveSpec :=
  mkSpec LIT INVALID_BLENDING [mkFlag "normalMap" REQUIRED] [4].

Definition flags_two : list ArchiveFlag :=
  [mkFlag "normalMap" OPTIONAL; mkFlag "normalMapped" UNSUPPORTED].

(** Two materials for the writer, with numeric values for the
    enumerations and a codec that stores the buffer as it is. *)
Definition material_A : Material :=
  mkMaterial "A" [1; 2; 3] [("hasBaseColorMap", REQUIRED)] OPAQUE LIT.

Definition material_B : Material :=
  mkMaterial "B" [9] [] INVALID_BLENDING INVALID_SHADING_MODEL.

Definition shading_code (s : Shading) : Z :=
  match s with
  | UNLIT => 0 | LIT => 1 | SUBSURFACE => 2 | CLOTH => 3
  | SPECULAR_GLOSSINESS => 4 | INVALID_SHADING_MODEL => 255
  end.

Definition blending_code (b : BlendingMode) : Z :=
  match b with
  | OPAQUE => 0 | TRANSPARENT => 1 | ADD => 2 | MASKED => 3 | FADE => 4
  | MULTIPLY => 5 | SCREEN => 6 | INVALID_BLENDING => 255
  end.

Definition feature_code (f : ArchiveFeature) : Z :=
  match f with UNSUPPORTED => 0 | OPTIONAL => 1 | REQUIRED => 2 end.

Definition store (b : list Z) : list Z := b.
Definition unstore (b : list Z) : option (list Z) := Some b.

Definition writer_AB : WritableArchive := mkWritable 1 1 [material_A; material_B].

End Inputs.

Module PackageInputs.
Import Matdbg.

Local Open Scope string_scope.

(** Values for the chunk tags: the eight characters of a tag name, packed
    from the most significant byte down. *)
Definition MaterialGlsl : Z := 0x4D41545F474C534C.
Definition MaterialMetal : Z := 0x4D41545F4D45544C.
Definition MaterialSpirv : Z := 0x4D41545F53504952.
Definition DictionaryText : Z := 0x4449435F54455854.
Definition DictionarySpirv : Z := 0x4449435F53504952.
Definition Unknown : Z := 0x554E4B4E4F574E20.
Definition tag_other : Z := 0xDEADBEEF01020304.

(** Stand-ins for the SPIR-V side, which the text path never calls. *)
Definition no_unflatten (cc : ChunkContainer) (tag : Z) : option (list (list Z)) := None.
Definition no_flatten (blobs : list (list Z)) (pad : nat) : list Z := [].
Definition no_compile (shaderModel stage_ : Z) (source : string) : option (list Z) := None.

(** A GLSL package with one record, key (1, 7, 0), whose text is two
    lines, followed by a chunk of another kind. *)
Definition dict_payload : list Z :=
  le_bytes 4 2 ++ c_str "#version 310 es" ++ c_str "void main(){}".

Definition mat_payload : list Z :=
  le_bytes 8 1
  ++ [1; 7; 0] ++ le_bytes 4 15
  ++ le_bytes 4 31 ++ le_bytes 4 2 ++ le_bytes 2 0 ++ le_bytes 2 1.

Definition other_chunk : list Z := chunk_bytes tag_other [1; 2; 3].

Definition package_other_last : list Z :=
  chunk_bytes DictionaryText dict_payload
  ++ chunk_bytes MaterialGlsl mat_payload
  ++ other_chunk.

Definition package_other_first : list Z :=
  other_chunk
  ++ chunk_bytes DictionaryText dict_payload
  ++ chunk_bytes MaterialGlsl mat_payload.

Definition new_source : string := "void main(){ gl_Position=vec4(0); }".

(** The two rewritten chunks after the record took [new_source]. *)
Definition dict_payload_new : list Z :=
  le_bytes 4 3 ++ c_str "#version 310 es" ++ c_str "void main(){}"
  ++ c_str new_source.

Definition mat_payload_new : list Z :=
  le_bytes 8 1
  ++ [1; 7; 0] ++ le_bytes 4 15
  ++ le_bytes 4 36 ++ le_bytes 4 1 ++ le_bytes 2 2.

Definition replacer (data : list Z) : ShaderReplacer :=
  ShaderReplacer_new MaterialGlsl MaterialMetal MaterialSpirv
    DictionaryText DictionarySpirv Unknown OPENGL data.

(** The index of the package above. *)
Definition index_small : ShaderIndex :=
  mkShaderIndex DictionaryText MaterialGlsl
    [mkShaderRecord 1 7 0 15 [0; 1] "" 31]
    ["#version 310 es"; "void main(){}"].

(** A dictionary of 65535 distinct lines and one record without text. *)
Fixpoint bits (p : positive) : string :=
  match p with
  | xH => "1"
  | xO q => String "0" (bits q)
  | xI q => String "1" (bits q)
  end.

Fixpoint lines_from (k : nat) (p : positive) : list string :=
  match k with
  | O => []
  | S k' => bits p :: lines_from k' (Pos.succ p)
  end.

Definition index_65535 : ShaderIndex :=
  mkShaderIndex DictionaryText MaterialGlsl
    [mkShaderRecord 1 7 0 15 [] "" 1]
    (lines_from (Z.to_nat 65535) 1).

(** The same record over a dictionary of 65536 distinct lines. *)
Definition index_65536 : ShaderIndex :=
  mkShaderIndex DictionaryText MaterialGlsl
    [mkShaderRecord 1 7 0 15 [] "" 1]
    (lines_from (Z.to_nat 65536) 1).

(** Two SPIR-V records that share blob 0. *)
Definition blob_old : list Z := [3; 2; 35; 7; 0; 0; 1; 0].
Definition blob_new : list Z := [3; 2; 35; 7; 0; 0; 2; 0; 9; 9; 9; 9].

Definition index_shared : BlobIndex :=
  mkBlobIndex DictionarySpirv MaterialSpirv
    [mkBlobRecord 1 0 0 0; mkBlobRecord 1 1 0 0]
    [blob_old].

End PackageInputs.

(** * More of the archive: the default material, the spec files *)

Module UberzMore.
Import Uberz.

Local Open Scope string_scope.

Section DefaultMaterial.
Context {Material : Type} (build : list Z → Material).

(** [ArchiveCache::getDefaultMaterial]: the material of the first spec,
    built on first use.  An empty [mMaterials] trips the assertion
    ([None]). *)
Definition getDefaultMaterial (c : ArchiveCache)
    : option (Material * ArchiveCache (Material := Material)) :=
  match mMaterials c !! 0%nat, mArchive c with
  | Some (Some m), _ :: _ => Some (m, c)
  | Some None, spec :: _ =>
      let m := build (package spec) in
      Some (m, mkCache (mArchive c) (<[0%nat := Some m]> (mMaterials c)))
  | _, _ => None
  end.

End DefaultMaterial.

(** The two [toString] functions of the debug build.  The switches have
    no case for the sentinels: control then runs off the end of the
    function ([None]). *)
Definition toString_Shading (shadingModel : Shading) : option string :=
  match shadingModel with
  | UNLIT => Some "unlit"
  | LIT => Some "lit"
  | SUBSURFACE => Some "subsurface"
  | CLOTH => Some "cloth"
  | SPECULAR_GLOSSINESS => Some "specularGlossiness"
  | INVALID_SHADING_MODEL => None
  end.

Definition toString_BlendingMode (blendingMode : BlendingMode) : option string :=
  match blendingMode with
  | OPAQUE => Some "opaque"
  | TRANSPARENT => Some "transparent"
  | ADD => Some "add"
  | MASKED => Some "masked"
  | FADE => Some "fade"
  | MULTIPLY => Some "multiply"
  | SCREEN => Some "screen"
  | INVALID_BLENDING => None
  end.

(** [Keyword::test]: [strncmp(cursor, txt, len) == 0] with [len] the
    length of the keyword. *)
Definition Keyword_test (txt cursor : string) : bool :=
  strncmp_eq cursor txt (String.length txt).

(** The three readers return the length of the keyword they found and
    store its value, or return 0 and store nothing ([None]). *)
Definition readArchiveFeature (cursor : string) : option (ArchiveFeature * nat) :=
  if Keyword_test "unsupported" cursor then Some (UNSUPPORTED, String.length "unsupported")
  else if Keyword_test "required" cursor then Some (REQUIRED, String.length "required")
  else if Keyword_test "optional" cursor then Some (OPTIONAL, String.length "optional")
  else None.

Definition readBlendingMode (cursor : string) : option (BlendingMode * nat) :=
  if Keyword_test "opaque" cursor then Some (OPAQUE, String.length "opaque")
  else if Keyword_test "transparent" cursor then Some (TRANSPARENT, String.length "transparent")
  else if Keyword_test "add" cursor then Some (ADD, String.length "add")
  else if Keyword_test "masked" cursor then Some (MASKED, String.length "masked")
  else if Keyword_test "fade" cursor then Some (FADE, String.length "fade")
  else if Keyword_test "multiply" cursor then Some (MULTIPLY, String.length "multiply")
  else if Keyword_test "screen" cursor then Some (SCREEN, String.length "screen")
  else None.

Definition readShadingModel (cursor : string) : option (Shading * nat) :=
  if Keyword_test "unlit" cursor then Some (UNLIT, String.length "unlit")
  else if Keyword_test "lit" cursor then Some (LIT, String.length "lit")
  else if Keyword_test "subsurface" cursor then Some (SUBSURFACE, String.length "subsurface")
  else if Keyword_test "cloth" cursor then Some (CLOTH, String.length "cloth")
  else if Keyword_test "specularGlossiness" cursor
  then Some (SPECULAR_GLOSSINESS, String.length "specularGlossiness")
  else None.

Definition char_between (lo hi c : ascii) : bool :=
  (N_of_ascii lo <=? N_of_ascii c)%N && (N_of_ascii c <=? N_of_ascii hi)%N.

Definition isAlphaNumeric (c : ascii) : bool :=
  char_between "0" "9" c || Ascii.eqb c "_"
  || char_between "a" "z" c || char_between "A" "Z" c.

Definition isWhitespace (c : ascii) : bool :=
  Ascii.eqb c " " || Ascii.eqb c (ascii_of_nat 9).

Fixpoint readIdentifier (cursor : string) : nat :=
  match cursor with
  | String c rest => if isAlphaNumeric c then S (readIdentifier rest) else O
  | EmptyString => O
  end.

Fixpoint readWhitespace (cursor : string) : nat :=
  match cursor with
  | String c rest => if isWhitespace c then S (readWhitespace rest) else O
  | EmptyString => O
  end.

(** [cursor += n] and the first [n] characters at the cursor. *)
Fixpoint advance (n : nat) (cursor : string) : string :=
  match n, cursor with
  | S n', String _ rest => advance n' rest
  | _, _ => cursor
  end.

Fixpoint prefix_of_cursor (n : nat) (cursor : string) : string :=
  match n, cursor with
  | S n', String c rest => String c (prefix_of_cursor n' rest)
  | _, _ => EmptyString
  end.

(** The keywords of the three feature values, as the namespace
    [Keywords] spells them. *)
Definition feature_keyword (f : ArchiveFeature) : string :=
  match f with
  | UNSUPPORTED => "unsupported"
  | OPTIONAL => "optional"
  | REQUIRED => "required"
  end.

(** Every character of a string passes a test; the first character of a
    string fails it. *)
Fixpoint string_forallb (P : ascii → bool) (s : string) : bool :=
  match s with
  | EmptyString => true
  | String c rest => P c && string_forallb P rest
  end.

Definition head_fails (P : ascii → bool) (s : string) : Prop :=
  match s with
  | EmptyString => False
  | String c _ => P c = false
  end.

(** What a call of [addSpecLine] ends in: the archive after the line, the
    panic of [emitSyntaxError] with the name of the material, the line
    and the column, or the failed assertion on [mMaterialIndex]. *)
Inductive SpecLineResult :=
  | Accepted (a : WritableArchive)
  | SyntaxError (file : string) (line column : Z) (msg : string)
  | NoMaterial.

(** A cursor is the rest of the line and its distance from the start of
    the line. *)
Definition skipWhitespace (cur : string * Z) : string * Z :=
  let n := readWhitespace (fst cur) in
  (advance n (fst cur), snd cur + Z.of_nat n).

(** [if ( *cursor++ != '=')]: whether the character is the equal sign,
    and the cursor behind it. *)
Definition equalSign (cur : string * Z) : bool * (string * Z) :=
  match fst cur with
  | String c rest => (Ascii.eqb c "=", (rest, snd cur + 1))
  | EmptyString => (false, (EmptyString, snd cur + 1))
  end.

Section SpecLines.
(** [material.flags[id]] on a key the map does not hold yet: the order in
    which the [robin_map] then iterates over the old entries and the new
    one is the map's own business. *)
Variable robin_insert :
  list (string * ArchiveFeature) → string → ArchiveFeature
  → list (string * ArchiveFeature).

(** [material.flags[id] = v]: the entry of the key is overwritten where it
    stands; a key without entry is inserted. *)
Fixpoint overwriteFlag (fl : list (string * ArchiveFeature)) (id : string)
    (v : ArchiveFeature) : option (list (string * ArchiveFeature)) :=
  match fl with
  | [] => None
  | entry :: rest =>
      if String.eqb (fst entry) id then Some ((id, v) :: rest)
      else option_map (cons entry) (overwriteFlag rest id v)
  end.

Definition setFlag (fl : list (string * ArchiveFeature)) (id : string)
    (v : ArchiveFeature) : list (string * ArchiveFeature) :=
  match overwriteFlag fl id v with
  | Some fl' => fl'
  | None => robin_insert fl id v
  end.

(** The three lambdas of [addSpecLine].  Each returns the material and
    the cursor it leaves, or the column and the message of its syntax
    error. *)
Definition parseFeatureFlag (material : Material) (cur : string * Z)
    : Material * (string * Z) + Z * string :=
  let length := readIdentifier (fst cur) in
  if Nat.eqb length 0 then inr (1 + snd cur, "expected identifier")
  else
    let id := prefix_of_cursor length (fst cur) in
    let cur := (advance length (fst cur), snd cur + Z.of_nat length) in
    let cur := skipWhitespace cur in
    let '(eq, cur) := equalSign cur in
    if negb eq then inr (1 + snd cur, "expected equal sign")
    else
      let cur := skipWhitespace cur in
      match readArchiveFeature (fst cur) with
      | None => inr (1 + snd cur, "expected unsupported / optional / required")
      | Some (feature, length) =>
          inl (mkMaterial (mname material) (mpackage material)
                 (setFlag (mflags material) id feature)
                 (mblendingMode material) (mshadingModel material),
               (advance length (fst cur), snd cur + Z.of_nat length))
      end.

Definition parseBlendingMode (material : Material) (cur : string * Z)
    : Material * (string * Z) + Z * string :=
  let cur := skipWhitespace cur in
  let '(eq, cur) := equalSign cur in
  if negb eq then inr (1 + snd cur, "expected equal sign")
  else
    let cur := skipWhitespace cur in
    match readBlendingMode (fst cur) with
    | None => inr (1 + snd cur, "expected lowercase blending mode enum")
    | Some (blending, length) =>
        inl (mkMaterial (mname material) (mpackage material) (mflags material)
               blending (mshadingModel material),
             (advance length (fst cur), snd cur + Z.of_nat length))
    end.

Definition parseShadingModel (material : Material) (cur : string * Z)
    : Material * (string * Z) + Z * string :=
  let cur := skipWhitespace cur in
  let '(eq, cur) := equalSign cur in
  if negb eq then inr (1 + snd cur, "expected equal sign")
  else
    let cur := skipWhitespace cur in
    match readShadingModel (fst cur) with
    | None => inr (1 + snd cur, "expected lowercase shading enum")
    | Some (shading, length) =>
        inl (mkMaterial (mname material) (mpackage material) (mflags material)
               (mblendingMode material) shading,
             (advance length (fst cur), snd cur + Z.of_nat length))
    end.

Definition isSkipped (line : string) : bool :=
  match line with
  | EmptyString => true
  | String c _ => Ascii.eqb c "#"
  end.

(** [WritableArchive::addSpecLine] *)
Definition addSpecLine (a : WritableArchive) (line : string) : SpecLineResult :=
  if decide (wMaterialIndex a > -1) then
    match wMaterials a !! Z.to_nat (wMaterialIndex a) with
    | None => NoMaterial
    | Some material =>
        if isSkipped line then
          Accepted (mkWritable (wLineNumber a + 1) (wMaterialIndex a) (wMaterials a))
        else
          let parsed :=
            if Keyword_test "BlendingMode" line then
              parseBlendingMode material
                (advance (String.length "BlendingMode") line,
                 Z.of_nat (String.length "BlendingMode"))
            else if Keyword_test "ShadingModel" line then
              parseShadingModel material
                (advance (String.length "ShadingModel") line,
                 Z.of_nat (String.length "ShadingModel"))
            else parseFeatureFlag material (line, 0) in
          match parsed with
          | inr (column, msg) => SyntaxError (mname material) (wLineNumber a) column msg
          | inl (material', cur) =>
              match fst cur with
              | String _ _ =>
                  SyntaxError (mname material') (wLineNumber a) (1 + snd cur)
                    "unexpected trailing character"
              | EmptyString =>
                  Accepted (mkWritable (wLineNumber a + 1) (wMaterialIndex a)
                              (<[Z.to_nat (wMaterialIndex a) := material']> (wMaterials a)))
              end
          end
    end
  else NoMaterial.

End SpecLines.

(** *** What the reader is to find *)

Section Expected.
Variable shading_code : Shading → Z.
Variable blending_code : BlendingMode → Z.
Variable feature_code : ArchiveFeature → Z.

(** The relocated flag and spec that stand for a flag and a material of
    the writer. *)
Definition readableFlag_of (entry : string * ArchiveFeature) : ReadableFlag :=
  mkReadableFlag (fst entry) (feature_code (snd entry)).

Definition readableSpec_of (mat : Material) : ReadableSpec :=
  mkReadableSpec (shading_code (mshadingModel mat))
    (blending_code (mblendingMode mat))
    (map readableFlag_of (mflags mat)) (mpackage mat).

End Expected.

(** A string a [CString] can hold: no character is the terminator. *)
Definition nul_free (s : string) : bool :=
  string_forallb (fun c => negb (Ascii.eqb c Ascii.zero)) s.

End UberzMore.

Module SpecInputs.
Import Uberz.

(** A map that iterates over a new entry first. *)
Definition insert_front (fl : list (string * ArchiveFeature)) (k : string)
    (v : ArchiveFeature) : list (string * ArchiveFeature) :=
  (k, v) :: fl.

End SpecInputs.

(** ** The writers a client can reach *)

Module WriterHistory.
Import Uberz UberzMore.

Section History.
Variable robin_insert :
  list (string * ArchiveFeature) → string → ArchiveFeature
  → list (string * ArchiveFeature).

(** Modelled from the spec: the constructor of [WritableArchive], which
    is declared outside the embedded files.  It makes the slots of the
    materials, their number fixed from then on, and leaves
    [mMaterialIndex] one below the first slot, where [addMaterial], which
    fills slot [++mMaterialIndex], and the assertion of [addSpecLine]
    expect it.  [written n a]: the writer [a] is reached from a new
    writer by [n] calls of [addMaterial] and any number of accepted calls
    of [addSpecLine]. *)
Inductive written : nat → WritableArchive → Prop :=
  | written_new lineNumber slots :
      written 0 (mkWritable lineNumber (-1) slots)
  | written_addMaterial n a nm pkg a' :
      written n a → addMaterial a nm pkg = Some a' → written (S n) a'
  | written_addSpecLine n a line a' :
      written n a → addSpecLine robin_insert a line = Accepted a' →
      written n a'.

End History.

(** A new writer of two slots; what the slots hold before a material is
    added plays no part in what follows. *)
Definition unset_material : Material :=
  mkMaterial EmptyString [] [] INVALID_BLENDING INVALID_SHADING_MODEL.

Definition writer_two_slots : WritableArchive :=
  mkWritable 1 (-1) [unset_material; unset_material].

(** The same writer after one call of [addMaterial]. *)
Definition writer_one_added : WritableArchive :=
  mkWritable 1 0
    [mkMaterial "A" [1; 2; 3] [] INVALID_BLENDING INVALID_SHADING_MODEL;
     unset_material].

End WriterHistory.

(** ** What the rewritten chunks hold *)

Module MatdbgMore.
Import Matdbg.

Local Open Scope string_scope.

(** The payloads of the chunks [ShaderIndex::writeChunks] and
    [BlobIndex::writeChunks] serialize, without their tag and size. *)
Definition dictPayload (lines : list string) : list Z :=
  le_bytes 4 (Z.of_nat (length lines)) ++ concat (map c_str lines).

Definition matPayload (records : list ShaderRecord) : list Z :=
  le_bytes 8 (Z.of_nat (length records))
  ++ concat (map recordEntry records) ++ concat (map recordTail records).

Definition blobMatPayload (records : list BlobRecord) : list Z :=
  le_bytes 8 (Z.of_nat (length records)) ++ concat (map blobRecordEntry records).

(** The lines of a text put together again, each followed by a newline:
    what the first pass of [replaceShader] makes of a list of lines. *)
Definition joinLines (lines : list string) : string :=
  fold_right (fun line text => line +:+ String newline text) EmptyString lines.

(** A text with a newline behind its last line, if it has none. *)
Fixpoint terminated (text : string) : string :=
  match text with
  | EmptyString => EmptyString
  | String c rest =>
      match rest with
      | EmptyString =>
          if Ascii.eqb c newline then text
          else String c (String newline EmptyString)
      | _ => String c (terminated rest)
      end
  end.

(** A record as the constructor of [ShaderIndex] reads it: the text is
    not stored in the package. *)
Definition stored (record : ShaderRecord) : ShaderRecord :=
  mkShaderRecord (model record) (variant record) (stage record)
    (offset record) (lineIndices record) EmptyString (stringLength record).

(** The fields of a record fit the widths [writeChunks] gives them. *)
Definition record_fits (record : ShaderRecord) : Prop :=
  0 ≤ model record < 2 ^ 8 ∧ 0 ≤ variant record < 2 ^ 8
  ∧ 0 ≤ stage record < 2 ^ 8 ∧ 0 ≤ offset record < 2 ^ 32
  ∧ 0 ≤ stringLength record < 2 ^ 32
  ∧ Forall (fun index => 0 ≤ index < 2 ^ 16) (lineIndices record).

(** Every record points at its own tail: [offset] counts the bytes of
    the payload in front of it. *)
Definition tails_at (records : list ShaderRecord) : Prop :=
  ∀ i record, records !! i = Some record →
    offset record
    = 8 + 7 * Z.of_nat (length records)
      + Z.of_nat (length (concat (map recordTail (take i records)))).

(** The fields of a blob record fit the widths [writeChunks] gives
    them. *)
Definition blob_record_fits (record : BlobRecord) : Prop :=
  (0 ≤ bmodel record < 2 ^ 8 ∧ 0 ≤ bvariant record < 2 ^ 8
   ∧ 0 ≤ bstage record < 2 ^ 8 ∧ 0 ≤ blobIndex record < 2 ^ 32)%Z.

(** A dictionary string that holds no line feed. *)
Definition newline_free (s : string) : bool :=
  UberzMore.string_forallb (fun c => negb (Ascii.eqb c newline)) s.

(** The line indices of the records are unsigned, as [uint16_t] is. *)
Definition unsigned_indices (idx : ShaderIndex) : Prop :=
  ∀ record index, record ∈ mShaderRecords idx →
    index ∈ lineIndices record → (0 ≤ index)%Z.

(** The table of [replaceShader] names lines of the dictionary. *)
Definition table_names (table : gmap string Z) (lines : list string) : Prop :=
  ∀ (line : string) (index : Z), table !! line = Some index →
    (0 ≤ index)%Z ∧ lines !! Z.to_nat index = Some line.

(** The chunk table of a chunk stream that starts at [pos]: every tag
    with the start and the size of its payload, a later chunk taking the
    place of an earlier one with the same tag. *)
Fixpoint chunkTable (pos : nat) (cs : list (Z * list Z))
    (chunks : gmap Z (nat * nat)) : gmap Z (nat * nat) :=
  match cs with
  | [] => chunks
  | c :: cs' =>
      chunkTable (pos + 12 + length (snd c)) cs'
        (<[fst c := (pos + 12, length (snd c))%nat]> chunks)
  end.

(** What the last loop of [replaceShader] leaves in a record, in terms of
    the dictionary it leaves. *)
Definition reencoded (lines' : list string) (r r' : ShaderRecord) : Prop :=
  model r' = model r ∧ variant r' = variant r ∧ stage r' = stage r
  ∧ decodedShaderText r' = decodedShaderText r
  ∧ stringLength r' = wrap32 (strlen (decodedShaderText r) + 1)
  ∧ Forall2 (fun i l => (0 ≤ i)%Z ∧ lines' !! Z.to_nat i = Some l)
      (lineIndices r') (splitLines (decodedShaderText r)).

End MatdbgMore.

Module RewriteInputs.
Import Matdbg MatdbgMore PackageInputs.

Local Open Scope string_scope.

(** [index_small] after its record took [new_source], and a container
    that holds the two chunks written for it. *)
Definition lines_edited : list string :=
  ["#version 310 es"; "void main(){}"; new_source].

Definition record_edited : ShaderRecord :=
  mkShaderRecord 1 7 0 15 [2] new_source 36.

Definition index_edited : ShaderIndex :=
  mkShaderIndex DictionaryText MaterialGlsl [record_edited] lines_edited.

Definition package_edited : list Z :=
  (chunk_bytes DictionaryText (dictPayload lines_edited)
   ++ chunk_bytes MaterialGlsl (matPayload [record_edited]))%list.

Definition container_edited : ChunkContainer :=
  mkContainer package_edited
    (<[MaterialGlsl := (94, 25)%nat]> (<[DictionaryText := (12, 70)%nat]> ∅)).

(** An index whose record names a sixth line of a dictionary of two. *)
Definition record_bad : ShaderRecord := mkShaderRecord 1 7 0 15 [0; 5] "" 31.

Definition index_bad : ShaderIndex :=
  mkShaderIndex DictionaryText MaterialGlsl [record_bad]
    ["#version 310 es"; "void main(){}"].

End RewriteInputs.

(** * Little-endian fields *)

Module BytesFacts.

Lemma le_bytes_length n v : length (le_bytes n v) = n.
Proof. revert v; induction n as [|n IH]; intros v; simpl; [done | by rewrite IH]. Qed.

Lemma le_value_le_bytes n v :
  le_value (le_bytes n v) = v mod 2 ^ (8 * Z.of_nat n).
Proof.
  revert v; induction n as [|n IH]; intros v.
  - simpl. by rewrite Z.mod_1_r.
  - cbn [le_bytes le_value]. rewrite IH.
    replace (8 * Z.of_nat (S n)) with (8 + 8 * Z.of_nat n) by lia.
    rewrite Z.pow_add_r by lia.
    change (2 ^ 8) with 256.
    rewrite Z.rem_mul_r by lia. lia.
Qed.

(** A field that holds a value in range reads back as that value. *)
Lemma le_value_le_bytes_small n v :
  0 ≤ v < 2 ^ (8 * Z.of_nat n) → le_value (le_bytes n v) = v.
Proof. intros H. rewrite le_value_le_bytes. by apply Z.mod_small. Qed.

End BytesFacts.

(** * Properties of the archive matcher *)

Module UberzFacts.
Import Uberz.

Local Open Scope string_scope.

Lemma append_cons (x : ascii) (a s : string) :
  String x a +:+ s = String x (a +:+ s).
Proof. reflexivity. Qed.

Lemma append_nil_r (a : string) : a +:+ "" = a.
Proof. induction a as [|x a IH]; [done | by rewrite append_cons, IH]. Qed.

Lemma append_length (a s : string) :
  String.length (a +:+ s) = (String.length a + String.length s)%nat.
Proof.
  induction a as [|x a IH]; [done|].
  rewrite append_cons. simpl. by rewrite IH.
Qed.

(** [strIsEqual a b] holds exactly when [a] is a prefix of [b]. *)
Lemma strIsEqual_prefix (a b : string) :
  strIsEqual a b = true ↔ ∃ s, b = a +:+ s.
Proof.
  unfold strIsEqual. revert b.
  induction a as [|x a IH]; intros b; simpl.
  - split; [intros _; by exists b | done].
  - destruct b as [|y b].
    + split; [done | intros [s Hs]; discriminate].
    + destruct (Ascii.eqb_spec x y) as [->|Hxy].
      * rewrite IH. split; intros [s Hs]; exists s.
        -- by rewrite append_cons, Hs.
        -- rewrite append_cons in Hs. congruence.
      * split; [done | intros [s Hs]; rewrite append_cons in Hs; congruence].
Qed.

Lemma strIsEqual_refl (a : string) : strIsEqual a a = true.
Proof. apply strIsEqual_prefix. exists "". by rewrite append_nil_r. Qed.

(** The flag that decides: the first one whose name starts with the
    request. *)
Lemma findFlag_first (req : string) (fl1 : list ArchiveFlag) (f : ArchiveFlag)
    (fl2 : list ArchiveFlag) :
  (∀ g, g ∈ fl1 → strIsEqual req (name g) = false) →
  strIsEqual req (name f) = true →
  findFlag req (fl1 ++ f :: fl2) = bool_decide (value f ≠ UNSUPPORTED).
Proof.
  intros Hfl1 Hf. induction fl1 as [|g fl1 IH]; simpl.
  - rewrite Hf. destruct (value f); done.
  - rewrite (Hfl1 g) by left. apply IH. intros g' Hg'. apply Hfl1. by right.
Qed.

Lemma findFlag_none (req : string) (fl : list ArchiveFlag) :
  (∀ g, g ∈ fl → strIsEqual req (name g) = false) → findFlag req fl = false.
Proof.
  induction fl as [|g fl IH]; intros H; simpl; [done|].
  rewrite (H g) by left. apply IH. intros g' Hg'. apply H. by right.
Qed.

Lemma requiredLoop_false feat fl : requiredLoop feat fl false = false.
Proof. by destruct fl. Qed.

Lemma requiredLoop_unmet feat fl b flag :
  flag ∈ fl → value flag = REQUIRED → feat !! name flag ≠ Some true →
  requiredLoop feat fl b = false.
Proof.
  revert b. induction fl as [|g fl IH]; intros b Hin Hreq Hne.
  - by apply elem_of_nil in Hin.
  - destruct b; [|apply requiredLoop_false]. simpl.
    apply elem_of_cons in Hin as [<-|Hin].
    + rewrite decide_True by done.
      destruct (feat !! name flag) as [[|]|]; [done | | ]; apply requiredLoop_false.
    + by apply IH.
Qed.

Lemma requiredLoop_true feat fl :
  requiredLoop feat fl true = true ↔
  ∀ flag, flag ∈ fl → value flag = REQUIRED → feat !! name flag = Some true.
Proof.
  induction fl as [|g fl IH]; simpl.
  - split; [intros _ flag Hin; by apply elem_of_nil in Hin | done].
  - destruct (decide (value g = REQUIRED)) as [Hg|Hg].
    + destruct (feat !! name g) as [[|]|] eqn:E.
      * rewrite IH. split.
        -- intros H flag Hin Hreq. apply elem_of_cons in Hin as [->|Hin]; eauto.
        -- intros H flag Hin Hreq. apply H; [by right | done].
      * rewrite requiredLoop_false. split; [done|].
        intros H. specialize (H g). rewrite E in H.
        discriminate H; [by left | done].
      * rewrite requiredLoop_false. split; [done|].
        intros H. specialize (H g). rewrite E in H.
        discriminate H; [by left | done].
    + rewrite IH. split.
      * intros H flag Hin Hreq. apply elem_of_cons in Hin as [->|Hin]; eauto. done.
      * intros H flag Hin Hreq. apply H; [by right | done].
Qed.

Lemma coverageLoop_true reqs fl :
  coverageLoop reqs fl = true ↔
  ∀ n, (n, true) ∈ reqs → findFlag n fl = true.
Proof.
  induction reqs as [|[n b] reqs IH]; simpl.
  - split; [intros _ n Hin; by apply elem_of_nil in Hin | done].
  - destruct b; simpl.
    + destruct (findFlag n fl) eqn:E.
      * rewrite IH. split.
        -- intros H n' Hin. apply elem_of_cons in Hin as [Heq|Hin]; [congruence | eauto].
        -- intros H n' Hin. apply H. by right.
      * split; [done|]. intros H. rewrite <- E. apply H. by left.
    + rewrite IH. split.
      * intros H n' Hin. apply elem_of_cons in Hin as [Heq|Hin]; [congruence | eauto].
      * intros H n' Hin. apply H. by right.
Qed.

(** The test of one spec, read off the code. *)
Lemma specIsSuitable_true reqs spec :
  specIsSuitable reqs spec = true ↔
    doc_blending reqs spec ∧ doc_shading reqs spec
    ∧ (∀ n, features reqs !! n = Some true → findFlag n (flags spec) = true)
    ∧ doc_required reqs spec.
Proof.
  unfold specIsSuitable, doc_blending, doc_shading, doc_required.
  destruct (decide (blendingMode spec ≠ INVALID_BLENDING ∧ _)) as [[H1 H2]|Hb].
  { split; [done | intros [[?|?] _]; done]. }
  destruct (decide (shadingModel spec ≠ INVALID_SHADING_MODEL ∧ _)) as [[H1 H2]|Hs].
  { split; [done | intros (_ & [?|?] & _); done]. }
  assert (Hb' : blendingMode spec = INVALID_BLENDING
                ∨ blendingMode spec = reqBlendingMode reqs).
  { destruct (decide (blendingMode spec = INVALID_BLENDING)); [by left|].
    destruct (decide (blendingMode spec = reqBlendingMode reqs)); [by right|].
    exfalso. by apply Hb. }
  assert (Hs' : shadingModel spec = INVALID_SHADING_MODEL
                ∨ shadingModel spec = reqShadingModel reqs).
  { destruct (decide (shadingModel spec = INVALID_SHADING_MODEL)); [by left|].
    destruct (decide (shadingModel spec = reqShadingModel reqs)); [by right|].
    exfalso. by apply Hs. }
  destruct (coverageLoop (map_to_list (features reqs)) (flags spec)) eqn:Hc.
  - pose proof (proj1 (coverageLoop_true _ _) Hc) as Hc'. rewrite requiredLoop_true.
    split.
    + intros Hr. repeat split; try done.
      intros n Hn. apply Hc'. by apply elem_of_map_to_list.
    + by intros (_ & _ & _ & Hr).
  - rewrite requiredLoop_false. split; [done|].
    intros (_ & _ & Hcov & _).
    assert (coverageLoop (map_to_list (features reqs)) (flags spec) = true); [|congruence].
    apply coverageLoop_true. intros n Hin. apply Hcov.
    by apply elem_of_map_to_list in Hin.
Qed.

Section CacheFacts.
Context {Material : Type} (build : list Z → Material).

(** The loop skips a spec that fails the test. *)
Lemma getMaterial_from_skip reqs i spec rest mats :
  specIsSuitable reqs spec = false →
  getMaterial_from build reqs i (spec :: rest) mats
  = getMaterial_from build reqs (S i) rest mats.
Proof. intros H. simpl. by rewrite H. Qed.

(** The loop returns at the first spec that passes the test. *)
Lemma getMaterial_from_first reqs i pre spec post mats :
  (∀ s, s ∈ pre → specIsSuitable reqs s = false) →
  specIsSuitable reqs spec = true →
  fst (getMaterial_from build reqs i (pre ++ spec :: post) mats)
  = Some (match mats !! (i + length pre)%nat with
          | Some (Some m) => m
          | _ => build (package spec)
          end).
Proof.
  revert i. induction pre as [|s pre IH]; intros i Hpre Hspec.
  - simpl. rewrite Hspec. rewrite Nat.add_0_r.
    destruct (mats !! i) as [[m|]|]; done.
  - rewrite <- app_comm_cons, getMaterial_from_skip by (apply Hpre; by left).
    rewrite IH; [|intros s' Hs'; apply Hpre; by right | done].
    simpl length. by rewrite Nat.add_succ_r.
Qed.

Lemma getMaterial_from_none reqs i specs mats :
  (∀ s, s ∈ specs → specIsSuitable reqs s = false) →
  getMaterial_from build reqs i specs mats = (None, mats).
Proof.
  revert i. induction specs as [|s specs IH]; intros i H; [done|].
  rewrite getMaterial_from_skip by (apply H; by left).
  apply IH. intros s' Hs'. apply H. by right.
Qed.

End CacheFacts.

(** With exact names the flag found is the flag of that name. *)
Lemma findFlag_exact (n : string) (fl : list ArchiveFlag) :
  (∀ flag, flag ∈ fl → strIsEqual n (name flag) = true → name flag = n) →
  NoDup (name <$> fl) →
  findFlag n fl = true ↔
  ∃ flag, flag ∈ fl ∧ name flag = n ∧ (value flag = OPTIONAL ∨ value flag = REQUIRED).
Proof.
  induction fl as [|g fl IH]; intros Hex Hnd; simpl.
  - split; [done | intros (flag & Hin & _); by apply elem_of_nil in Hin].
  - apply NoDup_cons in Hnd as [Hg Hnd].
    destruct (strIsEqual n (name g)) eqn:E.
    + pose proof (Hex g ltac:(by left) E) as Hname.
      split.
      * intros Hv. exists g. split; [by left|]. split; [done|].
        destruct (value g); [done | by left | by right].
      * intros (flag & Hin & Hn & Hv).
        apply elem_of_cons in Hin as [->|Hin].
        -- destruct Hv as [-> | ->]; done.
        -- exfalso. apply Hg. rewrite Hname, <- Hn.
           apply list_elem_of_fmap. by exists flag.
    + rewrite IH; [| intros flag Hin; apply Hex; by right | done].
      split; intros (flag & Hin & Hn & Hv); exists flag.
      * split; [by right | done].
      * apply elem_of_cons in Hin as [->|Hin]; [|done].
        rewrite Hn, strIsEqual_refl in E. done.
Qed.

(** On specs with exact names, the test of the code is the documented
    predicate. *)
Lemma specIsSuitable_doc reqs spec :
  exact_names reqs spec →
  specIsSuitable reqs spec = true ↔ doc_suitable reqs spec.
Proof.
  intros [Hex Hnd]. rewrite specIsSuitable_true. unfold doc_suitable, doc_coverage.
  split; intros (Hb & Hs & Hc & Hr); repeat split; try done; intros n Hn.
  - apply findFlag_exact; eauto.
  - apply findFlag_exact; eauto.
Qed.

Section SelectFacts.
Context {Material : Type} (build : list Z → Material).

Lemma getMaterial_loaded reqs specs :
  fst (getMaterial build (loaded specs) reqs)
  = fst (getMaterial_from build reqs 0 specs (replicate (length specs) None)).
Proof.
  unfold getMaterial, loaded. simpl.
  by destruct (getMaterial_from build reqs 0 specs _).
Qed.

(** On archives with exact names, a freshly loaded cache returns the
    material of the documented choice. *)
Lemma getMaterial_doc_select reqs specs :
  (∀ spec, spec ∈ specs → exact_names reqs spec) →
  ∃ r, doc_select reqs specs r
       ∧ fst (getMaterial build (loaded specs) reqs)
         = (fun spec => build (package spec)) <$> r.
Proof.
  intros Hex. rewrite getMaterial_loaded.
  destruct (list_find (fun s => specIsSuitable reqs s = true) specs)
    as [[i spec]|] eqn:Hfind.
  - apply list_find_Some in Hfind as (Hi & Hspec & Hbefore).
    exists (Some spec). split.
    + exists i. split; [done|]. split.
      * apply specIsSuitable_doc; [|done]. apply Hex. by eapply list_elem_of_lookup_2.
      * intros j spec' Hj Hspec' Hdoc.
        apply (Hbefore j spec' Hspec' Hj).
        apply specIsSuitable_doc; [|done]. apply Hex. by eapply list_elem_of_lookup_2.
    + apply take_drop_middle in Hi as Hsplit. rewrite <- Hsplit.
      rewrite getMaterial_from_first; [| |done].
      * simpl. rewrite Hsplit.
        rewrite lookup_replicate_2; [done|].
        rewrite length_take. apply lookup_lt_Some in Hi. lia.
      * intros s Hs. apply list_elem_of_lookup_1 in Hs as [j Hj].
        pose proof (lookup_lt_Some _ _ _ Hj) as Hlt. rewrite length_take in Hlt.
        rewrite lookup_take_lt in Hj by lia.
        destruct (specIsSuitable reqs s) eqn:E; [|done].
        exfalso. apply (Hbefore j s Hj); [lia | done].
  - exists None. split.
    + intros spec Hin Hdoc.
      apply list_find_None in Hfind. rewrite Forall_forall in Hfind.
      apply (Hfind spec Hin). apply specIsSuitable_doc; [by apply Hex | done].
    + rewrite getMaterial_from_none; [done|].
      intros s Hs. apply list_find_None in Hfind. rewrite Forall_forall in Hfind.
      specialize (Hfind s Hs). by destruct (specIsSuitable reqs s).
Qed.

End SelectFacts.

Import Inputs.

(** C1: the matcher returns the material of the first spec that satisfies
    the four documented conditions, and null when there is none.  On the
    archive [spec_normalMapped; spec_normalMap] and a request for
    "normalMap" the documented choice is the second spec: the first one has
    no flag named "normalMap".  The code returns the material built from
    the package of the first spec, whose flag "normalMapped" it takes for
    the requested one. *)
Theorem getMaterial_returns_prefix_named_spec
    (Material : Type) (build : list Z → Material) :
  doc_select reqs_normalMap [spec_normalMapped; spec_normalMap] (Some spec_normalMap)
  ∧ ¬ doc_suitable reqs_normalMap spec_normalMapped
  ∧ fst (getMaterial build (loaded [spec_normalMapped; spec_normalMap]) reqs_normalMap)
    = Some (build (package spec_normalMapped)).
Proof.
  assert (Hnot : ¬ doc_suitable reqs_normalMap spec_normalMapped).
  { intros (_ & _ & Hc & _).
    destruct (Hc "normalMap" eq_refl) as (flag & Hin & Hn & _).
    apply list_elem_of_singleton in Hin. subst flag. discriminate Hn. }
  split; [|split; [done|]].
  - exists 1%nat. split; [done|]. split.
    + repeat split; try by left.
      * intros n Hn. unfold reqs_normalMap in Hn. simpl in Hn.
        apply lookup_singleton_Some in Hn as [<- _].
        exists (mkFlag "normalMap" OPTIONAL).
        split; [by apply list_elem_of_singleton|]. split; [done | by left].
      * intros flag Hin Hv. apply list_elem_of_singleton in Hin. by subst flag.
    + intros [|j] spec' Hj Hspec'; [|lia].
      simpl in Hspec'. by injection Hspec' as <-.
  - reflexivity.
Qed.

(** C4: a spec without a flag named like a requested feature is rejected,
    and a flag of that name with value OPTIONAL or REQUIRED covers the
    feature.  The code accepts [spec_normalMapped], which has no flag
    named "normalMap", for a request of "normalMap"; and it rejects
    [spec_shadowed], whose flag named "normalMap" is OPTIONAL, because the
    flag "normalMapped" in front of it is UNSUPPORTED. *)
Theorem specIsSuitable_compares_prefixes :
  features reqs_normalMap !! "normalMap" = Some true
  ∧ (∀ flag, flag ∈ flags spec_normalMapped → name flag ≠ "normalMap")
  ∧ specIsSuitable reqs_normalMap spec_normalMapped = true
  ∧ mkFlag "normalMap" OPTIONAL ∈ flags spec_shadowed
  ∧ findFlag "normalMap" (flags spec_shadowed) = false
  ∧ specIsSuitable reqs_normalMap spec_shadowed = false.
Proof.
  repeat split; try reflexivity.
  - intros flag Hin. apply list_elem_of_singleton in Hin. by subst flag.
  - right. left.
Qed.

(** C6: a spec with a REQUIRED flag whose name the request does not map to
    true is rejected: its test fails and the loop of the matcher goes on
    with the next spec. *)
Theorem required_flag_unmet_rejected (reqs : ArchiveRequirements)
    (spec : ArchiveSpec) (flag : ArchiveFlag) :
  flag ∈ flags spec →
  value flag = REQUIRED →
  features reqs !! name flag ≠ Some true →
  specIsSuitable reqs spec = false
  ∧ ∀ (Material : Type) (build : list Z → Material) i rest mats,
      getMaterial_from build reqs i (spec :: rest) mats
      = getMaterial_from build reqs (S i) rest mats.
Proof.
  intros Hin Hreq Hne.
  assert (H : specIsSuitable reqs spec = false).
  { unfold specIsSuitable. repeat case_decide; try done.
    by eapply requiredLoop_unmet. }
  split; [done|]. intros. by apply getMaterial_from_skip.
Qed.

Lemma required_flag_unmet_rejected_witness :
  specIsSuitable reqs_plain spec_required = false
  ∧ ∀ (Material : Type) (build : list Z → Material) i rest mats,
      getMaterial_from build reqs_plain i (spec_required :: rest) mats
      = getMaterial_from build reqs_plain (S i) rest mats.
Proof.
  apply (required_flag_unmet_rejected reqs_plain spec_required
           (mkFlag "normalMap" REQUIRED)).
  - apply list_elem_of_here.
  - reflexivity.
  - vm_compute. discriminate.
Defined.

(** C10, as stated: every flag whose name strictly extends a requested
    name is the matching flag and its value decides coverage.  In
    [flags_two] the flag "normalMapped" is UNSUPPORTED, yet the request
    "normalMap" is covered: the flag "normalMap" in front of it decides. *)
Lemma later_extending_flag_does_not_decide :
  ¬ (∀ (req : string) (fl : list ArchiveFlag) (f : ArchiveFlag),
       f ∈ fl → (∃ s, s ≠ "" ∧ name f = req +:+ s) →
       findFlag req fl = bool_decide (value f ≠ UNSUPPORTED)).
Proof.
  intros H.
  specialize (H "normalMap" flags_two (mkFlag "normalMapped" UNSUPPORTED)).
  discriminate H.
  - right. left.
  - exists "ped". split; [discriminate | reflexivity].
Qed.

(** C10, amended: the coverage test compares a requested name with a flag
    name over the length of the requested name only, so a flag whose name
    starts with the requested name (equal to it or strictly longer) is
    taken for the requested flag; the first such flag in stored order
    decides coverage by its value, and the flags after it are not
    looked at. *)
Theorem first_prefix_flag_decides (req : string) (fl1 : list ArchiveFlag)
    (f : ArchiveFlag) (fl2 : list ArchiveFlag) :
  (∀ g, g ∈ fl1 → ¬ ∃ s, name g = req +:+ s) →
  (∃ s, name f = req +:+ s) →
  strIsEqual req (name f) = true
  ∧ findFlag req (fl1 ++ f :: fl2) = bool_decide (value f ≠ UNSUPPORTED).
Proof.
  intros Hfl1 Hf.
  assert (E : strIsEqual req (name f) = true) by by apply strIsEqual_prefix.
  split; [done|]. apply findFlag_first; [|done].
  intros g Hg. destruct (strIsEqual req (name g)) eqn:Eg; [|done].
  exfalso. apply (Hfl1 g Hg). by apply strIsEqual_prefix.
Qed.

Lemma first_prefix_flag_decides_witness :
  strIsEqual "normalMap" "normalMapped" = true
  ∧ findFlag "normalMap"
      ([mkFlag "baseColorMap" REQUIRED] ++ mkFlag "normalMapped" UNSUPPORTED
       :: [mkFlag "normalMap" OPTIONAL])
    = false.
Proof.
  apply (first_prefix_flag_decides "normalMap" [mkFlag "baseColorMap" REQUIRED]
           (mkFlag "normalMapped" UNSUPPORTED) [mkFlag "normalMap" OPTIONAL]).
  - intros g Hg [s Hs]. apply list_elem_of_singleton in Hg. subst g.
    discriminate Hs.
  - exists "ped". reflexivity.
Defined.

End UberzFacts.

(** * Properties of the archive writer and of the relocation pass *)

Module ArchiveFacts.
Import Uberz UberzMore WriterHistory BytesFacts.

(** A field of [n] bytes read back where it was written. *)
Lemma read_uint_field (pre post : list Z) (n : nat) (v : Z) (off : Z) :
  off = len pre →
  read_uint (pre ++ le_bytes n v ++ post) off n = Done (v mod 2 ^ (8 * Z.of_nat n)).
Proof.
  intros ->. unfold read_uint, read_bytes, len.
  rewrite decide_True.
  - rewrite Nat2Z.id, drop_app_length.
    rewrite take_app_length' by (by rewrite le_bytes_length).
    simpl. by rewrite le_value_le_bytes.
  - rewrite !length_app, le_bytes_length. lia.
Qed.

Lemma wrap64_idem v : wrap64 (wrap64 v) = wrap64 v.
Proof. unfold wrap64. by rewrite Z.mod_mod. Qed.

Lemma wrap64_small v : 0 ≤ v < 2 ^ 64 → wrap64 v = v.
Proof. unfold wrap64. intros. by apply Z.mod_small. Qed.

Lemma wrap64_mod8 v : wrap64 v mod 8 = v mod 8.
Proof.
  unfold wrap64. apply Z.mod_mod_divide. exists (2 ^ 61). reflexivity.
Qed.

Lemma flaglistOffset_aligned mats : flaglistOffset_of mats mod 8 = 0.
Proof.
  unfold flaglistOffset_of.
  assert (H : ∀ acc, acc mod 8 = 0 →
            fold_left (fun byteCount (_ : Material) =>
              wrap64 (byteCount + sizeof_ArchiveSpec)) mats acc mod 8 = 0).
  { induction mats as [|m mats IH]; intros acc Hacc; [done|].
    simpl. apply IH. rewrite wrap64_mod8.
    unfold sizeof_ArchiveSpec.
    rewrite Z.add_mod, Hacc by lia. done. }
  by apply H.
Qed.

Lemma buildSpecs_length mats flo fmo fc :
  length (buildSpecs mats flo fmo fc) = length mats.
Proof.
  revert fmo fc. induction mats as [|m mats IH]; intros fmo fc; simpl; [done|].
  by rewrite IH.
Qed.

(** Every [flagsOffset] the writer computes is a multiple of 8. *)
Lemma buildSpecs_aligned mats flo fmo fc s :
  flo mod 8 = 0 → s ∈ buildSpecs mats flo fmo fc → flagsOffset s mod 8 = 0.
Proof.
  intros Hflo. revert fmo fc.
  induction mats as [|m mats IH]; intros fmo fc Hin; simpl in Hin.
  - by apply elem_of_nil in Hin.
  - apply elem_of_cons in Hin as [->|Hin]; [|by eapply IH].
    simpl. rewrite wrap64_mod8. unfold sizeof_ArchiveFlag.
    rewrite Z.add_mod, Hflo by lia.
    replace (fc * (8 + 8)) with (fc * 2 * 8) by lia.
    by rewrite Z.mod_mul by lia.
Qed.

Lemma buildSpecs_wrapped mats flo fmo fc s :
  s ∈ buildSpecs mats flo fmo fc → wrap64 (flagsOffset s) = flagsOffset s.
Proof.
  revert fmo fc.
  induction mats as [|m mats IH]; intros fmo fc Hin; simpl in Hin.
  - by apply elem_of_nil in Hin.
  - apply elem_of_cons in Hin as [->|Hin]; [|by eapply IH].
    simpl. apply wrap64_idem.
Qed.

Section CodesFacts.
Variable shading_code : Shading → Z.
Variable blending_code : BlendingMode → Z.
Variable feature_code : ArchiveFeature → Z.

Local Abbreviation bytes_of_RawSpec := (bytes_of_RawSpec shading_code blending_code).
Local Abbreviation outputBuf := (outputBuf shading_code blending_code feature_code).

Lemma bytes_of_RawArchive_length a :
  length (bytes_of_RawArchive a) = 24%nat.
Proof. unfold bytes_of_RawArchive. by rewrite !length_app, !le_bytes_length. Qed.

Lemma bytes_of_RawSpec_length s :
  length (bytes_of_RawSpec s) = 40%nat.
Proof. unfold Uberz.bytes_of_RawSpec. by rewrite !length_app, !le_bytes_length. Qed.

Lemma specs_bytes_length specs :
  length (concat (map bytes_of_RawSpec specs)) = (40 * length specs)%nat.
Proof.
  induction specs as [|s specs IH]; [done|].
  cbn [map concat length]. rewrite length_app, bytes_of_RawSpec_length, IH. lia.
Qed.

(** The four fields of the header, read back from the buffer. *)
Lemma outputBuf_magic mats : read_uint (outputBuf mats) 0 4 = Done magic_UBER.
Proof.
  unfold Uberz.outputBuf, bytes_of_RawArchive. rewrite <- !app_assoc.
  etransitivity; [by apply (read_uint_field [] _ 4 _ 0) | done].
Qed.

Lemma outputBuf_version mats : read_uint (outputBuf mats) 4 4 = Done 0.
Proof.
  unfold Uberz.outputBuf, bytes_of_RawArchive. rewrite <- !app_assoc.
  etransitivity; [apply (read_uint_field (le_bytes 4 _) _ 4 _ 4) | done].
  unfold len. by rewrite le_bytes_length.
Qed.

Lemma outputBuf_specsCount mats :
  read_uint (outputBuf mats) 8 8 = Done (wrap64 (len mats)).
Proof.
  unfold Uberz.outputBuf, bytes_of_RawArchive. rewrite <- !app_assoc.
  rewrite (app_assoc (le_bytes 4 _) (le_bytes 4 _)).
  etransitivity; [apply (read_uint_field _ _ 8 _ 8) |].
  - unfold len. by rewrite length_app, !le_bytes_length.
  - simpl specsCount. change (2 ^ (8 * Z.of_nat 8)) with (2 ^ 64).
    f_equal. apply wrap64_idem.
Qed.

Lemma outputBuf_specsOffset mats :
  read_uint (outputBuf mats) 16 8 = Done sizeof_ReadableArchive.
Proof.
  unfold Uberz.outputBuf, bytes_of_RawArchive. rewrite <- !app_assoc.
  rewrite (app_assoc (le_bytes 4 _) (le_bytes 4 _)).
  rewrite (app_assoc _ (le_bytes 8 _) (le_bytes 8 _ ++ _)).
  etransitivity; [apply (read_uint_field _ _ 8 _ 16) | done].
  unfold len. by rewrite !length_app, !le_bytes_length.
Qed.

(** The spec records start right behind the header. *)
Lemma outputBuf_specs mats :
  ∃ rest,
    drop 24 (outputBuf mats)
    = concat (map bytes_of_RawSpec
        (buildSpecs mats (flaglistOffset_of mats) (filamatOffset_of mats) 0))
      ++ rest.
Proof.
  eexists. unfold Uberz.outputBuf.
  by rewrite (drop_app_length' (bytes_of_RawArchive (archiveHeader mats)) _ 24
                (eq_sym (bytes_of_RawArchive_length _))).
Qed.

(** The [flagsOffset] field of the [i]-th of a run of spec records. *)
Lemma read_flagsOffset_spec pre specs post i s :
  specs !! i = Some s →
  read_uint (pre ++ concat (map bytes_of_RawSpec specs) ++ post)
    (len pre + Z.of_nat i * 40 + 16) 8
  = Done (wrap64 (flagsOffset s)).
Proof.
  intros Hi.
  assert (Hsplit :
    pre ++ concat (map bytes_of_RawSpec specs) ++ post
    = (pre ++ concat (map bytes_of_RawSpec (take i specs))
         ++ le_bytes 4 (shading_code (rawShadingModel s))
         ++ le_bytes 4 (blending_code (rawBlendingMode s))
         ++ le_bytes 8 (flagsCount s))
      ++ le_bytes 8 (flagsOffset s)
      ++ (le_bytes 8 (packageByteCount s) ++ le_bytes 8 (packageOffset s)
          ++ concat (map bytes_of_RawSpec (drop (S i) specs)) ++ post)).
  { rewrite <- (take_drop_middle _ _ _ Hi) at 1.
    rewrite map_app, concat_app. cbn [map concat].
    unfold Uberz.bytes_of_RawSpec at 2. by rewrite <- !app_assoc. }
  rewrite Hsplit. apply read_uint_field.
  unfold len. rewrite !length_app, specs_bytes_length, !le_bytes_length.
  rewrite length_take. apply lookup_lt_Some in Hi. lia.
Qed.

Lemma outputBuf_flagsOffset mats i s :
  buildSpecs mats (flaglistOffset_of mats) (filamatOffset_of mats) 0 !! i = Some s →
  read_flagsOffset (outputBuf mats) sizeof_ReadableArchive (Z.of_nat i)
  = Done (flagsOffset s).
Proof.
  intros Hi. unfold read_flagsOffset, Uberz.outputBuf.
  change (word_address sizeof_ReadableArchive) with 24.
  change sizeof_ArchiveSpec with 40.
  replace 24 with (len (bytes_of_RawArchive (archiveHeader mats)))
    by (unfold len; by rewrite bytes_of_RawArchive_length).
  rewrite (read_flagsOffset_spec _ _ _ i s Hi).
  f_equal. apply (buildSpecs_wrapped mats (flaglistOffset_of mats)
                    (filamatOffset_of mats) 0).
  by eapply list_elem_of_lookup_2.
Qed.

(** Reads never trip an assertion. *)
Lemma obind_no_assert {A B} (o : Outcome A) (k : A → Outcome B) :
  o ≠ AssertionFailed → (∀ a, k a ≠ AssertionFailed) →
  obind o k ≠ AssertionFailed.
Proof. intros Ho Hk. destruct o; simpl; [apply Hk | done | done]. Qed.

Lemma read_bytes_no_assert buf off n : read_bytes buf off n ≠ AssertionFailed.
Proof. unfold read_bytes. by case_decide. Qed.

Lemma read_uint_no_assert buf off n : read_uint buf off n ≠ AssertionFailed.
Proof.
  unfold read_uint. apply obind_no_assert; [apply read_bytes_no_assert | done].
Qed.

Lemma cstr_of_no_assert bs : cstr_of bs ≠ AssertionFailed.
Proof.
  induction bs as [|b bs IH]; simpl; [done|].
  case_decide; [done|]. by apply obind_no_assert.
Qed.

Lemma read_cstr_no_assert buf off : read_cstr buf off ≠ AssertionFailed.
Proof. unfold read_cstr. case_decide; [apply cstr_of_no_assert | done]. Qed.

Lemma relocateFlags_no_assert buf k addr :
  relocateFlags buf k addr ≠ AssertionFailed.
Proof.
  revert addr. induction k as [|k IH]; intros addr; simpl; [done|].
  apply obind_no_assert; [apply read_uint_no_assert | intros nameOff].
  apply obind_no_assert; [apply read_uint_no_assert | intros v].
  apply obind_no_assert; [apply read_cstr_no_assert | intros nm].
  apply obind_no_assert; [apply IH | done].
Qed.

(** The loop over the specs trips no assertion when every [flagsOffset]
    it reads is a multiple of 8. *)
Lemma relocateSpecs_no_assert buf k addr :
  (∀ j, (j < k)%nat →
     ∃ foff, read_uint buf (addr + Z.of_nat j * 40 + 16) 8 = Done foff
             ∧ foff mod 8 = 0) →
  relocateSpecs buf k addr ≠ AssertionFailed.
Proof.
  revert addr. induction k as [|k IH]; intros addr H; [done|].
  cbn [relocateSpecs].
  destruct (H 0%nat ltac:(lia)) as (foff & Hread & Hal).
  replace (addr + Z.of_nat 0 * 40 + 16) with (addr + 16) in Hread by lia.
  rewrite Hread. cbn [obind]. rewrite decide_True by done.
  do 5 (apply obind_no_assert; [apply read_uint_no_assert | intros ?]).
  apply obind_no_assert; [apply read_bytes_no_assert | intros pkg].
  apply obind_no_assert; [apply relocateFlags_no_assert | intros fl].
  apply obind_no_assert; [|done].
  apply IH. intros j Hj.
  destruct (H (S j) ltac:(lia)) as (foff' & Hread' & Hal').
  exists foff'. split; [|done]. rewrite <- Hread'. f_equal.
  unfold sizeof_ArchiveSpec. lia.
Qed.

Lemma outputBuf_aligned_reads mats i :
  0 ≤ i < wrap64 (len mats) →
  ∃ foff, read_flagsOffset (outputBuf mats) sizeof_ReadableArchive i = Done foff
          ∧ foff mod 8 = 0.
Proof.
  intros Hi.
  assert (Hlt : (Z.to_nat i < length mats)%nat).
  { pose proof (Z.mod_le (len mats) (2 ^ 64)) as Hle.
    unfold wrap64, len in *. lia. }
  rewrite <- (buildSpecs_length mats (flaglistOffset_of mats)
                (filamatOffset_of mats) 0) in Hlt.
  apply lookup_lt_is_Some_2 in Hlt as [s Hs].
  exists (flagsOffset s). split.
  - rewrite <- (outputBuf_flagsOffset mats (Z.to_nat i) s Hs).
    f_equal. lia.
  - eapply buildSpecs_aligned; [apply flaglistOffset_aligned|].
    by eapply list_elem_of_lookup_2.
Qed.

Lemma convertOffsetsToPointers_no_assert mats :
  convertOffsetsToPointers (outputBuf mats) ≠ AssertionFailed.
Proof.
  unfold convertOffsetsToPointers.
  rewrite outputBuf_specsOffset. cbn [obind].
  rewrite decide_True by done.
  rewrite outputBuf_specsCount. cbn [obind].
  apply obind_no_assert.
  - apply relocateSpecs_no_assert. intros j Hj.
    destruct (outputBuf_aligned_reads mats (Z.of_nat j)) as (foff & Hread & Hal).
    { pose proof (Z.mod_pos_bound (len mats) (2 ^ 64)). unfold wrap64 in *. lia. }
    exists foff. split; [|done]. rewrite <- Hread. done.
  - intros specs.
    do 2 (apply obind_no_assert; [apply read_uint_no_assert | intros ?]). done.
Qed.

(** The head of the buffer for a list of materials: the header is 24
    bytes in total and the spec records follow it immediately. *)
Lemma outputBuf_header_layout (mats : list Material) :
  len mats < 2 ^ 64 →
  header_layout shading_code blending_code feature_code 24 mats.
Proof.
  intros Hlen. unfold header_layout.
  split; [apply outputBuf_magic|].
  split; [apply outputBuf_version|].
  split.
  { rewrite outputBuf_specsCount. f_equal. apply wrap64_small. unfold len in *. lia. }
  split; [apply outputBuf_specsOffset|].
  split; [done|].
  split; [unfold len; by rewrite bytes_of_RawArchive_length|].
  apply (outputBuf_specs mats).
Qed.

(** [addMaterial] fills a slot of the vector; the number of slots, which
    [serialize] stores as specs_count, stays what it was. *)
Lemma addMaterial_size a nm pkg a' :
  addMaterial a nm pkg = Some a' →
  length (wMaterials a') = length (wMaterials a)
  ∧ wMaterialIndex a' = wMaterialIndex a + 1.
Proof.
  unfold addMaterial. case_decide; [|done]. intros [= <-]. simpl.
  by rewrite length_insert.
Qed.

Section Writers.
Variable robin_insert :
  list (string * ArchiveFeature) → string → ArchiveFeature
  → list (string * ArchiveFeature).

(** An accepted spec line leaves the slots and the current slot where
    they are. *)
Lemma addSpecLine_size a line a' :
  addSpecLine robin_insert a line = Accepted a' →
  length (wMaterials a') = length (wMaterials a)
  ∧ wMaterialIndex a' = wMaterialIndex a.
Proof.
  unfold addSpecLine. intros H.
  repeat case_match; try discriminate H;
    injection H as <-; cbn [wMaterials wMaterialIndex];
    by rewrite ?length_insert.
Qed.

(** After [n] calls of [addMaterial] the slots 0 to [n - 1] are filled,
    and there are no more calls than slots. *)
Lemma written_slots n a :
  written robin_insert n a →
  wMaterialIndex a = Z.of_nat n - 1 ∧ (n ≤ length (wMaterials a))%nat.
Proof.
  induction 1 as [lineNumber slots | n a nm pkg a' _ [IHi IHn] Hadd
                  | n a line a' _ [IHi IHn] Hline].
  - cbn [wMaterialIndex wMaterials]. split; lia.
  - destruct (addMaterial_size _ _ _ _ Hadd) as [Hlen Hidx].
    unfold addMaterial in Hadd. case_decide as Hslot; [|done].
    rewrite Hlen, Hidx. split; lia.
  - destruct (addSpecLine_size _ _ _ Hline) as [Hlen Hidx].
    rewrite Hlen, Hidx. done.
Qed.

(** C8, amended: for every archive the writer serializes, the buffer
    before compression begins with a header whose magic is 'UBER', whose
    version is 0, whose specs_count is the number of slots of the writer
    and whose specs_offset is the size of the header; the header is 24
    bytes in total (4 + 4 + 8 + 8) and the spec records follow it
    immediately.  The writer never has more materials added than it has
    slots, and specs_count is the number of materials added once every
    slot has been filled. *)
Theorem serialized_header_layout
    (compress : list Z → list Z) (n : nat) (a : WritableArchive) :
  written robin_insert n a →
  len (wMaterials a) < 2 ^ 64 →
  serialize shading_code blending_code feature_code compress a
  = compress (outputBuf (wMaterials a))
  ∧ header_layout shading_code blending_code feature_code 24 (wMaterials a)
  ∧ read_specsCount (outputBuf (wMaterials a)) = Done (len (wMaterials a))
  ∧ Z.of_nat n ≤ len (wMaterials a)
  ∧ (n = length (wMaterials a) →
     read_specsCount (outputBuf (wMaterials a)) = Done (Z.of_nat n)).
Proof.
  intros Hw Hlen.
  destruct (written_slots n a Hw) as [_ Hn].
  assert (Hcount : read_specsCount (outputBuf (wMaterials a))
                   = Done (len (wMaterials a))).
  { unfold read_specsCount. rewrite outputBuf_specsCount. f_equal.
    apply wrap64_small. unfold len in *. lia. }
  split; [done|]. split; [by apply outputBuf_header_layout|].
  split; [done|]. split; [unfold len; lia|].
  intros ->. exact Hcount.
Qed.

End Writers.

Section Codec.
Variable compress : list Z → list Z.
Variable decompress : list Z → option (list Z).
Hypothesis codec_roundtrip : ∀ b, decompress (compress b) = Some b.

(** C9: for every archive produced by [serialize] and then loaded, the
    relocation pass reads a specs_offset that is a multiple of 8 and,
    for every spec, a flags_offset that is a multiple of 8; none of
    its alignment assertions fires. *)
Theorem serialized_offsets_aligned (a : WritableArchive) :
  let buf := outputBuf (wMaterials a) in
  load decompress
    (serialize shading_code blending_code feature_code compress a)
  = Some (convertOffsetsToPointers buf)
  ∧ convertOffsetsToPointers buf ≠ AssertionFailed
  ∧ ∃ soff count,
      read_specsOffset buf = Done soff ∧ soff mod 8 = 0
      ∧ read_specsCount buf = Done count
      ∧ ∀ i, 0 ≤ i < count →
          ∃ foff, read_flagsOffset buf soff i = Done foff ∧ foff mod 8 = 0.
Proof.
  intros buf. split; [|split].
  - unfold load, serialize. by rewrite codec_roundtrip.
  - apply convertOffsetsToPointers_no_assert.
  - exists sizeof_ReadableArchive, (wrap64 (len (wMaterials a))).
    split; [apply outputBuf_specsOffset|]. split; [done|].
    split; [apply outputBuf_specsCount|].
    apply outputBuf_aligned_reads.
Qed.

End Codec.

End CodesFacts.

Import Inputs.

(** [writer_AB] is reached by adding material A, giving it three spec
    lines, and adding material B. *)
Lemma writer_AB_written : written SpecInputs.insert_front 2 writer_AB.
Proof.
  apply (written_addMaterial _ 1
           (mkWritable 4 0 [material_A; unset_material]) "B" [9]);
    [|reflexivity].
  apply (written_addSpecLine _ 1
           (mkWritable 3 0
              [mkMaterial "A" [1; 2; 3] [] OPAQUE LIT; unset_material])
           "hasBaseColorMap = required");
    [|reflexivity].
  apply (written_addSpecLine _ 1
           (mkWritable 2 0
              [mkMaterial "A" [1; 2; 3] [] OPAQUE INVALID_SHADING_MODEL;
               unset_material])
           "ShadingModel = lit");
    [|reflexivity].
  apply (written_addSpecLine _ 1 writer_one_added "BlendingMode = opaque");
    [|reflexivity].
  apply (written_addMaterial _ 0 writer_two_slots "A" [1; 2; 3]);
    [|reflexivity].
  apply written_new.
Qed.

Lemma serialized_header_layout_witness :
  header_layout shading_code blending_code feature_code 24 (wMaterials writer_AB)
  ∧ read_specsCount
      (outputBuf shading_code blending_code feature_code (wMaterials writer_AB))
    = Done 2.
Proof.
  destruct (serialized_header_layout shading_code blending_code feature_code
              SpecInputs.insert_front store 2 writer_AB writer_AB_written)
    as (_ & Hlayout & _ & _ & Hcount); [reflexivity|].
  split; [exact Hlayout | exact (Hcount eq_refl)].
Defined.

(** C8, as stated: the header is 32 bytes in total, specs_offset is its
    size and specs_count is the number of materials added.  For the
    archive of [material_A] and [material_B] the field specs_offset holds
    24, not 32; and a writer of two slots to which one material was added
    serializes a specs_count of 2, not 1. *)
Lemma serialized_header_differs :
  (¬ header_layout shading_code blending_code feature_code 32
       [material_A; material_B]
   ∧ read_specsOffset
       (outputBuf shading_code blending_code feature_code [material_A; material_B])
     = Done 24)
  ∧ addMaterial writer_two_slots "A" [1; 2; 3] = Some writer_one_added
  ∧ written SpecInputs.insert_front 1 writer_one_added
  ∧ read_specsCount
      (outputBuf shading_code blending_code feature_code (wMaterials writer_one_added))
    = Done 2.
Proof.
  split; [split; [|reflexivity] | split; [reflexivity | split; [|reflexivity]]].
  - intros (_ & _ & _ & Hoff & _).
    vm_compute in Hoff. discriminate Hoff.
  - apply (written_addMaterial _ 0 writer_two_slots "A" [1; 2; 3]);
      [apply written_new | reflexivity].
Qed.

Lemma serialized_offsets_aligned_witness :
  (∀ b, unstore (store b) = Some b)
  ∧ convertOffsetsToPointers
      (outputBuf shading_code blending_code feature_code (wMaterials writer_AB))
    ≠ AssertionFailed.
Proof.
  split; [reflexivity|].
  apply (serialized_offsets_aligned shading_code blending_code feature_code
           store unstore (fun b => eq_refl) writer_AB).
Defined.

(** The archive of [material_A] and [material_B], written and relocated:
    the reader finds the two specs, the flag of the first and both
    packages again. *)
Lemma archive_AB_relocated :
  convertOffsetsToPointers
    (outputBuf shading_code blending_code feature_code [material_A; material_B])
  = Done (mkReadableArchive magic_UBER 0
            [mkReadableSpec 1 0 [mkReadableFlag "hasBaseColorMap" 2] [1; 2; 3];
             mkReadableSpec 255 255 [] [9]]).
Proof. vm_compute. reflexivity. Qed.

End ArchiveFacts.

(** * Properties of the package rewriter *)

Module MatdbgFacts.
Import Matdbg BytesFacts.

(** *** Reads *)

Lemma sread_exact data pos pre bs post dst n :
  data = pre ++ bs ++ post → pos = length pre →
  length bs = n → length dst = n →
  sread (mkIstream data pos true) dst n
  = (bs, mkIstream data (pos + n) true).
Proof.
  intros -> -> Hbs Hdst. unfold sread. simpl.
  rewrite drop_app_length. rewrite decide_True by (rewrite length_app; lia).
  rewrite take_app_length' by done.
  by rewrite drop_ge, app_nil_r by lia.
Qed.

Lemma sread_eof data dst n :
  (0 < n)%nat →
  sread (mkIstream data (length data) true) dst n
  = (dst, mkIstream data (length data) false).
Proof.
  intros Hn. unfold sread. simpl. rewrite drop_all. simpl.
  rewrite decide_False by lia. done.
Qed.

Lemma sread_failed s dst n : sgood s = false → sread s dst n = (dst, s).
Proof. intros H. unfold sread. by rewrite H. Qed.

Lemma resize_length content n : length (resize content n) = n.
Proof.
  unfold resize. rewrite length_app, length_take, length_replicate. lia.
Qed.

Lemma resize_same content : resize content (length content) = content.
Proof.
  unfold resize. by rewrite take_ge, Nat.sub_diag, app_nil_r by lia.
Qed.

(** What a read leaves of the stream. *)
Lemma sread_stream s dst n :
  sdata (sread s dst n).2 = sdata s
  ∧ (sgood (sread s dst n).2 = true →
       sgood s = true ∧ spos (sread s dst n).2 = (spos s + n)%nat
       ∧ (n ≤ length (sdata s) - spos s)%nat).
Proof.
  unfold sread. destruct (sgood s) eqn:E; [|simpl; split; [done | congruence]].
  case_decide as Hn; simpl; [|done].
  rewrite length_drop in Hn. done.
Qed.

(** *** The cloning loop ends *)

Lemma cloneStep_stream d m st :
  let st' := cloneStep d m st in
  sdata (sstream st') = sdata (sstream st)
  ∧ (sgood (sstream st') = true →
       (spos (sstream st) + 12 ≤ spos (sstream st'))%nat
       ∧ (spos (sstream st') ≤ length (sdata (sstream st)))%nat).
Proof.
  unfold cloneStep.
  pose proof (sread_stream (sstream st) (cType st) 8) as H1.
  destruct (sread (sstream st) (cType st) 8) as [type s1].
  pose proof (sread_stream s1 (cSize st) 4) as H2.
  destruct (sread s1 (cSize st) 4) as [size s2].
  pose proof (sread_stream s2 (resize (cContent st) (Z.to_nat (le_value size)))
                (Z.to_nat (le_value size))) as H3.
  destruct (sread s2 _ _) as [content s3].
  simpl in *. destruct H1 as [D1 G1], H2 as [D2 G2], H3 as [D3 G3].
  assert (sdata s3 = sdata (sstream st)
          ∧ (sgood s3 = true →
             (spos (sstream st) + 12 ≤ spos s3)%nat
             ∧ (spos s3 ≤ length (sdata (sstream st)))%nat)) as Hs3.
  { split; [congruence|]. intros G.
    destruct (G3 G) as (G2' & P3 & L3). destruct (G2 G2') as (G1' & P2 & L2).
    destruct (G1 G1') as (G0 & P1 & L1). rewrite D2, D1 in L3. rewrite D1 in L2. lia. }
  by case_decide.
Qed.

Lemma cloneLoop_total d m fuel st :
  (sgood (sstream st) = true →
     (length (sdata (sstream st)) - spos (sstream st) < fuel)%nat) →
  is_Some (cloneLoop fuel d m st).
Proof.
  revert st. induction fuel as [|fuel IH]; intros st H.
  - simpl. destruct (sgood (sstream st)); [|done]. specialize (H eq_refl). lia.
  - simpl. destruct (sgood (sstream st)) eqn:G; [|done].
    apply IH. intros G'.
    destruct (cloneStep_stream d m st) as [D P]. destruct (P G') as [P1 P2].
    rewrite D. specialize (H eq_refl). lia.
Qed.

Lemma cloneChunks_total d m data : is_Some (cloneChunks d m data).
Proof.
  unfold cloneChunks.
  destruct (cloneLoop_total d m (S (length data))
              (mkClone (replicate 8 0) (replicate 4 0) [] (istream_of data) []))
    as [st Hst].
  - simpl. lia.
  - rewrite Hst. done.
Qed.

(** *** The cloning loop on a well-formed chunk stream *)

Lemma chunk_bytes_length t p :
  length (chunk_bytes t p) = (12 + length p)%nat.
Proof. unfold chunk_bytes. rewrite !length_app, !le_bytes_length. lia. Qed.

Lemma stream_of_cons c cs :
  stream_of (c :: cs) = chunk_bytes (fst c) (snd c) ++ stream_of cs.
Proof. reflexivity. Qed.

Lemma stream_of_length cs : (length cs ≤ length (stream_of cs))%nat.
Proof.
  induction cs as [|c cs IH]; [done|].
  rewrite stream_of_cons, length_app, chunk_bytes_length. simpl. lia.
Qed.

(** One pass over a whole chunk. *)
Lemma cloneStep_chunk d m pre t p post ty sz content out :
  wf_chunk (t, p) → length ty = 8%nat → length sz = 4%nat →
  cloneStep d m
    (mkClone ty sz content
       (mkIstream (pre ++ chunk_bytes t p ++ post) (length pre) true) out)
  = mkClone (le_bytes 8 t) (le_bytes 4 (Z.of_nat (length p))) p
      (mkIstream (pre ++ chunk_bytes t p ++ post)
         (length (pre ++ chunk_bytes t p)) true)
      (out ++ if kept d m (t, p) then chunk_bytes t p else []).
Proof.
  intros [Ht Hp] Hty Hsz. simpl in Ht, Hp.
  unfold cloneStep. cbn [cType cSize cContent sstream tstream].
  set (data := pre ++ chunk_bytes t p ++ post).
  rewrite (sread_exact data (length pre) pre (le_bytes 8 t)
             (le_bytes 4 (Z.of_nat (length p)) ++ p ++ post) ty 8);
    [| by (unfold data, chunk_bytes; rewrite <- !app_assoc)
     | done | apply le_bytes_length | done].
  rewrite (sread_exact data (length pre + 8) (pre ++ le_bytes 8 t)
             (le_bytes 4 (Z.of_nat (length p))) (p ++ post) sz 4);
    [| by (unfold data, chunk_bytes; rewrite <- !app_assoc)
     | by rewrite length_app, le_bytes_length
     | apply le_bytes_length | done].
  rewrite !le_value_le_bytes.
  change (2 ^ (8 * Z.of_nat 4)) with (2 ^ 32).
  change (2 ^ (8 * Z.of_nat 8)) with (2 ^ 64).
  rewrite (Z.mod_small (Z.of_nat (length p))) by lia.
  rewrite (Z.mod_small t) by lia.
  rewrite Nat2Z.id.
  rewrite (sread_exact data (length pre + 8 + 4)
             (pre ++ le_bytes 8 t ++ le_bytes 4 (Z.of_nat (length p))) p post
             (resize content (length p)) (length p));
    [| by (unfold data, chunk_bytes; rewrite <- !app_assoc)
     | by rewrite !length_app, !le_bytes_length; lia
     | done | apply resize_length].
  replace (length pre + 8 + 4 + length p)%nat with (length (pre ++ chunk_bytes t p))
    by (rewrite length_app, chunk_bytes_length; lia).
  unfold kept. simpl fst.
  case_decide as Hk.
  - rewrite bool_decide_eq_true_2 by done. simpl. by rewrite app_nil_r.
  - rewrite bool_decide_eq_false_2 by done. simpl. done.
Qed.

(** The pass that meets the end of the stream: the locals keep what the
    pass before left in them and are tested, and written, once more. *)
Lemma cloneStep_end d m data ty sz content out :
  length content = Z.to_nat (le_value sz) →
  cloneStep d m (mkClone ty sz content (mkIstream data (length data) true) out)
  = mkClone ty sz content (mkIstream data (length data) false)
      (out ++ if decide (le_value ty = d ∨ le_value ty = m) then []
              else ty ++ sz ++ content).
Proof.
  intros Hc. unfold cloneStep. cbn [cType cSize cContent sstream tstream].
  rewrite sread_eof by lia.
  rewrite sread_failed by done.
  rewrite <- Hc, resize_same.
  rewrite sread_failed by done.
  case_decide; [by rewrite app_nil_r | done].
Qed.

Lemma cloneLoop_chunks d m cs :
  ∀ fuel pre ty sz content out,
    Forall wf_chunk cs → (length cs < fuel)%nat →
    length ty = 8%nat → length sz = 4%nat →
    length content = Z.to_nat (le_value sz) →
    ∃ st',
      cloneLoop fuel d m
        (mkClone ty sz content
           (mkIstream (pre ++ stream_of cs) (length pre) true) out)
      = Some st'
      ∧ tstream st'
        = out ++ stream_of (List.filter (kept d m) cs)
          ++ match last cs with
             | Some c => if kept d m c then chunk_bytes (fst c) (snd c) else []
             | None => if decide (le_value ty = d ∨ le_value ty = m) then []
                       else ty ++ sz ++ content
             end.
Proof.
  induction cs as [|[t p] cs IH]; intros fuel pre ty sz content out Hwf Hfuel Hty Hsz Hc.
  - destruct fuel as [|fuel]; [simpl in Hfuel; lia|].
    eexists. split.
    + cbn [cloneLoop sstream sgood].
      change (stream_of []) with (@nil Z). rewrite app_nil_r.
      rewrite cloneStep_end by done.
      destruct fuel; reflexivity.
    + done.
  - destruct fuel as [|fuel]; [simpl in Hfuel; lia|].
    apply Forall_cons in Hwf as [Hwf1 Hwf].
    cbn [cloneLoop sstream sgood].
    rewrite stream_of_cons. simpl fst. simpl snd.
    rewrite cloneStep_chunk by done.
    rewrite (app_assoc pre).
    destruct (IH fuel (pre ++ chunk_bytes t p) (le_bytes 8 t)
                (le_bytes 4 (Z.of_nat (length p))) p
                (out ++ if kept d m (t, p) then chunk_bytes t p else []))
      as (st' & Hloop & Hout).
    { done. }
    { simpl in Hfuel. lia. }
    { apply le_bytes_length. }
    { apply le_bytes_length. }
    { destruct Hwf1 as [_ Hp]. simpl in Hp.
      rewrite le_value_le_bytes. change (2 ^ (8 * Z.of_nat 4)) with (2 ^ 32).
      rewrite Z.mod_small by lia. by rewrite Nat2Z.id. }
    exists st'. split; [done|].
    rewrite Hout, last_cons. cbn [List.filter].
    assert (Hlast :
      (if decide (le_value (le_bytes 8 t) = d ∨ le_value (le_bytes 8 t) = m)
       then [] else le_bytes 8 t ++ le_bytes 4 (Z.of_nat (length p)) ++ p)
      = if kept d m (t, p) then chunk_bytes t p else []).
    { destruct Hwf1 as [Ht _]. simpl in Ht.
      rewrite le_value_le_bytes. change (2 ^ (8 * Z.of_nat 8)) with (2 ^ 64).
      rewrite Z.mod_small by lia. unfold kept. simpl fst.
      destruct (decide (t = d ∨ t = m)).
      - by rewrite bool_decide_eq_true_2.
      - by rewrite bool_decide_eq_false_2. }
    destruct (kept d m (t, p)) eqn:Hk.
    + rewrite stream_of_cons. simpl fst. simpl snd.
      rewrite <- !app_assoc. do 3 f_equal.
      destruct (last cs); [done|]. rewrite Hlast. by rewrite Hk.
    + rewrite app_nil_r. do 2 f_equal.
      destruct (last cs); [done|]. rewrite Hlast. by rewrite Hk.
Qed.

(** The cloning block on a well-formed, non-empty chunk stream: the kept
    chunks in order, then the last chunk once more if it is a kept one. *)
Lemma cloneChunks_chunks d m cs :
  cs ≠ [] → Forall wf_chunk cs →
  cloneChunks d m (stream_of cs)
  = Some (stream_of (List.filter (kept d m) cs) ++ lastAgain d m cs).
Proof.
  intros Hne Hwf. unfold cloneChunks, istream_of.
  destruct (cloneLoop_chunks d m cs (S (length (stream_of cs))) []
              (replicate 8 0) (replicate 4 0) [] [] Hwf)
    as (st' & Hloop & Hout); try done.
  { pose proof (stream_of_length cs). lia. }
  transitivity (tstream <$> Some st'); [exact (f_equal (fmap tstream) Hloop)|].
  cbn [fmap option_fmap option_map]. rewrite Hout, app_nil_l.
  unfold lastAgain. destruct (last cs) eqn:E; [done|].
  by apply last_None in E.
Qed.

(** When the last chunk of the stream is one of the two rewritten chunks,
    the block copies every other chunk once, in order. *)
Lemma cloneChunks_last_rewritten d m cs c :
  Forall wf_chunk cs → last cs = Some c → kept d m c = false →
  cloneChunks d m (stream_of cs) = Some (stream_of (List.filter (kept d m) cs)).
Proof.
  intros Hwf Hlast Hk. rewrite cloneChunks_chunks; [|by intros -> | done].
  unfold lastAgain. by rewrite Hlast, Hk, app_nil_r.
Qed.

(** *** The line limit of the text index *)

Lemma encodeLines_lines seeded newLines :
  ∀ table lines indices table' lines' indices' ok,
    encodeLines seeded newLines table lines indices
    = Some (table', lines', indices', ok) →
    (Z.of_nat (length lines) ≤ 65536 → Z.of_nat (length lines') ≤ 65536)
    ∧ (ok = false → 65535 < Z.of_nat (length lines'))
    ∧ ∃ ext, lines' = lines ++ ext.
Proof.
  induction newLines as [|newLine rest IH];
    intros table lines indices table' lines' indices' ok H; simpl in H.
  - injection H as <- <- <- <-. split; [done|]. split; [done|].
    exists []. by rewrite app_nil_r.
  - destruct (dangling seeded lines); [done|].
    destruct (table !! newLine) as [second|].
    + by eapply IH.
    + case_decide as Hfull.
      * injection H as <- <- <- <-. unfold UINT16_MAX in Hfull.
        split; [done|]. split; [lia|]. exists []. by rewrite app_nil_r.
      * apply IH in H as (Hle & Hok & ext & Hext).
        rewrite length_app in Hle. simpl in Hle. unfold UINT16_MAX in Hfull.
        split; [lia|]. split; [done|].
        exists ([newLine] ++ ext). by rewrite Hext, <- app_assoc.
Qed.

Lemma encodeRecords_lines seeded records :
  ∀ offset_ table lines records' lines' ok,
    encodeRecords seeded records offset_ table lines = Some (records', lines', ok) →
    (Z.of_nat (length lines) ≤ 65536 → Z.of_nat (length lines') ≤ 65536)
    ∧ (ok = false → 65535 < Z.of_nat (length lines'))
    ∧ ∃ ext, lines' = lines ++ ext.
Proof.
  induction records as [|record rest IH];
    intros offset_ table lines records' lines' ok H; simpl in H.
  - injection H as <- <- <-. split; [done|]. split; [done|].
    exists []. by rewrite app_nil_r.
  - destruct (encodeLines seeded (splitLines (decodedShaderText record)) table lines [])
      as [[[[table1 lines1] indices1] ok1]|] eqn:E; [|done].
    apply encodeLines_lines in E as (Hle1 & Hok1 & ext1 & Hext1).
    destruct ok1.
    + destruct (encodeRecords seeded rest _ table1 lines1)
        as [[[rest' lines2] ok2]|] eqn:E2; [|done].
      injection H as <- <- <-.
      apply IH in E2 as (Hle2 & Hok2 & ext2 & Hext2).
      split; [auto|]. split; [done|].
      exists (ext1 ++ ext2). by rewrite Hext2, Hext1, <- app_assoc.
    + injection H as <- <- <-. split; [done|]. split; [auto|]. by exists ext1.
Qed.

(** A new line is refused once the dictionary holds index 65535. *)
Lemma encodeLines_refuses seeded table lines indices newLine rest :
  dangling seeded lines = false →
  table !! newLine = None → Z.of_nat (length lines) > UINT16_MAX →
  encodeLines seeded (newLine :: rest) table lines indices
  = Some (table, lines, indices, false).
Proof. intros Hd Hnew Hfull. simpl. rewrite Hd, Hnew. by rewrite decide_True. Qed.

(** *** A key that matches no record *)

Lemma replaceText_no_match shaderModel variant_ stage_ source records :
  (∀ record, record ∈ records →
     ¬ (model record = shaderModel ∧ variant record = variant_
        ∧ stage record = stage_)) →
  replaceText shaderModel variant_ stage_ source records = records.
Proof.
  induction records as [|record rest IH]; intros H; simpl; [done|].
  rewrite decide_False by (apply H; by left).
  rewrite IH; [done|]. intros r Hr. apply H. by right.
Qed.

Lemma decodeRecords_keys lines records record' :
  record' ∈ (decodeRecords lines records).1 →
  ∃ record, record ∈ records ∧ model record' = model record
            ∧ variant record' = variant record ∧ stage record' = stage record.
Proof.
  revert record'. induction records as [|record rest IH]; intros record' Hin.
  - by apply elem_of_nil in Hin.
  - simpl in Hin.
    destruct (forallb _ (lineIndices record)).
    + destruct (decodeRecords lines rest) as [rest' ok] eqn:E. simpl in *.
      apply elem_of_cons in Hin as [->|Hin].
      * exists record. split; [by left | done].
      * destruct (IH record' Hin) as (r & Hr & Hk). exists r. split; [by right | done].
    + simpl in Hin. exists record'. split; [done | done].
Qed.

Lemma replaceShader_no_match idx shaderModel variant_ stage_ source source' :
  no_record_matches idx shaderModel variant_ stage_ →
  replaceShader idx shaderModel variant_ stage_ source
  = replaceShader idx shaderModel variant_ stage_ source'.
Proof.
  intros Hno. unfold replaceShader.
  pose proof (decodeRecords_keys (mStringLines idx) (mShaderRecords idx)) as Hkeys.
  destruct (decodeRecords (mStringLines idx) (mShaderRecords idx)) as [decoded ok].
  simpl in Hkeys. destruct ok; [|done].
  rewrite !replaceText_no_match; [done| |];
    intros r Hr (Hm & Hv & Hs); destruct (Hkeys r Hr) as (r0 & Hr0 & Em & Ev & Es);
    apply (Hno r0 Hr0); repeat split; congruence.
Qed.

Section ReplacerFacts.
Variables MaterialGlsl MaterialMetal MaterialSpirv : Z.
Variables DictionaryText DictionarySpirv Unknown : Z.
Variable unflatten : ChunkContainer → Z → option (list (list Z)).
Variable flattenDictionary : list (list Z) → nat → list Z.
Variable compileSpirv : Z → Z → string → option (list Z).

Local Abbreviation replaceShaderSource :=
  (replaceShaderSource DictionarySpirv unflatten flattenDictionary compileSpirv).

(** The text path, once the package parses, holds both chunks and its
    index can be built: the chunks of other kinds are cloned, and the
    index is re-encoded and written unless it is empty. *)
Lemma replaceShaderSource_text r shaderModel variant_ stage_ source cc idx :
  parse (mOriginalPackage r) = Some cc →
  hasChunk cc (mMaterialTag r) = true →
  hasChunk cc (mDictionaryTag r) = true →
  mDictionaryTag r ≠ DictionarySpirv →
  ShaderIndex_new (mDictionaryTag r) (mMaterialTag r) cc = Some idx →
  ∃ copied,
    cloneChunks (mDictionaryTag r) (mMaterialTag r) (mOriginalPackage r) = Some copied
    ∧ replaceShaderSource r shaderModel variant_ stage_ source
      = if isEmpty idx then Some (true, setEdited r copied)
        else match replaceShader idx shaderModel variant_ stage_ source with
             | Some (idx', _) => Some (true, setEdited r (writeChunks idx' copied))
             | None => None
             end.
Proof.
  intros Hparse Hmat Hdict Hne Hidx.
  destruct (cloneChunks_total (mDictionaryTag r) (mMaterialTag r) (mOriginalPackage r))
    as [copied Hcopied].
  exists copied. split; [done|].
  assert (Hdata : ccData cc = mOriginalPackage r).
  { unfold parse in Hparse. destruct (parseChunks _ _ _ _); [|done].
    by injection Hparse as <-. }
  unfold Matdbg.replaceShaderSource.
  rewrite Hparse, Hmat, Hdict. cbn [negb orb].
  rewrite decide_False by done.
  rewrite Hdata, Hcopied. cbn [mbind option_bind].
  rewrite Hidx. cbn [mbind option_bind].
  destruct (isEmpty idx); [done|].
  by destruct (replaceShader idx shaderModel variant_ stage_ source) as [[idx' log]|].
Qed.

(** On a well-formed package whose last chunk is one of the two rewritten
    chunks, the text path copies every other chunk once, in order, in
    front of what it writes itself. *)
Lemma replaceShaderSource_passthrough r shaderModel variant_ stage_ source cc idx cs c :
  mOriginalPackage r = stream_of cs →
  Forall wf_chunk cs →
  last cs = Some c → kept (mDictionaryTag r) (mMaterialTag r) c = false →
  parse (mOriginalPackage r) = Some cc →
  hasChunk cc (mMaterialTag r) = true →
  hasChunk cc (mDictionaryTag r) = true →
  mDictionaryTag r ≠ DictionarySpirv →
  ShaderIndex_new (mDictionaryTag r) (mMaterialTag r) cc = Some idx →
  (isEmpty idx = false →
   is_Some (replaceShader idx shaderModel variant_ stage_ source)) →
  ∃ written,
    replaceShaderSource r shaderModel variant_ stage_ source
    = Some (true, setEdited r
              (stream_of (List.filter (kept (mDictionaryTag r) (mMaterialTag r)) cs)
               ++ written)).
Proof.
  intros Hpkg Hwf Hlast Hkept Hparse Hmat Hdict Hne Hidx Hdef.
  destruct (replaceShaderSource_text r shaderModel variant_ stage_ source cc idx)
    as (copied & Hcopied & Hres); try done.
  rewrite Hpkg, (cloneChunks_last_rewritten _ _ cs c) in Hcopied by done.
  injection Hcopied as <-. rewrite Hres.
  destruct (isEmpty idx).
  - exists []. by rewrite app_nil_r.
  - destruct (Hdef eq_refl) as [[idx' log] ->].
    unfold writeChunks. by eexists.
Qed.

End ReplacerFacts.

Import PackageInputs.

(** [package_other_last] is a well-formed stream of three chunks. *)
Lemma package_other_last_chunks :
  package_other_last
  = stream_of [(DictionaryText, dict_payload); (MaterialGlsl, mat_payload);
               (tag_other, [1; 2; 3])].
Proof. reflexivity. Qed.

(** C3: every chunk that is neither the dictionary nor the material chunk
    appears in the output once, byte-identical and in order.  In
    [package_other_last] the chunk of another kind comes last; the output
    of the rewrite holds it twice, in front of the two rewritten chunks. *)
Theorem last_chunk_cloned_twice
    (unflatten : ChunkContainer → Z → option (list (list Z)))
    (flattenDictionary : list (list Z) → nat → list Z)
    (compileSpirv : Z → Z → string → option (list Z)) :
  replaceShaderSource DictionarySpirv unflatten flattenDictionary compileSpirv
    (replacer package_other_last) 1 7 0 new_source
  = Some (true,
          setEdited (replacer package_other_last)
            (other_chunk ++ other_chunk
             ++ chunk_bytes DictionaryText dict_payload_new
             ++ chunk_bytes MaterialGlsl mat_payload_new)).
Proof. vm_compute. reflexivity. Qed.

(** The same package with the other chunk in front is rewritten as
    documented. *)
Lemma first_chunk_cloned_once
    (unflatten : ChunkContainer → Z → option (list (list Z)))
    (flattenDictionary : list (list Z) → nat → list Z)
    (compileSpirv : Z → Z → string → option (list Z)) :
  replaceShaderSource DictionarySpirv unflatten flattenDictionary compileSpirv
    (replacer package_other_first) 1 7 0 new_source
  = Some (true,
          setEdited (replacer package_other_first)
            (other_chunk
             ++ chunk_bytes DictionaryText dict_payload_new
             ++ chunk_bytes MaterialGlsl mat_payload_new)).
Proof. vm_compute. reflexivity. Qed.

(** C5, as stated: a key that matches no record makes the rewrite fail
    and leave no output.  [package_other_first] has no record with key
    (1, 8, 0); the rewrite returns true and stores a package, which holds
    the bytes of the input again. *)
Lemma rewrite_succeeds_without_match :
  (∃ cc idx,
     parse package_other_first = Some cc
     ∧ ShaderIndex_new DictionaryText MaterialGlsl cc = Some idx
     ∧ no_record_matches idx 1 8 0)
  ∧ replaceShaderSource DictionarySpirv no_unflatten no_flatten no_compile
      (replacer package_other_first) 1 8 0 new_source
    = Some (true, setEdited (replacer package_other_first) package_other_first)
  ∧ getEditedPackage (setEdited (replacer package_other_first) package_other_first)
    = Some package_other_first.
Proof.
  split; [|split].
  - eexists _, _. split; [reflexivity|]. split; [vm_compute; reflexivity|].
    intros record Hin. apply list_elem_of_singleton in Hin. subst record.
    vm_compute. intros (_ & Hv & _). discriminate Hv.
  - vm_compute. reflexivity.
  - reflexivity.
Qed.

(** *** A dictionary one line short of the limit *)

Lemma lines_from_length k p : length (lines_from k p) = k.
Proof. revert p. induction k as [|k IH]; intros p; simpl; [done | by rewrite IH]. Qed.

Lemma lines_from_head k p x :
  x ∈ lines_from k p →
  ∃ c t, x = String c t ∧ (c = "0"%char ∨ c = "1"%char).
Proof.
  revert p. induction k as [|k IH]; intros p Hin; simpl in Hin.
  - by apply elem_of_nil in Hin.
  - apply elem_of_cons in Hin as [->|Hin]; [|by eapply IH].
    destruct p; simpl; eauto.
Qed.

Lemma emplace_lookup_ne key v (table : gmap string Z) k :
  k ≠ key → emplace key v table !! k = table !! k.
Proof.
  intros Hne. unfold emplace. destruct (table !! key); [done|].
  by rewrite lookup_insert_ne.
Qed.

(** A string that is not in the dictionary is not in the table seeded
    from it. *)
Lemma buildTable_fresh lines i (table : gmap string Z) k :
  k ∉ lines → table !! k = None → buildTable lines i table !! k = None.
Proof.
  revert i table. induction lines as [|line lines IH]; intros i table Hk Hnone; [done|].
  simpl. apply IH.
  - intros Hin. apply Hk. by right.
  - rewrite emplace_lookup_ne; [done|]. intros ->. apply Hk. by left.
Qed.

Lemma emplace_is_Some key v (table : gmap string Z) k :
  is_Some (table !! k) ∨ k = key → is_Some (emplace key v table !! k).
Proof.
  intros H. unfold emplace. destruct (table !! key) as [w|] eqn:E.
  - destruct H as [H| ->]; [done | by rewrite E].
  - destruct (decide (k = key)) as [->|Hne].
    + by rewrite lookup_insert_eq.
    + rewrite lookup_insert_ne by done. by destruct H.
Qed.

Lemma buildTable_keeps lines i (table : gmap string Z) k :
  is_Some (table !! k) → is_Some (buildTable lines i table !! k).
Proof.
  revert i table. induction lines as [|line lines IH]; intros i table Hk; [done|].
  simpl. apply IH, emplace_is_Some. by left.
Qed.

(** Every string of the dictionary is in the table seeded from it. *)
Lemma buildTable_covers lines i (table : gmap string Z) k :
  k ∈ lines → is_Some (buildTable lines i table !! k).
Proof.
  revert i table. induction lines as [|line lines IH]; intros i table Hk.
  - by apply elem_of_nil in Hk.
  - simpl. apply elem_of_cons in Hk as [->|Hk]; [|by apply IH].
    apply buildTable_keeps, emplace_is_Some. by right.
Qed.

(** As long as the dictionary is the one the table was seeded from, no
    key dangles. *)
Lemma dangling_seed seeded lines :
  (length lines ≤ seeded)%nat → dangling seeded lines = false.
Proof. intros H. unfold dangling. apply bool_decide_eq_false_2. lia. Qed.

(** One record with key (1, 7, 0) takes a one-line text that the
    dictionary does not hold yet: the line is appended, nothing is
    logged. *)
Lemma replaceShader_new_line d m lines source :
  splitLines source = [source] →
  Z.of_nat (length lines) ≤ 65535 →
  source ∉ lines →
  ∃ records,
    replaceShader
      (mkShaderIndex d m [mkShaderRecord 1 7 0 15 [] EmptyString 1] lines)
      1 7 0 source
    = Some (mkShaderIndex d m records (lines ++ [source]), None).
Proof.
  intros Hsplit Hlen Hfresh.
  unfold replaceShader.
  cbn [mStringLines mShaderRecords decodeRecords lineIndices forallb].
  cbn [replaceText model variant stage].
  rewrite decide_True by done.
  cbn [encodeRecords decodedShaderText fold_left].
  rewrite Hsplit. cbn [encodeLines].
  rewrite dangling_seed by done.
  rewrite buildTable_fresh by done.
  rewrite decide_False by (unfold UINT16_MAX; lia).
  by eexists.
Qed.

(** On a full dictionary that is still the seed of the table nothing is
    appended: the pass over the lines of a record goes through only if
    the table holds every line, and is refused at the first line it does
    not hold. *)
Lemma encodeLines_full seeded newLines :
  ∀ table lines indices,
    (length lines ≤ seeded)%nat → Z.of_nat (length lines) > UINT16_MAX →
    ∃ indices' ok,
      encodeLines seeded newLines table lines indices
      = Some (table, lines, indices', ok)
      ∧ (ok = true → ∀ l, l ∈ newLines → is_Some (table !! l)).
Proof.
  induction newLines as [|newLine rest IH]; intros table lines indices Hs Hfull.
  - exists indices, true. split; [done|]. intros _ l Hin. by apply elem_of_nil in Hin.
  - cbn [encodeLines]. rewrite dangling_seed by done.
    destruct (table !! newLine) as [second|] eqn:E.
    + destruct (IH table lines (indices ++ [second]) Hs Hfull)
        as (indices' & ok & Hrun & Hall).
      exists indices', ok. split; [done|].
      intros Hok l Hin. apply elem_of_cons in Hin as [->|Hin]; [by rewrite E | auto].
    + rewrite decide_True by done. by exists indices, false.
Qed.

Lemma encodeRecords_full seeded records :
  ∀ offset_ table lines,
    (length lines ≤ seeded)%nat → Z.of_nat (length lines) > UINT16_MAX →
    ∃ records' ok,
      encodeRecords seeded records offset_ table lines = Some (records', lines, ok)
      ∧ (ok = true → ∀ record l, record ∈ records →
           l ∈ splitLines (decodedShaderText record) → is_Some (table !! l)).
Proof.
  induction records as [|record rest IH]; intros offset_ table lines Hs Hfull.
  - exists [], true. split; [done|]. intros _ r l Hin. by apply elem_of_nil in Hin.
  - cbn [encodeRecords].
    destruct (encodeLines_full seeded (splitLines (decodedShaderText record))
                table lines [] Hs Hfull) as (indices1 & ok1 & -> & Hall1).
    destruct ok1; [|by eexists _, false].
    destruct (IH (wrap32 (wrap32 (wrap32 (offset_ + 4) + 4)
                          + 2 * Z.of_nat (length indices1))) table lines Hs Hfull)
      as (rest' & ok2 & -> & Hall2).
    eexists _, ok2. split; [done|].
    intros Hok r l Hin Hl. apply elem_of_cons in Hin as [->|Hin]; [auto | eauto].
Qed.

(** The record with the key takes the new text. *)
Lemma replaceText_match shaderModel variant_ stage_ source records record :
  record ∈ records →
  model record = shaderModel ∧ variant record = variant_ ∧ stage record = stage_ →
  ∃ record', record' ∈ replaceText shaderModel variant_ stage_ source records
             ∧ decodedShaderText record' = source.
Proof.
  intros Hin Hkey. induction records as [|r rest IH].
  - by apply elem_of_nil in Hin.
  - cbn [replaceText]. case_decide as Hr.
    + eexists. split; [by left | done].
    + apply elem_of_cons in Hin as [->|Hin]; [done|].
      destruct (IH Hin) as (record' & Hin' & Htext).
      exists record'. split; [by right | done].
Qed.

Lemma decodeRecords_keeps_keys lines records :
  ∀ decoded record,
    decodeRecords lines records = (decoded, true) →
    record ∈ records →
    ∃ record', record' ∈ decoded ∧ model record' = model record
               ∧ variant record' = variant record ∧ stage record' = stage record.
Proof.
  induction records as [|r rest IH]; intros decoded record H Hin.
  - by apply elem_of_nil in Hin.
  - cbn [decodeRecords] in H.
    destruct (forallb _ (lineIndices r)); [|discriminate H].
    destruct (decodeRecords lines rest) as [rest' ok] eqn:E.
    injection H as <- ->.
    apply elem_of_cons in Hin as [->|Hin].
    + eexists. split; [by left | done].
    + destruct (IH rest' record eq_refl Hin) as (record' & Hin' & Hk).
      exists record'. split; [by right | done].
Qed.

(** C7, amended: during text re-encoding, a line insert that would
    require a dictionary index greater than 65535 is refused.  On a
    dictionary of 65536 strings, when the record with the key takes a
    source with a line the dictionary does not hold, [replaceShader] logs
    "Chunk encoding error: too many unique codelines." and returns with
    the dictionary as it was.  On every call whose result is defined, a
    dictionary of at most 65536 strings does not grow beyond 65536 strings
    (indices 0 to 65535), the strings already in it keep their index, and
    when the error is logged the dictionary holds exactly 65536 strings.
    In the loop, a line that the table does not hold is refused, and
    nothing is added, whenever the dictionary holds more than 65535
    strings. *)
Theorem replaceShader_line_limit
    (idx : ShaderIndex) (shaderModel variant_ stage_ : Z) (source : string) :
  Z.of_nat (length (mStringLines idx)) ≤ 65536 →
  (Z.of_nat (length (mStringLines idx)) = 65536 →
   (decodeRecords (mStringLines idx) (mShaderRecords idx)).2 = true →
   ∀ record line,
     record ∈ mShaderRecords idx →
     model record = shaderModel mod 2 ^ 8 ∧ variant record = variant_
     ∧ stage record = stage_ →
     line ∈ splitLines source → line ∉ mStringLines idx →
     ∃ idx',
       replaceShader idx shaderModel variant_ stage_ source
       = Some (idx', Some msg_too_many)
       ∧ mStringLines idx' = mStringLines idx)
  ∧ (∀ idx' log,
       replaceShader idx shaderModel variant_ stage_ source = Some (idx', log) →
       Z.of_nat (length (mStringLines idx')) ≤ 65536
       ∧ (log = Some msg_too_many → Z.of_nat (length (mStringLines idx')) = 65536)
       ∧ ∃ ext, mStringLines idx' = mStringLines idx ++ ext)
  ∧ ∀ seeded table lines indices newLine rest,
      dangling seeded lines = false →
      table !! newLine = None → Z.of_nat (length lines) > UINT16_MAX →
      encodeLines seeded (newLine :: rest) table lines indices
      = Some (table, lines, indices, false).
Proof.
  intros Hlen. split; [|split].
  - intros Hfull Hdec record line Hin Hkey Hline Hnew.
    unfold replaceShader.
    destruct (decodeRecords (mStringLines idx) (mShaderRecords idx))
      as [decoded ok] eqn:E.
    cbn [snd] in Hdec. subst ok.
    destruct (decodeRecords_keeps_keys _ _ _ _ E Hin) as (r1 & Hr1 & Em & Ev & Es).
    destruct (replaceText_match (shaderModel mod 2 ^ 8) variant_ stage_ source
                decoded r1 Hr1) as (r2 & Hr2 & Htext).
    { destruct Hkey as (? & ? & ?). repeat split; congruence. }
    destruct (encodeRecords_full (length (mStringLines idx))
                (replaceText (shaderModel mod 2 ^ 8) variant_ stage_ source decoded)
                (fold_left (fun offset_ _ =>
                     wrap32 (wrap32 (wrap32 (wrap32 (offset_ + 1) + 1) + 1) + 4))
                   (replaceText (shaderModel mod 2 ^ 8) variant_ stage_ source decoded) 8)
                (buildTable (mStringLines idx) 0 ∅) (mStringLines idx))
      as (records' & ok & -> & Hall); [done | unfold UINT16_MAX; lia |].
    destruct ok.
    + exfalso. specialize (Hall eq_refl r2 line Hr2).
      rewrite Htext in Hall. specialize (Hall Hline).
      rewrite buildTable_fresh in Hall by done. by destruct Hall.
    + by eexists.
  - intros idx' log. unfold replaceShader.
    destruct (decodeRecords (mStringLines idx) (mShaderRecords idx)) as [decoded ok].
    destruct ok.
    + destruct (encodeRecords _ _ _ _ (mStringLines idx))
        as [[[records lines] ok']|] eqn:E; [|done].
      apply encodeRecords_lines in E as (Hle & Hok & ext & Hext).
      intros [= <- <-]. cbn [mStringLines].
      split; [auto|]. split; [|by exists ext].
      destruct ok'; [done|]. intros _.
      specialize (Hle Hlen). specialize (Hok eq_refl). lia.
    + intros [= <- <-]. cbn [mStringLines].
      split; [done|]. split; [intros [=]|].
      exists []. by rewrite app_nil_r.
  - intros. by apply encodeLines_refuses.
Qed.

(** [new_source] is none of the lines of [lines_from]. *)
Lemma lines_from_fresh k p : new_source ∉ lines_from k p.
Proof.
  intros Hin. apply lines_from_head in Hin as (c & t & Heq & [-> | ->]);
    discriminate Heq.
Qed.

Lemma index_65536_length : Z.of_nat (length (mStringLines index_65536)) = 65536.
Proof.
  unfold index_65536. cbn [mStringLines].
  rewrite lines_from_length. by rewrite Z2Nat.id.
Qed.

Lemma replaceShader_line_limit_witness :
  ∃ idx',
    replaceShader index_65536 1 7 0 new_source = Some (idx', Some msg_too_many)
    ∧ mStringLines idx' = mStringLines index_65536.
Proof.
  refine (proj1 (replaceShader_line_limit index_65536 1 7 0 new_source
                   (Z.eq_le_incl _ _ index_65536_length))
            index_65536_length _ (mkShaderRecord 1 7 0 15 [] "" 1) new_source
            _ _ _ (lines_from_fresh (Z.to_nat 65536) 1)).
  - reflexivity.
  - left.
  - split; [reflexivity | split; reflexivity].
  - left.
Defined.

(** C7, as stated: the count of the string dictionary never exceeds 65535
    after an encode.  [index_65535] holds 65535 strings; the record takes
    a text whose line is new; the line gets index 65535, nothing is
    logged, and the dictionary holds 65536 strings. *)
Lemma dictionary_count_reaches_65536 :
  Z.of_nat (length (mStringLines index_65535)) = 65535
  ∧ ∃ idx',
      replaceShader index_65535 1 7 0 new_source = Some (idx', None)
      ∧ Z.of_nat (length (mStringLines idx')) = 65536.
Proof.
  assert (Hlen : Z.of_nat (length (lines_from (Z.to_nat 65535) 1)) = 65535).
  { rewrite lines_from_length. by rewrite Z2Nat.id. }
  destruct (replaceShader_new_line DictionaryText MaterialGlsl
              (lines_from (Z.to_nat 65535) 1) new_source) as [records Hrun].
  - reflexivity.
  - lia.
  - apply lines_from_fresh.
  - split; [exact Hlen|]. eexists. split; [exact Hrun|].
    cbn [mStringLines]. rewrite length_app, Nat2Z.inj_add, Hlen. reflexivity.
Qed.

(** C2: when a record is replaced whose blob another record shares, the
    output dictionary holds a fresh blob beside the original one and only
    the replaced record points to it.  In [index_shared] both records
    point to blob 0; [replaceShader] overwrites that blob in place, so the
    dictionary that [writeChunks] builds holds the new bytes only and
    both records point to them. *)
Theorem shared_blob_overwritten :
  BlobIndex_replaceShader index_shared 1 0 0 blob_new
  = Some (mkBlobIndex DictionarySpirv MaterialSpirv
            [mkBlobRecord 1 0 0 0; mkBlobRecord 1 1 0 0] [blob_new],
          None)
  ∧ consolidate [blob_new] [mkBlobRecord 1 0 0 0; mkBlobRecord 1 1 0 0] []
    = Some ([mkBlobRecord 1 0 0 0; mkBlobRecord 1 1 0 0], [blob_new])
  ∧ ∀ (flattenDictionary : list (list Z) → nat → list Z),
      BlobIndex_writeChunks flattenDictionary
        (mkBlobIndex DictionarySpirv MaterialSpirv
           [mkBlobRecord 1 0 0 0; mkBlobRecord 1 1 0 0] [blob_new]) []
      = Some (mkBlobIndex DictionarySpirv MaterialSpirv
                [mkBlobRecord 1 0 0 0; mkBlobRecord 1 1 0 0] [blob_new],
              flattenDictionary [blob_new] 0%nat
              ++ chunk_bytes MaterialSpirv
                   (le_bytes 8 2 ++ [1; 0; 0] ++ le_bytes 4 0
                    ++ [1; 1; 0] ++ le_bytes 4 0)).
Proof.
  split; [reflexivity|]. split; [reflexivity|].
  intros flattenDictionary. reflexivity.
Qed.

End MatdbgFacts.

(** * More properties of the archive matcher *)

Module MatcherMoreFacts.
Import Uberz UberzMore UberzFacts.

(** The test of a spec looks at the features mapped to true only. *)
Lemma specIsSuitable_true_features reqs1 reqs2 spec :
  reqShadingModel reqs1 = reqShadingModel reqs2 →
  reqBlendingMode reqs1 = reqBlendingMode reqs2 →
  (∀ n, features reqs1 !! n = Some true ↔ features reqs2 !! n = Some true) →
  specIsSuitable reqs1 spec = specIsSuitable reqs2 spec.
Proof.
  intros Hs Hb Hf.
  assert (H : specIsSuitable reqs1 spec = true ↔ specIsSuitable reqs2 spec = true).
  { rewrite !specIsSuitable_true.
    unfold doc_blending, doc_shading, doc_required. rewrite Hs, Hb.
    split; intros (H1 & H2 & H3 & H4); repeat split; try done.
    - intros n Hn. apply H3. by apply Hf.
    - intros flag Hin Hreq. apply Hf. by apply H4.
    - intros n Hn. apply H3. by apply Hf.
    - intros flag Hin Hreq. apply Hf. by apply H4. }
  destruct (specIsSuitable reqs1 spec), (specIsSuitable reqs2 spec); try done.
  - symmetry. by apply H.
  - by apply H.
Qed.

(** X1: a feature that the requirements map to false counts like a
    feature they do not mention: the test of a spec, and with it the
    material [getMaterial] returns, is the same once every entry mapped to
    false is taken out of the requirements. *)
Theorem false_features_are_ignored
    (shading : Shading) (blending : BlendingMode) (feat : gmap string bool)
    (spec : ArchiveSpec) :
  specIsSuitable (mkReqs shading blending feat) spec
  = specIsSuitable
      (mkReqs shading blending (filter (fun kv => kv.2 = true) feat)) spec.
Proof.
  apply specIsSuitable_true_features; [done | done |].
  intros n. simpl. rewrite map_lookup_filter_Some. simpl. tauto.
Qed.

Section CacheHelpers.
Context {Material : Type} (build : list Z → Material).

Lemma getMaterial_from_spec reqs specs :
  ∀ i mats,
    let r := getMaterial_from build reqs i specs mats in
    length r.2 = length mats
    ∧ (∀ j m, mats !! j = Some (Some m) → r.2 !! j = Some (Some m))
    ∧ match r.1 with
      | Some m =>
          ∃ k spec,
            specs !! k = Some spec ∧ specIsSuitable reqs spec = true
            ∧ (∀ j spec', (j < k)%nat → specs !! j = Some spec' →
                 specIsSuitable reqs spec' = false)
            ∧ m = match mats !! (i + k)%nat with
                  | Some (Some m0) => m0
                  | _ => build (package spec)
                  end
            ∧ r.2 = match mats !! (i + k)%nat with
                    | Some (Some _) => mats
                    | _ => <[(i + k)%nat := Some m]> mats
                    end
      | None =>
          r.2 = mats ∧ ∀ spec, spec ∈ specs → specIsSuitable reqs spec = false
      end.
Proof.
  induction specs as [|spec specs IH]; intros i mats r; subst r.
  - simpl. split; [done|]. split; [done|]. split; [done|].
    intros spec Hin. by apply elem_of_nil in Hin.
  - cbn [getMaterial_from]. destruct (specIsSuitable reqs spec) eqn:E.
    + destruct (mats !! i) as [[m0|]|] eqn:Hi; simpl.
      * split; [done|]. split; [done|].
        exists 0%nat, spec. rewrite Nat.add_0_r, Hi.
        repeat split; try done. intros j spec' Hj. lia.
      * split; [by rewrite length_insert|]. split.
        { intros j m Hj. destruct (decide (j = i)) as [->|Hne]; [congruence|].
          by rewrite list_lookup_insert_ne. }
        exists 0%nat, spec. rewrite Nat.add_0_r, Hi.
        repeat split; try done. intros j spec' Hj. lia.
      * split; [by rewrite length_insert|]. split.
        { intros j m Hj. destruct (decide (j = i)) as [->|Hne]; [congruence|].
          by rewrite list_lookup_insert_ne. }
        exists 0%nat, spec. rewrite Nat.add_0_r, Hi.
        repeat split; try done. intros j spec' Hj. lia.
    + destruct (IH (S i) mats) as (Hlen & Hkeep & Hres).
      split; [done|]. split; [done|].
      destruct (getMaterial_from build reqs (S i) specs mats).1 as [m|].
      * destruct Hres as (k & spec' & Hk & Hs & Hbefore & Hm & Hmats).
        exists (S k), spec'. replace (i + S k)%nat with (S i + k)%nat by lia.
        repeat split; try done.
        intros [|j] spec'' Hj Hspec''; simpl in Hspec''.
        -- by injection Hspec'' as <-.
        -- apply (Hbefore j); [lia | done].
      * destruct Hres as [Hmats Hnone]. split; [done|].
        intros spec' Hin. apply elem_of_cons in Hin as [->|Hin]; auto.
Qed.

(** The loop at its first passing spec, result and cache. *)
Lemma getMaterial_from_first_full reqs i pre spec post mats :
  (∀ s, s ∈ pre → specIsSuitable reqs s = false) →
  specIsSuitable reqs spec = true →
  getMaterial_from build reqs i (pre ++ spec :: post) mats
  = match mats !! (i + length pre)%nat with
    | Some (Some m) => (Some m, mats)
    | _ => (Some (build (package spec)),
            <[(i + length pre)%nat := Some (build (package spec))]> mats)
    end.
Proof.
  revert i. induction pre as [|s pre IH]; intros i Hpre Hspec.
  - simpl. rewrite Hspec, Nat.add_0_r. by destruct (mats !! i) as [[m|]|].
  - rewrite <- app_comm_cons, getMaterial_from_skip by (apply Hpre; by left).
    rewrite IH; [|intros s' Hs'; apply Hpre; by right | done].
    simpl length. by rewrite Nat.add_succ_r.
Qed.

Lemma first_passing_split reqs (specs : list ArchiveSpec) k spec :
  specs !! k = Some spec →
  (∀ j spec', (j < k)%nat → specs !! j = Some spec' →
     specIsSuitable reqs spec' = false) →
  specs = take k specs ++ spec :: drop (S k) specs
  ∧ length (take k specs) = k
  ∧ ∀ s, s ∈ take k specs → specIsSuitable reqs s = false.
Proof.
  intros Hk Hbefore. split; [by rewrite take_drop_middle|].
  pose proof (lookup_lt_Some _ _ _ Hk) as Hlt.
  split; [rewrite length_take; lia|].
  intros s Hs. apply list_elem_of_lookup_1 in Hs as [j Hj].
  pose proof (lookup_lt_Some _ _ _ Hj) as Hj'. rewrite length_take in Hj'.
  rewrite lookup_take_lt in Hj by lia. apply (Hbefore j); [lia | done].
Qed.

Lemma getMaterial_from_app reqs specs extra :
  ∀ i mats m,
    (getMaterial_from build reqs i specs mats).1 = Some m →
    getMaterial_from build reqs i (specs ++ extra) mats
    = getMaterial_from build reqs i specs mats.
Proof.
  induction specs as [|spec specs IH]; intros i mats m H; [done|].
  cbn [getMaterial_from app] in *.
  destruct (specIsSuitable reqs spec); [done|]. by eapply IH.
Qed.

End CacheHelpers.

Section CacheMoreFacts.
Context {Material : Type} (build : list Z → Material).

(** X2: what a call of [getMaterial] does to the cache.  The vector keeps
    its length and every material already built stays in its slot.  A
    material that is returned belongs to the first spec that passes the
    test of the loop; it is the one the slot of that spec held, or else
    the one built from the package of the spec and stored in that slot;
    no other slot changes.  A null result leaves the cache as it was. *)
Theorem getMaterial_cache_discipline
    (c : ArchiveCache (Material := Material)) (reqs : ArchiveRequirements) :
  let r := getMaterial build c reqs in
  mArchive r.2 = mArchive c
  ∧ length (mMaterials r.2) = length (mMaterials c)
  ∧ (∀ j m, mMaterials c !! j = Some (Some m) → mMaterials r.2 !! j = Some (Some m))
  ∧ match r.1 with
    | Some m =>
        ∃ k spec,
          mArchive c !! k = Some spec ∧ specIsSuitable reqs spec = true
          ∧ (∀ j spec', (j < k)%nat → mArchive c !! j = Some spec' →
               specIsSuitable reqs spec' = false)
          ∧ m = match mMaterials c !! k with
                | Some (Some m0) => m0
                | _ => build (package spec)
                end
          ∧ (∀ j, j ≠ k → mMaterials r.2 !! j = mMaterials c !! j)
          ∧ ((k < length (mMaterials c))%nat → mMaterials r.2 !! k = Some (Some m))
    | None => r.2 = c
    end.
Proof.
  intros r. subst r. unfold getMaterial.
  pose proof (getMaterial_from_spec build reqs (mArchive c) 0%nat (mMaterials c)) as H.
  destruct (getMaterial_from build reqs 0 (mArchive c) (mMaterials c)) as [res mats].
  simpl in *. destruct H as (Hlen & Hkeep & Hres).
  split; [done|]. split; [done|]. split; [done|].
  destruct res as [m|].
  - destruct Hres as (k & spec & Hk & Hs & Hbefore & Hm & Hmats).
    exists k, spec. repeat split; try done.
    + intros j Hj. rewrite Hmats.
      destruct (mMaterials c !! k) as [[m0|]|]; [done | |];
        by rewrite list_lookup_insert_ne.
    + intros Hlt. rewrite Hmats.
      destruct (mMaterials c !! k) as [[m0|]|] eqn:Hck.
      * by rewrite Hm.
      * by rewrite list_lookup_insert_eq.
      * by rewrite list_lookup_insert_eq.
  - destruct Hres as [-> _]. by destruct c.
Qed.

(** X3: a second call with the same requirements returns the material of
    the first call without building anything: whatever builder the second
    call is given, it returns the same material and leaves the cache of
    the first call as it is. *)
Theorem getMaterial_second_call_is_cached
    (build' : list Z → Material)
    (c : ArchiveCache (Material := Material)) (reqs : ArchiveRequirements) :
  length (mMaterials c) = length (mArchive c) →
  getMaterial build' (getMaterial build c reqs).2 reqs = getMaterial build c reqs.
Proof.
  intros Hlen. unfold getMaterial.
  pose proof (getMaterial_from_spec build reqs (mArchive c) 0%nat (mMaterials c)) as H.
  destruct (getMaterial_from build reqs 0 (mArchive c) (mMaterials c)) as [res mats].
  simpl in *. destruct H as (Hlen' & Hkeep & Hres).
  destruct res as [m|].
  - destruct Hres as (k & spec & Hk & Hs & Hbefore & Hm & Hmats).
    destruct (first_passing_split reqs (mArchive c) k spec Hk Hbefore)
      as (Hsplit & Hlk & Hpre).
    rewrite Hsplit at 1.
    rewrite (getMaterial_from_first_full build') by done.
    rewrite Hlk. simpl.
    assert (Hin : mats !! k = Some (Some m)).
    { apply lookup_lt_Some in Hk. rewrite Hmats.
      destruct (mMaterials c !! k) as [[m0|]|] eqn:Hck.
      - by rewrite Hm.
      - apply list_lookup_insert_eq. lia.
      - apply list_lookup_insert_eq. lia. }
    by rewrite Hin.
  - destruct Hres as [-> Hnone].
    by rewrite (getMaterial_from_none build') by done.
Qed.

(** X4: specs added behind the archive never change a choice that was
    made: when [getMaterial] returns a material, it returns the same
    material and fills the same slot on the archive with more specs at
    its end. *)
Theorem getMaterial_appended_specs
    (c : ArchiveCache (Material := Material)) (extra : list ArchiveSpec)
    (reqs : ArchiveRequirements) (m : Material) :
  (getMaterial build c reqs).1 = Some m →
  (getMaterial build (mkCache (mArchive c ++ extra) (mMaterials c)) reqs).1 = Some m
  ∧ mMaterials (getMaterial build (mkCache (mArchive c ++ extra) (mMaterials c)) reqs).2
    = mMaterials (getMaterial build c reqs).2.
Proof.
  unfold getMaterial. simpl. intros H.
  rewrite (getMaterial_from_app build reqs (mArchive c) extra 0%nat (mMaterials c) m).
  - by destruct (getMaterial_from build reqs 0 (mArchive c) (mMaterials c)).
  - by destruct (getMaterial_from build reqs 0 (mArchive c) (mMaterials c)).
Qed.

(** X5: the default material is the material of the first spec, whatever
    the requirements: on a freshly loaded archive it is built from the
    package of that spec, and it shares the slot of the spec with
    [getMaterial], which returns the very same material, building nothing,
    whenever the first spec passes its test. *)
Theorem getDefaultMaterial_is_first_spec
    (build' : list Z → Material) (spec : ArchiveSpec) (rest : list ArchiveSpec)
    (reqs : ArchiveRequirements) :
  specIsSuitable reqs spec = true →
  ∃ c',
    getDefaultMaterial build (loaded (spec :: rest))
    = Some (build (package spec), c')
    ∧ getMaterial build' c' reqs = (Some (build (package spec)), c')
    ∧ getDefaultMaterial build' c' = Some (build (package spec), c').
Proof.
  intros Hs. eexists. split; [reflexivity|]. split.
  - unfold getMaterial. simpl. by rewrite Hs.
  - reflexivity.
Qed.

End CacheMoreFacts.

Import Inputs.

Lemma getMaterial_second_call_is_cached_witness :
  getMaterial (fun p => p)
    (getMaterial (fun p => 0 :: p) (loaded [spec_normalMapped; spec_normalMap])
       reqs_normalMap).2 reqs_normalMap
  = getMaterial (fun p => 0 :: p) (loaded [spec_normalMapped; spec_normalMap])
      reqs_normalMap.
Proof.
  apply (getMaterial_second_call_is_cached (fun p => 0 :: p) (fun p => p)
           (loaded [spec_normalMapped; spec_normalMap]) reqs_normalMap).
  reflexivity.
Defined.

Lemma getMaterial_appended_specs_witness :
  (getMaterial (fun p => p)
     (mkCache ([spec_required; spec_normalMap] ++ [spec_shadowed]) [None; None])
     reqs_plain).1 = Some [2].
Proof.
  apply (getMaterial_appended_specs (fun p => p)
           (mkCache [spec_required; spec_normalMap] [None; None])
           [spec_shadowed] reqs_plain [2]).
  reflexivity.
Defined.

Lemma getDefaultMaterial_is_first_spec_witness :
  ∃ c',
    getDefaultMaterial (fun p => 0 :: p) (loaded (spec_normalMap :: [spec_required]))
    = Some (0 :: package spec_normalMap, c')
    ∧ getMaterial (fun p => p) c' reqs_normalMap
      = (Some (0 :: package spec_normalMap), c')
    ∧ getDefaultMaterial (fun p => p) c' = Some (0 :: package spec_normalMap, c').
Proof.
  apply (getDefaultMaterial_is_first_spec (fun p => 0 :: p) (fun p => p)
           spec_normalMap [spec_required] reqs_normalMap).
  reflexivity.
Defined.

End MatcherMoreFacts.

(** * Properties of the spec-file reader *)

Module SpecFileFacts.
Import Uberz UberzMore UberzFacts Inputs SpecInputs.

Local Open Scope string_scope.

Lemma strncmp_eq_sym a b n : strncmp_eq a b n = strncmp_eq b a n.
Proof.
  revert a b. induction n as [|n IH]; intros [|x a] [|y b]; simpl; try reflexivity.
  rewrite (Ascii.eqb_sym x y). destruct (Ascii.eqb y x); [apply IH | done].
Qed.

Lemma strncmp_eq_0 a b : strncmp_eq a b 0 = true.
Proof. by destruct a. Qed.

(** A keyword test passes exactly on the cursors that start with the
    keyword. *)
Lemma Keyword_test_prefix kw cursor :
  Keyword_test kw cursor = true ↔ ∃ rest, cursor = kw +:+ rest.
Proof.
  unfold Keyword_test. rewrite strncmp_eq_sym. apply strIsEqual_prefix.
Qed.

Lemma advance_app p rest : advance (String.length p) (p +:+ rest) = rest.
Proof.
  induction p as [|c p IH]; [done|].
  rewrite append_cons. simpl. exact IH.
Qed.

Lemma prefix_of_cursor_app p rest :
  prefix_of_cursor (String.length p) (p +:+ rest) = p.
Proof.
  induction p as [|c p IH]; [by destruct rest|].
  rewrite append_cons. simpl. by rewrite IH.
Qed.

Lemma prefix_advance n cursor :
  prefix_of_cursor n cursor +:+ advance n cursor = cursor.
Proof.
  revert cursor. induction n as [|n IH]; intros [|c cursor]; simpl; try done.
  by rewrite append_cons, IH.
Qed.

Lemma append_assoc (a b c : string) : (a +:+ b) +:+ c = a +:+ (b +:+ c).
Proof. induction a as [|x a IH]; [done|]. by rewrite !append_cons, IH. Qed.

(** The two scanning loops stop at the first character that fails their
    test. *)
Lemma readIdentifier_app id rest :
  string_forallb isAlphaNumeric id = true →
  rest = "" ∨ head_fails isAlphaNumeric rest →
  readIdentifier (id +:+ rest) = String.length id.
Proof.
  intros Hid Hrest. induction id as [|c id IH].
  - simpl. destruct rest as [|r rest]; [done|].
    destruct Hrest as [?|Hr]; [done|]. simpl in *. by rewrite Hr.
  - simpl in Hid. apply andb_true_iff in Hid as [Hc Hid].
    rewrite append_cons. simpl. rewrite Hc. by rewrite IH.
Qed.

Lemma readWhitespace_app ws rest :
  string_forallb isWhitespace ws = true →
  rest = "" ∨ head_fails isWhitespace rest →
  readWhitespace (ws +:+ rest) = String.length ws.
Proof.
  intros Hws Hrest. induction ws as [|c ws IH].
  - simpl. destruct rest as [|r rest]; [done|].
    destruct Hrest as [?|Hr]; [done|]. simpl in *. by rewrite Hr.
  - simpl in Hws. apply andb_true_iff in Hws as [Hc Hws].
    rewrite append_cons. simpl. rewrite Hc. by rewrite IH.
Qed.

Lemma readIdentifier_spec cursor :
  string_forallb isAlphaNumeric (prefix_of_cursor (readIdentifier cursor) cursor) = true
  ∧ (advance (readIdentifier cursor) cursor = ""
     ∨ head_fails isAlphaNumeric (advance (readIdentifier cursor) cursor)).
Proof.
  induction cursor as [|c cursor IH]; simpl; [by split; [|left]|].
  destruct (isAlphaNumeric c) eqn:E; simpl.
  - rewrite E. simpl. apply IH.
  - split; [done|]. by right.
Qed.

Lemma readWhitespace_spec cursor :
  string_forallb isWhitespace (prefix_of_cursor (readWhitespace cursor) cursor) = true
  ∧ (advance (readWhitespace cursor) cursor = ""
     ∨ head_fails isWhitespace (advance (readWhitespace cursor) cursor)).
Proof.
  induction cursor as [|c cursor IH]; simpl; [by split; [|left]|].
  destruct (isWhitespace c) eqn:E; simpl.
  - rewrite E. simpl. apply IH.
  - split; [done|]. by right.
Qed.

(** A keyword of letters is not found at a cursor whose letters stop
    before the keyword does. *)
Lemma Keyword_test_app kw id rest :
  string_forallb isAlphaNumeric kw = true →
  head_fails isAlphaNumeric rest →
  Keyword_test kw (id +:+ rest) = Keyword_test kw id.
Proof.
  unfold Keyword_test. revert id.
  induction kw as [|k kw IH]; intros id Hkw Hrest;
    [by rewrite !strncmp_eq_0|].
  simpl in Hkw. apply andb_true_iff in Hkw as [Hk Hkw].
  destruct id as [|c id].
  - simpl. destruct rest as [|r rest]; [done|]. simpl in Hrest.
    change ("" +:+ String r rest) with (String r rest). simpl.
    destruct (Ascii.eqb_spec r k) as [->|]; [congruence | done].
  - rewrite append_cons. simpl. destruct (Ascii.eqb c k); [by apply IH | done].
Qed.

Lemma skipWhitespace_app ws rest col :
  string_forallb isWhitespace ws = true →
  rest = "" ∨ head_fails isWhitespace rest →
  skipWhitespace (ws +:+ rest, col) = (rest, col + Z.of_nat (String.length ws)).
Proof.
  intros Hws Hrest. unfold skipWhitespace. simpl.
  by rewrite readWhitespace_app, advance_app.
Qed.

Lemma skipWhitespace_spec s col :
  ∃ ws, s = ws +:+ (skipWhitespace (s, col)).1
        ∧ string_forallb isWhitespace ws = true
        ∧ (skipWhitespace (s, col)).2 = col + Z.of_nat (String.length ws).
Proof.
  exists (prefix_of_cursor (readWhitespace s) s). unfold skipWhitespace. simpl.
  split; [by rewrite prefix_advance|].
  split; [apply readWhitespace_spec|].
  f_equal. f_equal. clear col.
  induction s as [|c s IH]; simpl; [done|].
  destruct (isWhitespace c); simpl; [by rewrite <- IH | done].
Qed.

Lemma equalSign_true s col cur :
  equalSign (s, col) = (true, cur) → s = "=" +:+ cur.1 ∧ cur.2 = col + 1.
Proof.
  unfold equalSign. simpl. destruct s as [|c s]; [done|].
  intros [= Hc <-]. apply Ascii.eqb_eq in Hc as ->. done.
Qed.

Lemma equalSign_app rest col :
  equalSign ("=" +:+ rest, col) = (true, (rest, col + 1)).
Proof. done. Qed.

Lemma Keyword_test_same kw rest : Keyword_test kw (kw +:+ rest) = true.
Proof. apply Keyword_test_prefix. by exists rest. Qed.

Local Ltac run_keyword_tests :=
  repeat match goal with
  | |- context [Keyword_test ?kw (?kw +:+ ?r)] =>
      rewrite (Keyword_test_same kw r)
  | |- context [Keyword_test ?kw ?s] =>
      change (Keyword_test kw s) with false
  end.

(** What the three keyword readers accept is what [toString] and the
    keyword table spell. *)
Lemma readArchiveFeature_keyword f rest :
  readArchiveFeature (feature_keyword f +:+ rest)
  = Some (f, String.length (feature_keyword f)).
Proof. unfold readArchiveFeature. by destruct f; simpl; run_keyword_tests. Qed.

Lemma readBlendingMode_toString b s rest :
  toString_BlendingMode b = Some s →
  readBlendingMode (s +:+ rest) = Some (b, String.length s).
Proof.
  unfold readBlendingMode. by destruct b; intros [= <-]; run_keyword_tests.
Qed.

Lemma readShadingModel_toString sh s rest :
  toString_Shading sh = Some s →
  readShadingModel (s +:+ rest) = Some (sh, String.length s).
Proof.
  unfold readShadingModel. by destruct sh; intros [= <-]; run_keyword_tests.
Qed.

Local Ltac keyword_cases H :=
  repeat match type of H with
  | (if Keyword_test ?kw ?s then _ else _) = _ =>
      let E := fresh "E" in
      destruct (Keyword_test kw s) eqn:E;
      [ apply Keyword_test_prefix in E as [rest ->];
        injection H as <- <-
      | ]
  end.

Lemma readArchiveFeature_Some cursor f n :
  readArchiveFeature cursor = Some (f, n) →
  n = String.length (feature_keyword f)
  ∧ cursor = feature_keyword f +:+ advance n cursor.
Proof.
  unfold readArchiveFeature. intros H. keyword_cases H; try done;
    (split; [done|]);
    match goal with
    | |- ?kw +:+ ?r = _ => by rewrite (advance_app kw r)
    end.
Qed.

Lemma readBlendingMode_Some cursor b n :
  readBlendingMode cursor = Some (b, n) →
  ∃ s, toString_BlendingMode b = Some s ∧ n = String.length s
       ∧ cursor = s +:+ advance n cursor.
Proof.
  unfold readBlendingMode. intros H. keyword_cases H; try done;
    match goal with
    | |- ∃ _, _ ∧ _ ∧ ?kw +:+ ?r = _ =>
        exists kw; split; [done|]; split; [done|];
        f_equal; symmetry; exact (advance_app kw r)
    end.
Qed.

Lemma readShadingModel_Some cursor sh n :
  readShadingModel cursor = Some (sh, n) →
  ∃ s, toString_Shading sh = Some s ∧ n = String.length s
       ∧ cursor = s +:+ advance n cursor.
Proof.
  unfold readShadingModel. intros H. keyword_cases H; try done;
    match goal with
    | |- ∃ _, _ ∧ _ ∧ ?kw +:+ ?r = _ =>
        exists kw; split; [done|]; split; [done|];
        f_equal; symmetry; exact (advance_app kw r)
    end.
Qed.

Lemma readIdentifier_length s :
  String.length (prefix_of_cursor (readIdentifier s) s) = readIdentifier s.
Proof.
  induction s as [|c s IH]; simpl; [done|].
  destruct (isAlphaNumeric c); simpl; [by rewrite IH | done].
Qed.

Lemma isWhitespace_not_alnum c : isWhitespace c = true → isAlphaNumeric c = false.
Proof.
  unfold isWhitespace. intros H. apply orb_true_iff in H as [H|H];
    apply Ascii.eqb_eq in H as ->; reflexivity.
Qed.

Lemma head_after_identifier ws rest :
  string_forallb isWhitespace ws = true →
  head_fails isAlphaNumeric (ws +:+ "=" +:+ rest).
Proof.
  destruct ws as [|c ws]; [reflexivity|]. simpl. intros H.
  apply andb_true_iff in H as [H _]. by apply isWhitespace_not_alnum.
Qed.

Lemma overwriteFlag_None fl id v : overwriteFlag fl id v = None ↔ id ∉ fl.*1.
Proof.
  induction fl as [|[k w] fl IH]; simpl.
  - split; [intros _; apply not_elem_of_nil | done].
  - rewrite not_elem_of_cons. destruct (String.eqb_spec k id) as [->|Hne].
    + split; [done | intros [? _]; done].
    + destruct (overwriteFlag fl id v); simpl.
      * split; [done|]. intros [_ H]. by apply IH in H.
      * split; [|done]. intros _. split; [done | by apply IH].
Qed.

Lemma overwriteFlag_Some fl id v fl' :
  overwriteFlag fl id v = Some fl' →
  fl'.*1 = fl.*1 ∧ (id, v) ∈ fl'
  ∧ ∀ k w, k ≠ id → (k, w) ∈ fl' ↔ (k, w) ∈ fl.
Proof.
  revert fl'. induction fl as [|[k w] fl IH]; intros fl'; simpl; [done|].
  destruct (String.eqb_spec k id) as [->|Hne].
  - intros [= <-]. split; [done|]. split; [apply elem_of_cons; by left|].
    intros k' w' Hk. rewrite !elem_of_cons. split; intros [[=]|?]; auto; done.
  - destruct (overwriteFlag fl id v) as [fl0|]; simpl; [|done].
    intros [= <-]. destruct (IH fl0 eq_refl) as (Hkeys & Hin & Hrest).
    split; [rewrite !fmap_cons; by rewrite Hkeys|].
    split; [apply elem_of_cons; by right|].
    intros k' w' Hk. rewrite !elem_of_cons. by rewrite (Hrest k' w' Hk).
Qed.

Section SpecLineFacts.
Variable robin_insert :
  list (string * ArchiveFeature) → string → ArchiveFeature
  → list (string * ArchiveFeature).

Local Abbreviation withFlags material fl :=
  (mkMaterial (mname material) (mpackage material) fl
     (mblendingMode material) (mshadingModel material)).

(** [material.flags[id] = v] leaves one entry for [id], which holds [v],
    and the entries of the other names. *)
Lemma setFlag_entries fl id v :
  (∀ fl k v, robin_insert fl k v ≡ₚ (k, v) :: fl) →
  (id, v) ∈ setFlag robin_insert fl id v
  ∧ (∀ k w, k ≠ id → (k, w) ∈ setFlag robin_insert fl id v ↔ (k, w) ∈ fl)
  ∧ (NoDup fl.*1 → NoDup (setFlag robin_insert fl id v).*1).
Proof.
  intros Hperm. unfold setFlag.
  destruct (overwriteFlag fl id v) as [fl'|] eqn:E.
  - apply overwriteFlag_Some in E as (Hkeys & Hin & Hrest).
    split; [done|]. split; [done|]. by rewrite Hkeys.
  - apply overwriteFlag_None in E.
    split; [rewrite (Hperm fl id v); apply elem_of_cons; by left|].
    split.
    + intros k w Hk. rewrite (Hperm fl id v), elem_of_cons.
      split; [intros [[=]|?]; done | auto].
    + intros Hnd. rewrite (Hperm fl id v). simpl. by apply NoDup_cons.
Qed.

Lemma parseFeatureFlag_app material id ws1 ws2 f rest col :
  id ≠ "" →
  string_forallb isAlphaNumeric id = true →
  string_forallb isWhitespace ws1 = true →
  string_forallb isWhitespace ws2 = true →
  parseFeatureFlag robin_insert material
    (id +:+ ws1 +:+ "=" +:+ ws2 +:+ feature_keyword f +:+ rest, col)
  = inl (withFlags material (setFlag robin_insert (mflags material) id f),
         (rest, col + Z.of_nat (String.length
                    (id +:+ ws1 +:+ "=" +:+ ws2 +:+ feature_keyword f)))).
Proof.
  intros Hne Hid Hws1 Hws2. unfold parseFeatureFlag. cbn [fst snd].
  rewrite readIdentifier_app;
    [|done | right; by apply head_after_identifier].
  destruct (Nat.eqb_spec (String.length id) 0) as [H0|_];
    [by destruct id|].
  rewrite prefix_of_cursor_app, advance_app.
  rewrite skipWhitespace_app; [|done | right; reflexivity].
  rewrite equalSign_app. cbn [negb fst snd].
  rewrite skipWhitespace_app; [|done | right; by destruct f].
  cbn [fst snd]. rewrite readArchiveFeature_keyword, advance_app.
  do 2 f_equal. rewrite !append_length. simpl String.length. f_equal. lia.
Qed.

Lemma parseBlendingMode_app material ws1 ws2 b s rest col :
  toString_BlendingMode b = Some s →
  string_forallb isWhitespace ws1 = true →
  string_forallb isWhitespace ws2 = true →
  parseBlendingMode material (ws1 +:+ "=" +:+ ws2 +:+ s +:+ rest, col)
  = inl (mkMaterial (mname material) (mpackage material) (mflags material)
           b (mshadingModel material),
         (rest, col + Z.of_nat (String.length (ws1 +:+ "=" +:+ ws2 +:+ s)))).
Proof.
  intros Hs Hws1 Hws2. unfold parseBlendingMode. cbn [fst snd].
  rewrite skipWhitespace_app; [|done | right; reflexivity].
  rewrite equalSign_app. cbn [negb fst snd].
  rewrite skipWhitespace_app;
    [|done | right; destruct b; try discriminate Hs; injection Hs as <-; reflexivity].
  cbn [fst snd]. rewrite (readBlendingMode_toString b s rest Hs), advance_app.
  do 2 f_equal. rewrite !append_length. simpl String.length. f_equal. lia.
Qed.

Lemma parseShadingModel_app material ws1 ws2 sh s rest col :
  toString_Shading sh = Some s →
  string_forallb isWhitespace ws1 = true →
  string_forallb isWhitespace ws2 = true →
  parseShadingModel material (ws1 +:+ "=" +:+ ws2 +:+ s +:+ rest, col)
  = inl (mkMaterial (mname material) (mpackage material) (mflags material)
           (mblendingMode material) sh,
         (rest, col + Z.of_nat (String.length (ws1 +:+ "=" +:+ ws2 +:+ s)))).
Proof.
  intros Hs Hws1 Hws2. unfold parseShadingModel. cbn [fst snd].
  rewrite skipWhitespace_app; [|done | right; reflexivity].
  rewrite equalSign_app. cbn [negb fst snd].
  rewrite skipWhitespace_app;
    [|done | right; destruct sh; try discriminate Hs; injection Hs as <-; reflexivity].
  cbn [fst snd]. rewrite (readShadingModel_toString sh s rest Hs), advance_app.
  do 2 f_equal. rewrite !append_length. simpl String.length. f_equal. lia.
Qed.

Lemma skipWhitespace_inv s col s' col' :
  skipWhitespace (s, col) = (s', col') →
  ∃ ws, s = ws +:+ s' ∧ string_forallb isWhitespace ws = true.
Proof.
  intros H. destruct (skipWhitespace_spec s col) as (ws & E & Hws & _).
  rewrite H in E. by exists ws.
Qed.

Lemma parseFeatureFlag_inv material s col m' rest col' :
  parseFeatureFlag robin_insert material (s, col) = inl (m', (rest, col')) →
  ∃ id ws1 ws2 f,
    s = id +:+ ws1 +:+ "=" +:+ ws2 +:+ feature_keyword f +:+ rest
    ∧ id ≠ "" ∧ string_forallb isAlphaNumeric id = true
    ∧ string_forallb isWhitespace ws1 = true
    ∧ string_forallb isWhitespace ws2 = true
    ∧ m' = withFlags material (setFlag robin_insert (mflags material) id f).
Proof.
  unfold parseFeatureFlag. cbn [fst snd].
  destruct (Nat.eqb_spec (readIdentifier s) 0) as [|Hn]; [done|].
  destruct (skipWhitespace _) as [s1 c1] eqn:Hs1.
  apply skipWhitespace_inv in Hs1 as (ws1 & E1 & Hws1).
  destruct (equalSign (s1, c1)) as [eq [s2 c2]] eqn:Heq.
  destruct eq; [|done]. apply equalSign_true in Heq as [E2 _].
  cbn [negb fst snd] in *.
  destruct (skipWhitespace (s2, c2)) as [s3 c3] eqn:Hs3.
  apply skipWhitespace_inv in Hs3 as (ws2 & E3 & Hws2).
  cbn [fst snd].
  destruct (readArchiveFeature s3) as [[f n]|] eqn:Hf; [|done].
  apply readArchiveFeature_Some in Hf as [-> E4].
  intros [= <- <- _].
  exists (prefix_of_cursor (readIdentifier s) s), ws1, ws2, f.
  split; [by rewrite <- E4, <- E3, <- E2, <- E1, prefix_advance|].
  split.
  { intros E. apply Hn. by rewrite <- readIdentifier_length, E. }
  split; [apply readIdentifier_spec|]. done.
Qed.

Lemma parseBlendingMode_inv material s col m' rest col' :
  parseBlendingMode material (s, col) = inl (m', (rest, col')) →
  ∃ ws1 ws2 b v,
    s = ws1 +:+ "=" +:+ ws2 +:+ v +:+ rest
    ∧ string_forallb isWhitespace ws1 = true
    ∧ string_forallb isWhitespace ws2 = true
    ∧ toString_BlendingMode b = Some v
    ∧ m' = mkMaterial (mname material) (mpackage material) (mflags material)
             b (mshadingModel material).
Proof.
  unfold parseBlendingMode.
  destruct (skipWhitespace _) as [s1 c1] eqn:Hs1.
  apply skipWhitespace_inv in Hs1 as (ws1 & E1 & Hws1).
  destruct (equalSign (s1, c1)) as [eq [s2 c2]] eqn:Heq.
  destruct eq; [|done]. apply equalSign_true in Heq as [E2 _].
  cbn [negb fst snd] in *.
  destruct (skipWhitespace (s2, c2)) as [s3 c3] eqn:Hs3.
  apply skipWhitespace_inv in Hs3 as (ws2 & E3 & Hws2).
  cbn [fst snd].
  destruct (readBlendingMode s3) as [[b n]|] eqn:Hb; [|done].
  apply readBlendingMode_Some in Hb as (v & Hv & -> & E4).
  intros [= <- <- _]. exists ws1, ws2, b, v.
  split; [by rewrite <- E4, <- E3, <- E2, <- E1|]. done.
Qed.

Lemma parseShadingModel_inv material s col m' rest col' :
  parseShadingModel material (s, col) = inl (m', (rest, col')) →
  ∃ ws1 ws2 sh v,
    s = ws1 +:+ "=" +:+ ws2 +:+ v +:+ rest
    ∧ string_forallb isWhitespace ws1 = true
    ∧ string_forallb isWhitespace ws2 = true
    ∧ toString_Shading sh = Some v
    ∧ m' = mkMaterial (mname material) (mpackage material) (mflags material)
             (mblendingMode material) sh.
Proof.
  unfold parseShadingModel.
  destruct (skipWhitespace _) as [s1 c1] eqn:Hs1.
  apply skipWhitespace_inv in Hs1 as (ws1 & E1 & Hws1).
  destruct (equalSign (s1, c1)) as [eq [s2 c2]] eqn:Heq.
  destruct eq; [|done]. apply equalSign_true in Heq as [E2 _].
  cbn [negb fst snd] in *.
  destruct (skipWhitespace (s2, c2)) as [s3 c3] eqn:Hs3.
  apply skipWhitespace_inv in Hs3 as (ws2 & E3 & Hws2).
  cbn [fst snd].
  destruct (readShadingModel s3) as [[sh n]|] eqn:Hb; [|done].
  apply readShadingModel_Some in Hb as (v & Hv & -> & E4).
  intros [= <- <- _]. exists ws1, ws2, sh, v.
  split; [by rewrite <- E4, <- E3, <- E2, <- E1|]. done.
Qed.

(** A line of letters that is not one of the two keywords starts with
    neither of them once a character that is no letter follows. *)
Lemma isSkipped_identifier id rest :
  id ≠ "" → string_forallb isAlphaNumeric id = true →
  isSkipped (id +:+ rest) = false.
Proof.
  destruct id as [|c id]; [done|]. intros _ H. simpl in H.
  apply andb_true_iff in H as [H _]. rewrite append_cons. simpl.
  destruct (Ascii.eqb_spec c "#") as [->|]; [done | done].
Qed.

(** X6: a line [id ws = ws keyword], with [id] a non-empty run of letters,
    digits and underscores that starts with neither [BlendingMode] nor
    [ShadingModel], blanks and tabs around the equal sign, and one of the
    keywords unsupported, optional and required, is accepted when nothing
    follows the keyword: the line counter advances and the flag list of
    the current material then holds the value under [id], once, with the
    entries of the other names as before.  Any character after the
    keyword, a blank included, makes the line a syntax error at the
    column of that character. *)
Theorem flag_line_accepted a material id ws1 ws2 f rest :
  (∀ fl k v, robin_insert fl k v ≡ₚ (k, v) :: fl) →
  wMaterialIndex a > -1 →
  wMaterials a !! Z.to_nat (wMaterialIndex a) = Some material →
  id ≠ "" →
  string_forallb isAlphaNumeric id = true →
  Keyword_test "BlendingMode" id = false →
  Keyword_test "ShadingModel" id = false →
  string_forallb isWhitespace ws1 = true →
  string_forallb isWhitespace ws2 = true →
  ∃ flags',
    addSpecLine robin_insert a
      (id +:+ ws1 +:+ "=" +:+ ws2 +:+ feature_keyword f +:+ rest)
    = match rest with
      | EmptyString =>
          Accepted (mkWritable (wLineNumber a + 1) (wMaterialIndex a)
                      (<[Z.to_nat (wMaterialIndex a) := withFlags material flags']>
                         (wMaterials a)))
      | String _ _ =>
          SyntaxError (mname material) (wLineNumber a)
            (1 + Z.of_nat (String.length
                   (id +:+ ws1 +:+ "=" +:+ ws2 +:+ feature_keyword f)))
            "unexpected trailing character"
      end
    ∧ (id, f) ∈ flags'
    ∧ (∀ k w, k ≠ id → (k, w) ∈ flags' ↔ (k, w) ∈ mflags material)
    ∧ (NoDup (mflags material).*1 → NoDup flags'.*1).
Proof.
  intros Hperm Hidx Hmat Hne Hid HB HS Hws1 Hws2.
  exists (setFlag robin_insert (mflags material) id f).
  split; [|by apply setFlag_entries].
  unfold addSpecLine. rewrite decide_True by done. rewrite Hmat.
  rewrite isSkipped_identifier by done.
  rewrite !Keyword_test_app, HB, HS
    by (done || by apply head_after_identifier).
  rewrite parseFeatureFlag_app by done.
  cbn [fst snd]. by destruct rest.
Qed.

(** X7: a line [BlendingMode ws = ws mode], where [mode] is what
    [toString] prints for a blending mode, sets the blending mode of the
    current material to that mode and nothing else; any character after
    the mode is a syntax error at its column. *)
Theorem blending_line_accepted a material ws1 ws2 b v rest :
  wMaterialIndex a > -1 →
  wMaterials a !! Z.to_nat (wMaterialIndex a) = Some material →
  toString_BlendingMode b = Some v →
  string_forallb isWhitespace ws1 = true →
  string_forallb isWhitespace ws2 = true →
  addSpecLine robin_insert a
    ("BlendingMode" +:+ ws1 +:+ "=" +:+ ws2 +:+ v +:+ rest)
  = match rest with
    | EmptyString =>
        Accepted (mkWritable (wLineNumber a + 1) (wMaterialIndex a)
                    (<[Z.to_nat (wMaterialIndex a) :=
                         mkMaterial (mname material) (mpackage material)
                           (mflags material) b (mshadingModel material)]>
                       (wMaterials a)))
    | String _ _ =>
        SyntaxError (mname material) (wLineNumber a)
          (1 + Z.of_nat (String.length
                 ("BlendingMode" +:+ ws1 +:+ "=" +:+ ws2 +:+ v)))
          "unexpected trailing character"
    end.
Proof.
  intros Hidx Hmat Hv Hws1 Hws2.
  unfold addSpecLine. rewrite decide_True by done. rewrite Hmat.
  change (isSkipped _) with false. cbv iota.
  rewrite Keyword_test_same, advance_app.
  rewrite (parseBlendingMode_app material ws1 ws2 b v rest _ Hv Hws1 Hws2).
  cbn [fst snd]. rewrite (append_length "BlendingMode").
  destruct rest; [done|]. do 2 f_equal. lia.
Qed.

(** X8: a line [ShadingModel ws = ws model], where [model] is what
    [toString] prints for a shading model, sets the shading model of the
    current material to that model and nothing else; any character after
    the model is a syntax error at its column. *)
Theorem shading_line_accepted a material ws1 ws2 sh v rest :
  wMaterialIndex a > -1 →
  wMaterials a !! Z.to_nat (wMaterialIndex a) = Some material →
  toString_Shading sh = Some v →
  string_forallb isWhitespace ws1 = true →
  string_forallb isWhitespace ws2 = true →
  addSpecLine robin_insert a
    ("ShadingModel" +:+ ws1 +:+ "=" +:+ ws2 +:+ v +:+ rest)
  = match rest with
    | EmptyString =>
        Accepted (mkWritable (wLineNumber a + 1) (wMaterialIndex a)
                    (<[Z.to_nat (wMaterialIndex a) :=
                         mkMaterial (mname material) (mpackage material)
                           (mflags material) (mblendingMode material) sh]>
                       (wMaterials a)))
    | String _ _ =>
        SyntaxError (mname material) (wLineNumber a)
          (1 + Z.of_nat (String.length
                 ("ShadingModel" +:+ ws1 +:+ "=" +:+ ws2 +:+ v)))
          "unexpected trailing character"
    end.
Proof.
  intros Hidx Hmat Hv Hws1 Hws2.
  unfold addSpecLine. rewrite decide_True by done. rewrite Hmat.
  change (isSkipped _) with false. cbv iota.
  change (Keyword_test "BlendingMode" _) with false. cbv iota.
  rewrite Keyword_test_same, advance_app.
  rewrite (parseShadingModel_app material ws1 ws2 sh v rest _ Hv Hws1 Hws2).
  cbn [fst snd]. rewrite (append_length "ShadingModel").
  destruct rest; [done|]. do 2 f_equal. lia.
Qed.

(** X9: the lines that [addSpecLine] accepts are the empty line, the lines
    that start with the number sign, and the lines
    [name ws = ws value] in which nothing follows the value;
    [name] is [BlendingMode] with the printed name of a blending mode as
    value, [ShadingModel] with the printed name of a shading model, or a
    run of letters, digits and underscores with one of the three feature
    keywords.  The line counter advances by one, the index of the current
    material stays, and no material but the current one changes. *)
Theorem accepted_lines_shape a line a' :
  addSpecLine robin_insert a line = Accepted a' →
  ∃ material,
    wMaterials a !! Z.to_nat (wMaterialIndex a) = Some material
    ∧ wLineNumber a' = wLineNumber a + 1
    ∧ wMaterialIndex a' = wMaterialIndex a
    ∧ ((isSkipped line = true ∧ wMaterials a' = wMaterials a)
       ∨ ∃ lhs ws1 ws2 value material',
           line = lhs +:+ ws1 +:+ "=" +:+ ws2 +:+ value
           ∧ string_forallb isWhitespace ws1 = true
           ∧ string_forallb isWhitespace ws2 = true
           ∧ wMaterials a'
             = <[Z.to_nat (wMaterialIndex a) := material']> (wMaterials a)
           ∧ ((lhs = "BlendingMode"
               ∧ ∃ b, toString_BlendingMode b = Some value
                      ∧ material' = mkMaterial (mname material)
                          (mpackage material) (mflags material) b
                          (mshadingModel material))
              ∨ (lhs = "ShadingModel"
                 ∧ ∃ sh, toString_Shading sh = Some value
                         ∧ material' = mkMaterial (mname material)
                             (mpackage material) (mflags material)
                             (mblendingMode material) sh)
              ∨ (lhs ≠ "" ∧ string_forallb isAlphaNumeric lhs = true
                 ∧ ∃ f, value = feature_keyword f
                        ∧ material' = withFlags material
                            (setFlag robin_insert (mflags material) lhs f)))).
Proof.
  unfold addSpecLine. destruct (decide (wMaterialIndex a > -1)); [|done].
  destruct (wMaterials a !! Z.to_nat (wMaterialIndex a)) as [material|];
    [|done].
  intros H. exists material. split; [done|].
  destruct (isSkipped line) eqn:Hskip.
  { injection H as <-. split; [done|]. split; [done|]. by left. }
  destruct (Keyword_test "BlendingMode" line) eqn:HB;
    [|destruct (Keyword_test "ShadingModel" line) eqn:HS].
  - apply Keyword_test_prefix in HB as [r ->]. rewrite advance_app in H.
    destruct (parseBlendingMode material _) as [[m' [s' c']]|[??]] eqn:Hp;
      [|done].
    cbn [fst snd] in H. destruct s'; [|done]. injection H as <-.
    apply parseBlendingMode_inv in Hp as (ws1 & ws2 & b & v & -> & ? & ? & ? & ->).
    split; [done|]. split; [done|]. right.
    exists "BlendingMode", ws1, ws2, v. eexists.
    split; [by rewrite append_nil_r|]. split; [done|]. split; [done|].
    split; [done|]. left. split; [done|]. by exists b.
  - apply Keyword_test_prefix in HS as [r ->]. rewrite advance_app in H.
    destruct (parseShadingModel material _) as [[m' [s' c']]|[??]] eqn:Hp;
      [|done].
    cbn [fst snd] in H. destruct s'; [|done]. injection H as <-.
    apply parseShadingModel_inv in Hp as (ws1 & ws2 & sh & v & -> & ? & ? & ? & ->).
    split; [done|]. split; [done|]. right.
    exists "ShadingModel", ws1, ws2, v. eexists.
    split; [by rewrite append_nil_r|]. split; [done|]. split; [done|].
    split; [done|]. right. left. split; [done|]. by exists sh.
  - destruct (parseFeatureFlag robin_insert material _)
      as [[m' [s' c']]|[??]] eqn:Hp; [|done].
    cbn [fst snd] in H. destruct s'; [|done]. injection H as <-.
    apply parseFeatureFlag_inv in Hp
      as (id & ws1 & ws2 & f & -> & ? & ? & ? & ? & ->).
    split; [done|]. split; [done|]. right.
    exists id, ws1, ws2, (feature_keyword f). eexists.
    split; [by rewrite append_nil_r|]. split; [done|]. split; [done|].
    split; [done|]. right. right. split; [done|]. split; [done|]. by exists f.
Qed.

(** X10: a line whose first character is neither a letter, a digit, an
    underscore nor the number sign is refused with "expected identifier"
    at column 1; so is a blank line of spaces and a comment that is
    indented. *)
Theorem indented_line_refused a material c rest :
  wMaterialIndex a > -1 →
  wMaterials a !! Z.to_nat (wMaterialIndex a) = Some material →
  isAlphaNumeric c = false →
  c ≠ "#"%char →
  addSpecLine robin_insert a (String c rest)
  = SyntaxError (mname material) (wLineNumber a) 1 "expected identifier".
Proof.
  intros Hidx Hmat Hc Hhash.
  unfold addSpecLine. rewrite decide_True by done. rewrite Hmat.
  simpl isSkipped. destruct (Ascii.eqb_spec c "#"); [done|].
  assert (∀ k kw, isAlphaNumeric k = true →
            Keyword_test (String k kw) (String c rest) = false) as Hkw.
  { intros k kw Hk. unfold Keyword_test. simpl.
    destruct (Ascii.eqb_spec c k) as [->|]; [congruence | done]. }
  rewrite !Hkw by done.
  unfold parseFeatureFlag. simpl. by rewrite Hc.
Qed.

(** X11: no flag can have a name that starts with [BlendingMode] or
    [ShadingModel]: a line that starts with one of the two keywords and
    goes on with a character that is neither a blank, a tab nor the equal
    sign is refused with "expected equal sign" at column 14, also when
    the line is a well-formed flag line otherwise. *)
Theorem keyword_prefixed_flag_refused a material c rest :
  wMaterialIndex a > -1 →
  wMaterials a !! Z.to_nat (wMaterialIndex a) = Some material →
  isWhitespace c = false →
  c ≠ "="%char →
  addSpecLine robin_insert a ("BlendingMode" +:+ String c rest)
  = SyntaxError (mname material) (wLineNumber a) 14 "expected equal sign"
  ∧ addSpecLine robin_insert a ("ShadingModel" +:+ String c rest)
    = SyntaxError (mname material) (wLineNumber a) 14 "expected equal sign".
Proof.
  intros Hidx Hmat Hc Heq.
  split; unfold addSpecLine; (rewrite decide_True by done); rewrite Hmat;
    change (isSkipped _) with false; cbv iota;
    [|change (Keyword_test "BlendingMode" _) with false; cbv iota];
    rewrite Keyword_test_same, advance_app;
    unfold parseBlendingMode, parseShadingModel, skipWhitespace; simpl;
    rewrite Hc; simpl;
    by destruct (Ascii.eqb_spec c "=").
Qed.

End SpecLineFacts.


Lemma flag_line_accepted_witness :
  ∃ flags',
    addSpecLine insert_front writer_AB "normalMap = required"
    = Accepted (mkWritable 2 1
        [material_A;
         mkMaterial "B" [9] flags' INVALID_BLENDING INVALID_SHADING_MODEL])
    ∧ ("normalMap", REQUIRED) ∈ flags'
    ∧ (∀ k w, k ≠ "normalMap" → (k, w) ∈ flags' ↔ (k, w) ∈ mflags material_B)
    ∧ (NoDup (mflags material_B).*1 → NoDup flags'.*1).
Proof.
  apply (flag_line_accepted insert_front writer_AB material_B
           "normalMap" " " " " REQUIRED "").
  - intros fl k v. reflexivity.
  - reflexivity.
  - reflexivity.
  - discriminate.
  - reflexivity.
  - reflexivity.
  - reflexivity.
  - reflexivity.
  - reflexivity.
Defined.

Lemma blending_line_accepted_witness :
  addSpecLine insert_front writer_AB "BlendingMode=fade"
  = Accepted (mkWritable 2 1
      [material_A; mkMaterial "B" [9] [] FADE INVALID_SHADING_MODEL]).
Proof.
  apply (blending_line_accepted insert_front writer_AB material_B
           "" "" FADE "fade" ""); reflexivity.
Defined.

Lemma shading_line_accepted_witness :
  addSpecLine insert_front writer_AB "ShadingModel = lit!"
  = SyntaxError "B" 1 19 "unexpected trailing character".
Proof.
  apply (shading_line_accepted insert_front writer_AB material_B
           " " " " LIT "lit" "!"); reflexivity.
Defined.

Lemma accepted_lines_shape_witness :
  ∃ material,
    wMaterials writer_AB !! Z.to_nat (wMaterialIndex writer_AB) = Some material
    ∧ 2 = wLineNumber writer_AB + 1
    ∧ 1 = wMaterialIndex writer_AB
    ∧ ((isSkipped "normalMap = required" = true
        ∧ [material_A;
           mkMaterial "B" [9] [("normalMap", REQUIRED)]
             INVALID_BLENDING INVALID_SHADING_MODEL] = wMaterials writer_AB)
       ∨ ∃ lhs ws1 ws2 value material',
           "normalMap = required" = lhs +:+ ws1 +:+ "=" +:+ ws2 +:+ value
           ∧ string_forallb isWhitespace ws1 = true
           ∧ string_forallb isWhitespace ws2 = true
           ∧ [material_A;
              mkMaterial "B" [9] [("normalMap", REQUIRED)]
                INVALID_BLENDING INVALID_SHADING_MODEL]
             = <[Z.to_nat (wMaterialIndex writer_AB) := material']>
                 (wMaterials writer_AB)
           ∧ ((lhs = "BlendingMode"
               ∧ ∃ b, toString_BlendingMode b = Some value
                      ∧ material' = mkMaterial (mname material)
                          (mpackage material) (mflags material) b
                          (mshadingModel material))
              ∨ (lhs = "ShadingModel"
                 ∧ ∃ sh, toString_Shading sh = Some value
                         ∧ material' = mkMaterial (mname material)
                             (mpackage material) (mflags material)
                             (mblendingMode material) sh)
              ∨ (lhs ≠ "" ∧ string_forallb isAlphaNumeric lhs = true
                 ∧ ∃ f, value = feature_keyword f
                        ∧ material' = mkMaterial (mname material)
                            (mpackage material)
                            (setFlag insert_front (mflags material) lhs f)
                            (mblendingMode material) (mshadingModel material)))).
Proof.
  apply (accepted_lines_shape insert_front writer_AB "normalMap = required"
           (mkWritable 2 1
              [material_A;
               mkMaterial "B" [9] [("normalMap", REQUIRED)]
                 INVALID_BLENDING INVALID_SHADING_MODEL])).
  reflexivity.
Defined.

Lemma indented_line_refused_witness :
  addSpecLine insert_front writer_AB " # a comment"
  = SyntaxError "B" 1 1 "expected identifier".
Proof.
  apply (indented_line_refused insert_front writer_AB material_B
           " " "# a comment"); [reflexivity | reflexivity | reflexivity |].
  discriminate.
Defined.

Lemma keyword_prefixed_flag_refused_witness :
  addSpecLine insert_front writer_AB "BlendingModes = required"
  = SyntaxError "B" 1 14 "expected equal sign"
  ∧ addSpecLine insert_front writer_AB "ShadingModels = required"
    = SyntaxError "B" 1 14 "expected equal sign".
Proof.
  apply (keyword_prefixed_flag_refused insert_front writer_AB material_B
           "s" " = required"); [reflexivity | reflexivity | reflexivity |].
  discriminate.
Defined.

End SpecFileFacts.

(** * The archive, written and read back *)

Module ArchiveRoundTrip.
Import Uberz UberzMore BytesFacts ArchiveFacts.

Lemma len_app {A} (a b : list A) : len (a ++ b) = len a + len b.
Proof. unfold len. rewrite length_app. lia. Qed.

Lemma len_nonneg {A} (a : list A) : 0 ≤ len a.
Proof. unfold len. lia. Qed.

(** A read inside one part of a buffer sees that part only. *)
Lemma read_bytes_middle (pre mid post : list Z) off n :
  0 ≤ off → off + Z.of_nat n ≤ len mid →
  read_bytes (pre ++ mid ++ post) (len pre + off) n
  = Done (take n (drop (Z.to_nat off) mid)).
Proof.
  intros Hoff Hn. unfold read_bytes, len in *.
  rewrite decide_True by (rewrite !length_app; lia).
  f_equal.
  replace (Z.to_nat (Z.of_nat (length pre) + off))
    with (length pre + Z.to_nat off)%nat by lia.
  rewrite drop_app_add, drop_app_le by lia.
  apply take_app_le. rewrite length_drop. lia.
Qed.

Lemma read_uint_middle (pre mid post : list Z) off n :
  0 ≤ off → off + Z.of_nat n ≤ len mid →
  read_uint (pre ++ mid ++ post) (len pre + off) n = read_uint mid off n.
Proof.
  intros Hoff Hn. unfold read_uint.
  rewrite read_bytes_middle by done.
  unfold read_bytes. rewrite decide_True by lia. done.
Qed.

Lemma concat_records_split {A} (f : A → list Z) l i x :
  l !! i = Some x →
  concat (map f l)
  = concat (map f (take i l)) ++ f x ++ concat (map f (drop (S i) l)).
Proof.
  intros Hi. rewrite <- (take_drop_middle _ _ _ Hi) at 1.
  by rewrite map_app, concat_app.
Qed.

Lemma len_concat_const {A} (f : A → list Z) L l :
  (∀ x, len (f x) = L) → len (concat (map f l)) = L * len l.
Proof.
  intros Hf. induction l as [|x l IH]; simpl.
  - unfold len. simpl. lia.
  - rewrite len_app, Hf, IH. unfold len. simpl. lia.
Qed.

(** A field of the [i]-th of a run of records of [L] bytes each. *)
Lemma read_record {A} (f : A → list Z) L (pre post : list Z) l i x off n :
  (∀ x, len (f x) = L) → l !! i = Some x →
  0 ≤ off → off + Z.of_nat n ≤ L →
  read_uint (pre ++ concat (map f l) ++ post) (len pre + L * Z.of_nat i + off) n
  = read_uint (f x) off n.
Proof.
  intros Hf Hi Hoff Hn.
  rewrite (concat_records_split f l i x Hi).
  rewrite <- !app_assoc, (app_assoc pre).
  replace (len pre + L * Z.of_nat i + off)
    with (len (pre ++ concat (map f (take i l))) + off).
  - apply read_uint_middle; [done | by rewrite Hf].
  - rewrite len_app, (len_concat_const f L) by done.
    unfold len. rewrite length_take. apply lookup_lt_Some in Hi. lia.
Qed.

(** *** Names *)

Lemma ascii_of_byte_of_ascii c : ascii_of_byte (byte_of_ascii c) = c.
Proof.
  unfold ascii_of_byte, byte_of_ascii.
  pose proof (N_ascii_bounded c) as Hb.
  rewrite Z.mod_small by lia.
  rewrite N2Z.id. apply ascii_N_embedding.
Qed.

Lemma byte_of_ascii_zero c : byte_of_ascii c = 0 → c = Ascii.zero.
Proof.
  unfold byte_of_ascii. intros H.
  rewrite <- (ascii_N_embedding c).
  replace (N_of_ascii c) with 0%N by lia. done.
Qed.

(** The terminated copy of a name reads back as the name, whatever
    follows it. *)
Lemma cstr_of_c_str nm post :
  nul_free nm = true → cstr_of (c_str nm ++ post) = Done nm.
Proof.
  unfold c_str. induction nm as [|c nm IH]; intros Hnm; simpl.
  - done.
  - unfold nul_free in Hnm. simpl in Hnm.
    apply andb_true_iff in Hnm as [Hc Hnm].
    rewrite decide_False.
    + rewrite IH by done. simpl. by rewrite ascii_of_byte_of_ascii.
    + intros H0. apply byte_of_ascii_zero in H0 as ->. done.
Qed.

Lemma read_cstr_at pre nm post off :
  off = len pre → nul_free nm = true →
  read_cstr (pre ++ c_str nm ++ post) off = Done nm.
Proof.
  intros -> Hnm. unfold read_cstr, len.
  rewrite decide_True by (rewrite !length_app; lia).
  rewrite Nat2Z.id, drop_app_length. by apply cstr_of_c_str.
Qed.

(** *** Sizes without wrap-around *)

Lemma fold_wrap_len {A B} (f : A → Z) (g : A → list B) l acc :
  (∀ x, f x = len (g x)) → 0 ≤ acc →
  acc + len (concat (map g l)) < 2 ^ 64 →
  fold_left (fun a x => wrap64 (a + f x)) l acc = acc + len (concat (map g l)).
Proof.
  intros Hf. revert acc. induction l as [|x l IH]; intros acc Hacc Hlt; simpl.
  - unfold len. simpl. lia.
  - simpl in Hlt. rewrite len_app in Hlt.
    pose proof (len_nonneg (g x)). pose proof (len_nonneg (concat (map g l))).
    rewrite wrap64_small by (rewrite Hf; lia).
    rewrite IH by (rewrite Hf; lia).
    rewrite len_app, Hf. lia.
Qed.

Lemma fold_left_concat {A B} (g : Z → B → Z) (h : A → list B) l acc :
  fold_left (fun a m => fold_left g (h m) a) l acc
  = fold_left g (concat (map h l)) acc.
Proof.
  revert acc. induction l as [|m l IH]; intros acc; simpl; [done|].
  by rewrite fold_left_app, IH.
Qed.

Lemma c_str_len s : len (c_str s) = strlen s + 1.
Proof.
  unfold c_str, strlen. rewrite len_app.
  assert (len (bytes_of_string s) = Z.of_nat (String.length s)) as ->.
  { unfold len. f_equal. induction s as [|c s IH]; simpl; [done | by rewrite IH]. }
  done.
Qed.

Lemma allFlags_cons mat mats : allFlags (mat :: mats) = mflags mat ++ allFlags mats.
Proof. done. Qed.

Lemma buildFlags_length pairs no cc :
  length (buildFlags pairs no cc) = length pairs.
Proof.
  revert cc. induction pairs as [|e pairs IH]; intros cc; simpl; [done|].
  by rewrite IH.
Qed.

(** The records the two filling loops of [serialize] produce, when no
    size wraps around. *)
Lemma buildSpecs_lookup mats flo fmo fc i mat :
  mats !! i = Some mat →
  0 ≤ flo → 0 ≤ fmo → 0 ≤ fc →
  flo + 16 * (fc + len (allFlags mats)) < 2 ^ 64 →
  fmo + len (concat (map mpackage mats)) < 2 ^ 64 →
  buildSpecs mats flo fmo fc !! i
  = Some (mkRawSpec (mshadingModel mat) (mblendingMode mat)
            (len (mflags mat))
            (flo + 16 * (fc + len (allFlags (take i mats))))
            (len (mpackage mat))
            (fmo + len (concat (map mpackage (take i mats))))).
Proof.
  revert i fmo fc.
  induction mats as [|m mats IH]; intros i fmo fc Hi Hflo Hfmo Hfc Hf Hp;
    [done|].
  rewrite allFlags_cons, len_app in Hf. simpl in Hp. rewrite len_app in Hp.
  pose proof (len_nonneg (mflags m)). pose proof (len_nonneg (allFlags mats)).
  pose proof (len_nonneg (mpackage m)).
  pose proof (len_nonneg (concat (map mpackage mats))).
  destruct i as [|i]; simpl in Hi |- *.
  - injection Hi as ->. f_equal. unfold sizeof_ArchiveFlag.
    rewrite !wrap64_small by lia.
    f_equal; unfold len; simpl; lia.
  - rewrite !wrap64_small by lia.
    rewrite (IH i _ _ Hi) by lia.
    f_equal. rewrite allFlags_cons, !len_app. f_equal; lia.
Qed.

Lemma buildFlags_lookup pairs no cc k e :
  pairs !! k = Some e →
  0 ≤ no → 0 ≤ cc →
  no + cc + len (concat (map (fun e => c_str (fst e)) pairs)) < 2 ^ 64 →
  buildFlags pairs no cc !! k
  = Some (mkRawFlag
            (no + cc + len (concat (map (fun e => c_str (fst e)) (take k pairs))))
            (snd e)).
Proof.
  revert k cc.
  induction pairs as [|p pairs IH]; intros k cc Hk Hno Hcc Hlt; [done|].
  simpl in Hlt. rewrite len_app, c_str_len in Hlt.
  pose proof (len_nonneg (concat (map (fun e => c_str (fst e)) pairs))).
  assert (0 ≤ strlen (fst p)) by (unfold strlen; lia).
  destruct k as [|k]; simpl in Hk |- *.
  - injection Hk as ->. rewrite wrap64_small by lia.
    do 2 f_equal. unfold len. simpl. lia.
  - rewrite wrap64_small by lia.
    rewrite (IH k _ Hk) by lia.
    do 2 f_equal. rewrite len_app, c_str_len. lia.
Qed.

Section Layout.
Variable shading_code : Shading → Z.
Variable blending_code : BlendingMode → Z.
Variable feature_code : ArchiveFeature → Z.
Hypothesis shading_range : ∀ s, 0 ≤ shading_code s < 2 ^ 32.
Hypothesis blending_range : ∀ b, 0 ≤ blending_code b < 2 ^ 32.
Hypothesis feature_range : ∀ f, 0 ≤ feature_code f < 2 ^ 64.

Local Abbreviation bytes_of_RawSpec := (bytes_of_RawSpec shading_code blending_code).
Local Abbreviation bytes_of_RawFlag := (bytes_of_RawFlag feature_code).
Local Abbreviation outputBuf := (outputBuf shading_code blending_code feature_code).
Local Abbreviation readableFlag_of := (readableFlag_of feature_code).
Local Abbreviation readableSpec_of :=
  (readableSpec_of shading_code blending_code feature_code).

Lemma bytes_of_RawSpec_len s : len (bytes_of_RawSpec s) = 40.
Proof. unfold len. by rewrite bytes_of_RawSpec_length. Qed.

Lemma bytes_of_RawFlag_len f : len (bytes_of_RawFlag f) = 16.
Proof.
  unfold len, Uberz.bytes_of_RawFlag. by rewrite length_app, !le_bytes_length.
Qed.

Lemma outputBuf_len mats :
  len (outputBuf mats)
  = 24 + 40 * len mats + 16 * len (allFlags mats) + len (flagNames mats)
    + len (concat (map mpackage mats)).
Proof.
  unfold Uberz.outputBuf. rewrite !len_app.
  rewrite (len_concat_const bytes_of_RawSpec 40) by apply bytes_of_RawSpec_len.
  rewrite (len_concat_const bytes_of_RawFlag 16) by apply bytes_of_RawFlag_len.
  unfold len at 1. rewrite bytes_of_RawArchive_length.
  unfold len at 1 2. rewrite buildSpecs_length, buildFlags_length.
  unfold len. lia.
Qed.

(** The three offsets of [serialize], when the size of the buffer fits
    [size_t]. *)
Lemma offsets_plain mats :
  len (outputBuf mats) < 2 ^ 64 →
  flaglistOffset_of mats = 24 + 40 * len mats
  ∧ nameOffset_of mats = 24 + 40 * len mats + 16 * len (allFlags mats)
  ∧ filamatOffset_of mats
    = 24 + 40 * len mats + 16 * len (allFlags mats) + len (flagNames mats).
Proof.
  rewrite outputBuf_len. intros Hlt.
  pose proof (len_nonneg mats). pose proof (len_nonneg (allFlags mats)).
  pose proof (len_nonneg (flagNames mats)).
  pose proof (len_nonneg (concat (map mpackage mats))).
  assert (Hflo : flaglistOffset_of mats = 24 + 40 * len mats).
  { unfold flaglistOffset_of.
    rewrite (fold_wrap_len (fun _ => sizeof_ArchiveSpec)
               (fun _ => replicate 40 0)); try done.
    - by rewrite (len_concat_const _ 40).
    - rewrite (len_concat_const _ 40) by done. unfold sizeof_ReadableArchive. lia. }
  assert (Hno : nameOffset_of mats
               = 24 + 40 * len mats + 16 * len (allFlags mats)).
  { unfold nameOffset_of. rewrite Hflo.
    rewrite (fold_left_concat
               (fun bc (_ : string * ArchiveFeature) =>
                  wrap64 (bc + sizeof_ArchiveFlag)) mflags).
    fold (allFlags mats).
    rewrite (fold_wrap_len (fun _ => sizeof_ArchiveFlag)
               (fun _ => replicate 16 0)); try done.
    - by rewrite (len_concat_const _ 16).
    - lia.
    - rewrite (len_concat_const _ 16) by done. lia. }
  split; [done|]. split; [done|].
  unfold filamatOffset_of. rewrite Hno.
  rewrite (fold_left_concat
             (fun bc (entry : string * ArchiveFeature) =>
                wrap64 (bc + (strlen (fst entry) + 1))) mflags).
  fold (allFlags mats).
  rewrite (fold_wrap_len (fun entry => strlen (fst entry) + 1)
             (fun entry => c_str (fst entry))).
  - done.
  - intros x. by rewrite c_str_len.
  - lia.
  - fold (flagNames mats). lia.
Qed.

(** The fields of one spec record and of one flag record. *)
Lemma read_RawSpec_fields s :
  read_uint (bytes_of_RawSpec s) 0 4 = Done (shading_code (rawShadingModel s))
  ∧ read_uint (bytes_of_RawSpec s) 4 4 = Done (blending_code (rawBlendingMode s))
  ∧ read_uint (bytes_of_RawSpec s) 8 8 = Done (wrap64 (flagsCount s))
  ∧ read_uint (bytes_of_RawSpec s) 16 8 = Done (wrap64 (flagsOffset s))
  ∧ read_uint (bytes_of_RawSpec s) 24 8 = Done (wrap64 (packageByteCount s))
  ∧ read_uint (bytes_of_RawSpec s) 32 8 = Done (wrap64 (packageOffset s)).
Proof.
  unfold Uberz.bytes_of_RawSpec.
  set (f1 := le_bytes 4 _). set (f2 := le_bytes 4 _).
  set (f3 := le_bytes 8 _). set (f4 := le_bytes 8 _).
  set (f5 := le_bytes 8 _). set (f6 := le_bytes 8 _).
  assert (L1 : len f1 = 4) by (unfold len, f1; by rewrite le_bytes_length).
  assert (L2 : len f2 = 4) by (unfold len, f2; by rewrite le_bytes_length).
  assert (L3 : len f3 = 8) by (unfold len, f3; by rewrite le_bytes_length).
  assert (L4 : len f4 = 8) by (unfold len, f4; by rewrite le_bytes_length).
  assert (L5 : len f5 = 8) by (unfold len, f5; by rewrite le_bytes_length).
  split; [|split; [|split; [|split; [|split]]]].
  - etransitivity; [apply (read_uint_field [] _ 4 _ 0); done|].
    f_equal. apply Z.mod_small, shading_range.
  - etransitivity; [apply (read_uint_field f1 _ 4 _ 4); by rewrite L1|].
    f_equal. apply Z.mod_small, blending_range.
  - rewrite (app_assoc f1 f2).
    apply (read_uint_field (f1 ++ f2) _ 8 _ 8). rewrite len_app. lia.
  - rewrite (app_assoc f1 f2), (app_assoc (f1 ++ f2) f3).
    apply (read_uint_field ((f1 ++ f2) ++ f3) _ 8 _ 16). rewrite !len_app. lia.
  - rewrite (app_assoc f1 f2), (app_assoc (f1 ++ f2) f3),
      (app_assoc ((f1 ++ f2) ++ f3) f4).
    apply (read_uint_field (((f1 ++ f2) ++ f3) ++ f4) _ 8 _ 24).
    rewrite !len_app. lia.
  - rewrite (app_assoc f1 f2), (app_assoc (f1 ++ f2) f3),
      (app_assoc ((f1 ++ f2) ++ f3) f4),
      (app_assoc (((f1 ++ f2) ++ f3) ++ f4) f5).
    rewrite <- (app_nil_r f6).
    apply (read_uint_field ((((f1 ++ f2) ++ f3) ++ f4) ++ f5) [] 8 _ 32).
    rewrite !len_app. lia.
Qed.

Lemma read_RawFlag_fields f :
  read_uint (bytes_of_RawFlag f) 0 8 = Done (wrap64 (nameOffset f))
  ∧ read_uint (bytes_of_RawFlag f) 8 8 = Done (feature_code (rawValue f)).
Proof.
  unfold Uberz.bytes_of_RawFlag. split.
  - apply (read_uint_field [] _ 8 _ 0). done.
  - rewrite <- (app_nil_r (le_bytes 8 (feature_code _))).
    etransitivity;
      [apply (read_uint_field (le_bytes 8 _) [] 8 _ 8);
       unfold len; by rewrite le_bytes_length|].
    f_equal. apply Z.mod_small, feature_range.
Qed.

Section Buffer.
Variable mats : list Material.
Hypothesis fits : len (outputBuf mats) < 2 ^ 64.
Hypothesis names_nul_free :
  Forall (fun entry => nul_free (fst entry) = true) (allFlags mats).

Lemma read_spec_field i mat off n :
  mats !! i = Some mat →
  0 ≤ off → off + Z.of_nat n ≤ 40 →
  read_uint (outputBuf mats) (24 + 40 * Z.of_nat i + off) n
  = read_uint
      (bytes_of_RawSpec
         (mkRawSpec (mshadingModel mat) (mblendingMode mat)
            (len (mflags mat))
            (24 + 40 * len mats + 16 * len (allFlags (take i mats)))
            (len (mpackage mat))
            (24 + 40 * len mats + 16 * len (allFlags mats) + len (flagNames mats)
             + len (concat (map mpackage (take i mats))))))
      off n.
Proof.
  intros Hi Hoff Hn.
  destruct (offsets_plain mats fits) as (Hflo & Hno & Hfmo).
  pose proof fits as Hfits. rewrite outputBuf_len in Hfits.
  pose proof (len_nonneg mats). pose proof (len_nonneg (allFlags mats)).
  pose proof (len_nonneg (flagNames mats)).
  pose proof (len_nonneg (concat (map mpackage mats))).
  pose proof (buildSpecs_lookup mats (flaglistOffset_of mats)
                (filamatOffset_of mats) 0 i mat Hi) as Hs.
  specialize (Hs ltac:(lia) ltac:(lia) ltac:(lia) ltac:(lia) ltac:(lia)).
  unfold Uberz.outputBuf.
  set (hdr := bytes_of_RawArchive (archiveHeader mats)).
  assert (Hhdr : len hdr = 24)
    by (unfold len, hdr; by rewrite bytes_of_RawArchive_length).
  replace (24 + 40 * Z.of_nat i + off) with (len hdr + 40 * Z.of_nat i + off)
    by lia.
  rewrite (read_record bytes_of_RawSpec 40 _ _ _ i _ off n
             bytes_of_RawSpec_len Hs Hoff Hn).
  rewrite Hflo, Hfmo. do 2 f_equal; lia.
Qed.

Lemma read_flag_record k e :
  allFlags mats !! k = Some e →
  ∃ nameOff,
    read_uint (outputBuf mats) (24 + 40 * len mats + 16 * Z.of_nat k) 8
    = Done nameOff
    ∧ read_uint (outputBuf mats) (24 + 40 * len mats + 16 * Z.of_nat k + 8) 8
      = Done (feature_code (snd e))
    ∧ read_cstr (outputBuf mats) nameOff = Done (fst e).
Proof.
  intros Hk.
  destruct (offsets_plain mats fits) as (Hflo & Hno & Hfmo).
  pose proof fits as Hfits. rewrite outputBuf_len in Hfits.
  pose proof (len_nonneg mats). pose proof (len_nonneg (allFlags mats)).
  pose proof (len_nonneg (flagNames mats)).
  pose proof (len_nonneg (concat (map mpackage mats))).
  pose proof (len_nonneg (concat (map (fun e => c_str (fst e))
                                    (take k (allFlags mats))))) as Hpre.
  pose proof (buildFlags_lookup (allFlags mats) (nameOffset_of mats) 0 k e Hk)
    as Hf.
  fold (flagNames mats) in Hf.
  specialize (Hf ltac:(lia) ltac:(lia) ltac:(lia)).
  set (nameOff := nameOffset_of mats + 0
                  + len (concat (map (fun e => c_str (fst e))
                                   (take k (allFlags mats))))) in *.
  assert (Hsplit : flagNames mats
            = concat (map (fun e => c_str (fst e)) (take k (allFlags mats)))
              ++ c_str (fst e)
              ++ concat (map (fun e => c_str (fst e))
                           (drop (S k) (allFlags mats)))).
  { unfold flagNames.
    apply (concat_records_split (fun e => c_str (fst e)) _ k e Hk). }
  assert (Hbound : nameOff < 2 ^ 64).
  { unfold nameOff. rewrite Hno. rewrite Hsplit, len_app in Hfits.
    pose proof (len_nonneg (c_str (fst e)
      ++ concat (map (fun e => c_str (fst e)) (drop (S k) (allFlags mats))))).
    lia. }
  exists nameOff.
  destruct (read_RawFlag_fields (mkRawFlag nameOff (snd e))) as (R0 & R8).
  simpl in R0, R8. rewrite wrap64_small in R0 by (unfold nameOff in *; lia).
  unfold Uberz.outputBuf.
  set (hdr := bytes_of_RawArchive (archiveHeader mats)).
  set (specs := concat (map bytes_of_RawSpec _)).
  assert (Hhs : len (hdr ++ specs) = 24 + 40 * len mats).
  { rewrite len_app. unfold specs.
    rewrite (len_concat_const bytes_of_RawSpec 40) by apply bytes_of_RawSpec_len.
    unfold len, hdr. rewrite bytes_of_RawArchive_length, buildSpecs_length. lia. }
  split; [|split].
  - rewrite (app_assoc hdr specs).
    replace (24 + 40 * len mats + 16 * Z.of_nat k)
      with (len (hdr ++ specs) + 16 * Z.of_nat k + 0) by lia.
    rewrite (read_record bytes_of_RawFlag 16 _ _ _ k _ 0 8
               bytes_of_RawFlag_len Hf) by lia.
    exact R0.
  - rewrite (app_assoc hdr specs).
    replace (24 + 40 * len mats + 16 * Z.of_nat k + 8)
      with (len (hdr ++ specs) + 16 * Z.of_nat k + 8) by lia.
    rewrite (read_record bytes_of_RawFlag 16 _ _ _ k _ 8 8
               bytes_of_RawFlag_len Hf) by lia.
    exact R8.
  - rewrite Hsplit.
    set (flags := concat (map bytes_of_RawFlag _)).
    set (before := concat (map _ (take k (allFlags mats)))).
    rewrite <- !app_assoc.
    rewrite (app_assoc flags), (app_assoc specs), (app_assoc hdr).
    apply read_cstr_at.
    + assert (Hfl : len flags = 16 * len (allFlags mats)).
      { unfold flags.
        rewrite (len_concat_const bytes_of_RawFlag 16)
          by apply bytes_of_RawFlag_len.
        unfold len. rewrite buildFlags_length. lia. }
      rewrite len_app in Hhs. rewrite !len_app, Hfl.
      unfold nameOff. rewrite Hno. fold before. lia.
    + rewrite Forall_forall in names_nul_free. apply names_nul_free.
      by eapply list_elem_of_lookup_2.
Qed.

Lemma relocateFlags_outputBuf m k :
  (k + m ≤ length (allFlags mats))%nat →
  relocateFlags (outputBuf mats) m (24 + 40 * len mats + 16 * Z.of_nat k)
  = Done (map readableFlag_of (take m (drop k (allFlags mats)))).
Proof.
  revert k. induction m as [|m IH]; intros k Hkm; [done|].
  destruct (lookup_lt_is_Some_2 (allFlags mats) k ltac:(lia)) as [e He].
  destruct (read_flag_record k e He) as (nameOff & R0 & R8 & Rn).
  cbn [relocateFlags]. rewrite R0. cbn [obind]. rewrite R8. cbn [obind].
  rewrite Rn. cbn [obind].
  replace (24 + 40 * len mats + 16 * Z.of_nat k + sizeof_ArchiveFlag)
    with (24 + 40 * len mats + 16 * Z.of_nat (S k))
    by (unfold sizeof_ArchiveFlag; lia).
  rewrite IH by lia. cbn [obind].
  by rewrite (drop_S _ _ _ He).
Qed.

Lemma allFlags_app a b : allFlags (a ++ b) = allFlags a ++ allFlags b.
Proof. unfold allFlags. by rewrite map_app, concat_app. Qed.

Lemma read_package i mat :
  mats !! i = Some mat →
  read_bytes (outputBuf mats)
    (24 + 40 * len mats + 16 * len (allFlags mats) + len (flagNames mats)
     + len (concat (map mpackage (take i mats))))
    (length (mpackage mat))
  = Done (mpackage mat).
Proof.
  intros Hi. unfold Uberz.outputBuf.
  set (hdr := bytes_of_RawArchive (archiveHeader mats)).
  set (specs := concat (map bytes_of_RawSpec _)).
  set (flags := concat (map bytes_of_RawFlag _)).
  assert (Hhs : len hdr + len specs = 24 + 40 * len mats).
  { unfold specs.
    rewrite (len_concat_const bytes_of_RawSpec 40) by apply bytes_of_RawSpec_len.
    unfold len, hdr. rewrite bytes_of_RawArchive_length, buildSpecs_length. lia. }
  assert (Hfl : len flags = 16 * len (allFlags mats)).
  { unfold flags.
    rewrite (len_concat_const bytes_of_RawFlag 16) by apply bytes_of_RawFlag_len.
    unfold len. rewrite buildFlags_length. lia. }
  rewrite (concat_records_split mpackage mats i mat Hi).
  set (before := concat (map mpackage (take i mats))).
  rewrite (app_assoc (flagNames mats)), (app_assoc flags), (app_assoc specs),
    (app_assoc hdr).
  replace (24 + 40 * len mats + 16 * len (allFlags mats) + len (flagNames mats)
           + len before)
    with (len (hdr ++ specs ++ flags ++ flagNames mats ++ before) + 0)
    by (rewrite !len_app; lia).
  rewrite read_bytes_middle by (unfold len; lia).
  f_equal. simpl. by apply take_ge.
Qed.

Lemma flags_of_spec i mat :
  mats !! i = Some mat →
  take (length (mflags mat))
    (drop (length (allFlags (take i mats))) (allFlags mats))
  = mflags mat.
Proof.
  intros Hi. rewrite <- (take_drop_middle _ _ _ Hi) at 2.
  rewrite allFlags_app, allFlags_cons.
  rewrite drop_app_length. by rewrite take_app_length.
Qed.

Lemma relocateSpecs_outputBuf m i :
  (i + m ≤ length mats)%nat →
  relocateSpecs (outputBuf mats) m (24 + 40 * Z.of_nat i)
  = Done (map readableSpec_of (take m (drop i mats))).
Proof.
  revert i. induction m as [|m IH]; intros i Him; [done|].
  destruct (lookup_lt_is_Some_2 mats i ltac:(lia)) as [mat Hi].
  pose proof fits as Hfits. rewrite outputBuf_len in Hfits.
  pose proof (len_nonneg mats). pose proof (len_nonneg (allFlags mats)).
  pose proof (len_nonneg (flagNames mats)).
  pose proof (len_nonneg (concat (map mpackage mats))).
  pose proof (len_nonneg (mflags mat)). pose proof (len_nonneg (mpackage mat)).
  pose proof (len_nonneg (allFlags (take i mats))).
  pose proof (len_nonneg (concat (map mpackage (take i mats)))).
  assert (Hall : len (allFlags (take i mats)) + len (mflags mat)
                 ≤ len (allFlags mats)).
  { rewrite <- (take_drop_middle _ _ _ Hi) at 2.
    rewrite allFlags_app, allFlags_cons, !len_app.
    pose proof (len_nonneg (allFlags (drop (S i) mats))). lia. }
  assert (Hpk : len (concat (map mpackage (take i mats))) + len (mpackage mat)
                ≤ len (concat (map mpackage mats))).
  { rewrite (concat_records_split mpackage mats i mat Hi), !len_app.
    pose proof (len_nonneg (concat (map mpackage (drop (S i) mats)))). lia. }
  destruct (read_RawSpec_fields
              (mkRawSpec (mshadingModel mat) (mblendingMode mat)
                 (len (mflags mat))
                 (24 + 40 * len mats + 16 * len (allFlags (take i mats)))
                 (len (mpackage mat))
                 (24 + 40 * len mats + 16 * len (allFlags mats)
                  + len (flagNames mats)
                  + len (concat (map mpackage (take i mats))))))
    as (F0 & F4 & F8 & F16 & F24 & F32).
  cbn [rawShadingModel rawBlendingMode flagsCount flagsOffset
       packageByteCount packageOffset] in *.
  rewrite wrap64_small in F8, F16, F24, F32 by lia.
  cbn [relocateSpecs].
  rewrite (read_spec_field i mat 16 8 Hi), F16 by lia. cbn [obind].
  rewrite decide_True.
  2:{ replace (24 + 40 * len mats + 16 * len (allFlags (take i mats)))
        with ((3 + 5 * len mats + 2 * len (allFlags (take i mats))) * 8) by lia.
      apply Z_mod_mult. }
  replace (24 + 40 * Z.of_nat i) with (24 + 40 * Z.of_nat i + 0) at 1 by lia.
  rewrite (read_spec_field i mat 0 4 Hi), F0 by lia. cbn [obind].
  rewrite (read_spec_field i mat 4 4 Hi), F4 by lia. cbn [obind].
  rewrite (read_spec_field i mat 8 8 Hi), F8 by lia. cbn [obind].
  rewrite (read_spec_field i mat 24 8 Hi), F24 by lia. cbn [obind].
  rewrite (read_spec_field i mat 32 8 Hi), F32 by lia. cbn [obind].
  replace (Z.to_nat (len (mpackage mat))) with (length (mpackage mat))
    by (unfold len; lia).
  rewrite (read_package i mat Hi). cbn [obind].
  replace (Z.to_nat (len (mflags mat))) with (length (mflags mat))
    by (unfold len; lia).
  replace (word_address (24 + 40 * len mats + 16 * len (allFlags (take i mats))))
    with (24 + 40 * len mats
          + 16 * Z.of_nat (length (allFlags (take i mats)))).
  2:{ unfold word_address, len.
      replace (24 + 40 * Z.of_nat (length mats)
               + 16 * Z.of_nat (length (allFlags (take i mats))))
        with ((3 + 5 * Z.of_nat (length mats)
               + 2 * Z.of_nat (length (allFlags (take i mats)))) * 8) by lia.
      rewrite Z.div_mul by lia. lia. }
  rewrite relocateFlags_outputBuf by (unfold len in Hall; lia).
  cbn [obind]. rewrite (flags_of_spec i mat Hi).
  match goal with
  | |- context [relocateSpecs _ m ?a] =>
      replace a with (24 + 40 * Z.of_nat (S i))
        by (unfold sizeof_ArchiveSpec; lia)
  end.
  rewrite IH by lia. cbn [obind].
  by rewrite (drop_S _ _ _ Hi).
Qed.

End Buffer.

Lemma convertOffsetsToPointers_outputBuf mats :
  len (outputBuf mats) < 2 ^ 64 →
  Forall (fun entry => nul_free (fst entry) = true) (allFlags mats) →
  convertOffsetsToPointers (outputBuf mats)
  = Done (mkReadableArchive magic_UBER 0 (map readableSpec_of mats)).
Proof.
  intros Hfits Hnames. unfold convertOffsetsToPointers.
  rewrite outputBuf_specsOffset. cbn [obind].
  rewrite decide_True by done.
  rewrite outputBuf_specsCount. cbn [obind].
  pose proof Hfits as Hlt. rewrite outputBuf_len in Hlt.
  pose proof (len_nonneg mats). pose proof (len_nonneg (allFlags mats)).
  pose proof (len_nonneg (flagNames mats)).
  pose proof (len_nonneg (concat (map mpackage mats))).
  rewrite wrap64_small by lia.
  replace (Z.to_nat (len mats)) with (length mats) by (unfold len; lia).
  change (word_address sizeof_ReadableArchive) with (24 + 40 * Z.of_nat 0).
  rewrite (relocateSpecs_outputBuf mats Hfits Hnames) by (simpl; lia).
  cbn [obind]. rewrite outputBuf_magic. cbn [obind].
  rewrite outputBuf_version. cbn [obind].
  by rewrite drop_0, firstn_all.
Qed.

(** X12: the regions of the buffer are where the prepass of [serialize]
    says.  When the size of the buffer fits [size_t], [byteCount] is the
    number of bytes written, so that the closing assertion of [serialize]
    holds, and the flag records, the flag names and the packages start at
    [flaglistOffset], [nameOffset] and [filamatOffset]. *)
Theorem serialize_regions (mats : list Material) :
  len (outputBuf mats) < 2 ^ 64 →
  byteCount_of mats = len (outputBuf mats)
  ∧ drop (Z.to_nat (flaglistOffset_of mats)) (outputBuf mats)
    = concat (map bytes_of_RawFlag
                (buildFlags (allFlags mats) (nameOffset_of mats) 0))
      ++ flagNames mats ++ concat (map mpackage mats)
  ∧ drop (Z.to_nat (nameOffset_of mats)) (outputBuf mats)
    = flagNames mats ++ concat (map mpackage mats)
  ∧ drop (Z.to_nat (filamatOffset_of mats)) (outputBuf mats)
    = concat (map mpackage mats).
Proof.
  intros Hfits.
  destruct (offsets_plain mats Hfits) as (Hflo & Hno & Hfmo).
  pose proof Hfits as Hlt. rewrite outputBuf_len in Hlt.
  pose proof (len_nonneg mats). pose proof (len_nonneg (allFlags mats)).
  pose proof (len_nonneg (flagNames mats)).
  pose proof (len_nonneg (concat (map mpackage mats))).
  split.
  { unfold byteCount_of.
    rewrite (fold_wrap_len (fun mat => len (mpackage mat)) mpackage)
      by (done || lia).
    rewrite Hfmo, outputBuf_len. lia. }
  unfold Uberz.outputBuf.
  set (hdr := bytes_of_RawArchive (archiveHeader mats)).
  set (specs := concat (map bytes_of_RawSpec _)).
  set (flags := concat (map bytes_of_RawFlag _)).
  assert (Hh : length hdr = 24%nat)
    by (unfold hdr; by rewrite bytes_of_RawArchive_length).
  assert (Hs : length specs = (40 * length mats)%nat).
  { unfold specs. by rewrite specs_bytes_length, buildSpecs_length. }
  assert (Hf : len flags = 16 * len (allFlags mats)).
  { unfold flags.
    rewrite (len_concat_const bytes_of_RawFlag 16) by apply bytes_of_RawFlag_len.
    unfold len. rewrite buildFlags_length. lia. }
  split; [|split].
  - rewrite (app_assoc hdr specs). apply drop_app_length'.
    rewrite length_app, Hflo. unfold len. lia.
  - rewrite (app_assoc specs flags), (app_assoc hdr). apply drop_app_length'.
    rewrite !length_app, Hno. unfold len in *. lia.
  - rewrite (app_assoc flags), (app_assoc specs), (app_assoc hdr).
    apply drop_app_length'.
    rewrite !length_app, Hfmo. unfold len in *. lia.
Qed.

Section RoundTrip.
Variable compress : list Z → list Z.
Variable decompress : list Z → option (list Z).
Hypothesis codec_roundtrip : ∀ b, decompress (compress b) = Some b.

(** X13: an archive that is serialized and loaded reads back as it was
    written.  When the buffer fits [size_t], the values of the three
    enumerations fit their fields and no flag name holds the terminator,
    the relocation pass completes without assertion or read outside the
    buffer and finds the magic, version 0 and, for every material of the
    writer in order, its shading model, its blending mode, its flags by
    name and value in order, and the bytes of its package. *)
Theorem serialized_archive_reads_back (a : WritableArchive) :
  len (outputBuf (wMaterials a)) < 2 ^ 64 →
  Forall (fun entry => nul_free (fst entry) = true) (allFlags (wMaterials a)) →
  load decompress (serialize shading_code blending_code feature_code compress a)
  = Some (Done (mkReadableArchive magic_UBER 0
                  (map readableSpec_of (wMaterials a)))).
Proof.
  intros Hfits Hnames. unfold load, serialize.
  rewrite codec_roundtrip. simpl.
  by rewrite convertOffsetsToPointers_outputBuf.
Qed.

End RoundTrip.

End Layout.

Import Inputs.

Lemma serialize_regions_witness :
  byteCount_of [material_A; material_B]
  = len (outputBuf shading_code blending_code feature_code
           [material_A; material_B]).
Proof.
  apply (serialize_regions shading_code blending_code feature_code
           [material_A; material_B]).
  reflexivity.
Defined.

Lemma serialized_archive_reads_back_witness :
  load unstore (serialize shading_code blending_code feature_code store writer_AB)
  = Some (Done (mkReadableArchive magic_UBER 0
                  (map (readableSpec_of shading_code blending_code feature_code)
                     (wMaterials writer_AB)))).
Proof.
  apply (serialized_archive_reads_back shading_code blending_code feature_code).
  - intros []; split; (discriminate || reflexivity).
  - intros []; split; (discriminate || reflexivity).
  - intros []; split; (discriminate || reflexivity).
  - reflexivity.
  - reflexivity.
  - repeat constructor.
Defined.

End ArchiveRoundTrip.

(** * More properties of the package rewriter *)

Module MatdbgMoreFacts.
Import Matdbg MatdbgMore BytesFacts MatdbgFacts UberzFacts SpecFileFacts.
Import ArchiveRoundTrip.

(** *** Sizes and framing *)

Lemma le_bytes_mod n v : le_bytes n (v mod 2 ^ (8 * Z.of_nat n)) = le_bytes n v.
Proof.
  revert v. induction n as [|n IH]; intros v; [done|].
  cbn [le_bytes].
  replace (8 * Z.of_nat (S n)) with (8 + 8 * Z.of_nat n) by lia.
  rewrite Z.pow_add_r by lia. change (2 ^ 8) with 256.
  assert (Hpos : 0 < 2 ^ (8 * Z.of_nat n)) by (apply Z.pow_pos_nonneg; lia).
  rewrite Z.rem_mul_r by lia.
  rewrite (Z.mul_comm 256 ((v / 256) mod 2 ^ (8 * Z.of_nat n))).
  f_equal.
  - rewrite Z_mod_plus_full. apply Z.mod_mod. lia.
  - rewrite <- (IH (v / 256)). f_equal.
    rewrite Z.div_add by lia.
    rewrite (Z.div_small (v mod 256)) by (apply Z.mod_pos_bound; lia).
    done.
Qed.

Lemma le_bytes_wrap32 v : le_bytes 4 (wrap32 v) = le_bytes 4 v.
Proof. apply (le_bytes_mod 4). Qed.

Lemma wrap32_add_l a b : wrap32 (wrap32 a + b) = wrap32 (a + b).
Proof. unfold wrap32. by rewrite Zplus_mod_idemp_l. Qed.

(** A size accumulated in a [uint32_t] is the sum, modulo 2^32. *)
Lemma fold_wrap32 {A} (f : A → Z) (l : list A) acc :
  wrap32 (fold_left (fun size x => wrap32 (size + f x)) l acc)
  = wrap32 (acc + fold_right (fun x s => f x + s) 0 l).
Proof.
  revert acc. induction l as [|x l IH]; intros acc; simpl.
  - by rewrite Z.add_0_r.
  - rewrite IH, wrap32_add_l. f_equal. lia.
Qed.

Lemma length_c_str s : length (c_str s) = S (String.length s).
Proof.
  unfold c_str. rewrite length_app. simpl.
  assert (length (bytes_of_string s) = String.length s) as ->; [|lia].
  induction s as [|c s IH]; simpl; [done | by rewrite IH].
Qed.

Lemma length_recordEntry r : length (recordEntry r) = 7%nat.
Proof. unfold recordEntry. by rewrite !length_app, !le_bytes_length. Qed.

Lemma length_le_bytes_concat n l :
  length (concat (map (le_bytes n) l)) = (n * length l)%nat.
Proof.
  induction l as [|x l IH]; simpl; [lia|].
  rewrite length_app, le_bytes_length, IH. lia.
Qed.

Lemma length_recordTail r :
  length (recordTail r) = (8 + 2 * length (lineIndices r))%nat.
Proof.
  unfold recordTail.
  rewrite !length_app, !le_bytes_length, length_le_bytes_concat. lia.
Qed.

Lemma length_blobRecordEntry r : length (blobRecordEntry r) = 7%nat.
Proof. unfold blobRecordEntry. by rewrite !length_app, !le_bytes_length. Qed.

Lemma length_concat_const {A} (f : A → list Z) n l :
  (∀ x, length (f x) = n) → length (concat (map f l)) = (n * length l)%nat.
Proof.
  intros Hf. induction l as [|x l IH]; simpl; [lia|].
  rewrite length_app, Hf, IH. lia.
Qed.

Lemma dictChunkSize_payload lines :
  le_bytes 4 (dictChunkSize lines)
  = le_bytes 4 (Z.of_nat (length (dictPayload lines))).
Proof.
  rewrite <- le_bytes_wrap32, <- (le_bytes_wrap32 (Z.of_nat _)). f_equal.
  unfold dictChunkSize. rewrite fold_wrap32. f_equal.
  unfold dictPayload. rewrite length_app, le_bytes_length.
  assert (fold_right (fun x s => strlen x + 1 + s) 0 lines
          = Z.of_nat (length (concat (map c_str lines)))) as ->; [|lia].
  induction lines as [|line lines IH]; simpl; [done|].
  rewrite length_app, length_c_str, IH. unfold strlen. lia.
Qed.

Lemma matChunkSize_payload records :
  le_bytes 4 (matChunkSize records)
  = le_bytes 4 (Z.of_nat (length (matPayload records))).
Proof.
  rewrite <- le_bytes_wrap32, <- (le_bytes_wrap32 (Z.of_nat _)). f_equal.
  unfold matChunkSize.
  assert (Hstep : ∀ l acc,
    wrap32 (fold_left (fun size record =>
        wrap32 (wrap32 (wrap32 (size + 4) + 4)
                + Z.of_nat (length (lineIndices record)) * 2)) l acc)
    = wrap32 (acc + Z.of_nat (length (concat (map recordTail l))))).
  { induction l as [|r l IH]; intros acc; cbn [fold_left map concat].
    - simpl. by rewrite Z.add_0_r.
    - rewrite IH, length_app, length_recordTail.
      repeat (rewrite wrap32_add_l || rewrite <- Z.add_assoc).
      f_equal. lia. }
  rewrite Hstep, wrap32_add_l. f_equal.
  unfold matPayload.
  rewrite !length_app, le_bytes_length,
    (length_concat_const recordEntry 7) by apply length_recordEntry.
  lia.
Qed.

(** X14: the sizes [ShaderIndex::writeChunks] declares are the sizes of
    what it writes.  The call appends two chunks to the stream, the
    dictionary chunk and the material chunk, each as its tag, the number
    of bytes of its payload in 32 bits, and the payload: the line count and
    the terminated lines; the record count, the fixed parts of all
    records and then their line indices. *)
Theorem writeChunks_framing (idx : ShaderIndex) (stream : list Z) :
  writeChunks idx stream
  = stream
    ++ chunk_bytes (mDictTag idx) (dictPayload (mStringLines idx))
    ++ chunk_bytes (mMatTag idx) (matPayload (mShaderRecords idx)).
Proof.
  unfold writeChunks, chunk_bytes.
  rewrite dictChunkSize_payload, matChunkSize_payload.
  unfold dictPayload, matPayload. by rewrite <- !app_assoc.
Qed.

(** *** The cloning block *)

Lemma stream_of_app cs cs' : stream_of (cs ++ cs') = stream_of cs ++ stream_of cs'.
Proof. unfold stream_of. by rewrite map_app, concat_app. Qed.

(** X15: what the cloning block writes for any well-formed package.  The
    loop ends, and its output is again a chunk stream: the chunks other
    than the dictionary and the material chunk, once each and in the
    order of the package, followed by a second copy of the last chunk of
    the package when that chunk is one of those kept. *)
Theorem clone_block_output (d m : Z) (cs : list (Z * list Z)) :
  cs ≠ [] → Forall wf_chunk cs →
  cloneChunks d m (stream_of cs)
  = Some (stream_of
            (List.filter (kept d m) cs
             ++ match last cs with
                | Some c => if kept d m c then [c] else []
                | None => []
                end)).
Proof.
  intros Hne Hwf. rewrite cloneChunks_chunks by done.
  rewrite stream_of_app. unfold lastAgain.
  destruct (last cs) as [c|]; [|done].
  destruct (kept d m c); [|done].
  by rewrite stream_of_cons, app_nil_r.
Qed.

(** *** A dictionary index out of range *)

Lemma decodeRecords_bad lines records record index :
  record ∈ records → index ∈ lineIndices record →
  Z.of_nat (length lines) ≤ index →
  (decodeRecords lines records).2 = false.
Proof.
  intros Hr Hi Hbad. induction records as [|r rest IH].
  - by apply elem_of_nil in Hr.
  - simpl. destruct (forallb _ (lineIndices r)) eqn:E; [|done].
    apply elem_of_cons in Hr as [<-|Hr].
    + rewrite forallb_forall in E.
      apply list_elem_of_In in Hi. specialize (E index Hi). lia.
    + specialize (IH Hr). by destruct (decodeRecords lines rest).
Qed.

Lemma decodeRecords_stored lines records :
  map stored (decodeRecords lines records).1 = map stored records.
Proof.
  induction records as [|r rest IH]; [done|]. simpl.
  destruct (forallb _ (lineIndices r)); [|done].
  destruct (decodeRecords lines rest) as [rest' ok]. simpl in *.
  by rewrite IH.
Qed.

Lemma recordEntry_stored records :
  map recordEntry records = map recordEntry (map stored records).
Proof. rewrite map_map. by apply map_ext. Qed.

Lemma recordTail_stored records :
  map recordTail records = map recordTail (map stored records).
Proof. rewrite map_map. by apply map_ext. Qed.

Lemma matPayload_stored records records' :
  map stored records = map stored records' →
  matPayload records = matPayload records'.
Proof.
  intros H. unfold matPayload.
  rewrite (recordEntry_stored records), (recordTail_stored records), H.
  rewrite <- recordEntry_stored, <- recordTail_stored.
  do 2 f_equal. rewrite <- (length_map stored records), H. by rewrite length_map.
Qed.

Lemma writeChunks_stored idx idx' stream :
  mDictTag idx = mDictTag idx' → mMatTag idx = mMatTag idx' →
  mStringLines idx = mStringLines idx' →
  map stored (mShaderRecords idx) = map stored (mShaderRecords idx') →
  writeChunks idx stream = writeChunks idx' stream.
Proof.
  intros Hd Hm Hl Hr. unfold writeChunks.
  rewrite !matChunkSize_payload, (matPayload_stored _ _ Hr), Hd, Hm, Hl.
  do 8 f_equal.
  - f_equal. rewrite <- (length_map stored (mShaderRecords idx)), Hr.
    by rewrite length_map.
  - rewrite (recordEntry_stored (mShaderRecords idx)),
      (recordTail_stored (mShaderRecords idx)), Hr.
    by rewrite <- recordEntry_stored, <- recordTail_stored.
Qed.

(** X16: a record with a line index outside the dictionary stops
    [replaceShader] in its first pass: the call logs "Internal chunk
    decoding error.", replaces no text, and leaves dictionary, offsets and
    line indices as they were, so that [writeChunks] then writes the very
    chunks it would have written before the call. *)
Theorem decoding_error_keeps_chunks
    (idx : ShaderIndex) (shaderModel variant_ stage_ : Z) (source : string)
    (record : ShaderRecord) (index : Z) (stream : list Z) :
  record ∈ mShaderRecords idx →
  index ∈ lineIndices record →
  Z.of_nat (length (mStringLines idx)) ≤ index →
  ∃ idx',
    replaceShader idx shaderModel variant_ stage_ source
    = Some (idx', Some msg_decoding)
    ∧ mStringLines idx' = mStringLines idx
    ∧ writeChunks idx' stream = writeChunks idx stream.
Proof.
  intros Hr Hi Hbad. unfold replaceShader.
  pose proof (decodeRecords_bad (mStringLines idx) _ record index Hr Hi Hbad) as Hok.
  pose proof (decodeRecords_stored (mStringLines idx) (mShaderRecords idx)) as Hst.
  destruct (decodeRecords (mStringLines idx) (mShaderRecords idx)) as [decoded ok].
  simpl in Hok, Hst. subst ok.
  eexists. split; [done|]. split; [done|].
  by apply writeChunks_stored.
Qed.

(** *** Lines and texts *)

Lemma joinLines_cons line lines :
  joinLines (line :: lines) = line +:+ String newline (joinLines lines).
Proof. done. Qed.

Lemma derefLines_acc (lines : list string) indices ls acc :
  Forall2 (fun i l => lines !! Z.to_nat i = Some l) indices ls →
  fold_left (fun text index =>
      (text +:+ default EmptyString (lines !! Z.to_nat index))
      +:+ String newline EmptyString) indices acc
  = acc +:+ joinLines ls.
Proof.
  intros H. revert acc. induction H as [|i l indices ls Hi _ IH]; intros acc.
  - simpl. by rewrite append_nil_r.
  - cbn [fold_left]. rewrite IH, Hi, joinLines_cons. simpl default.
    rewrite !append_assoc. do 2 f_equal.
Qed.

Lemma derefLines_join (lines : list string) indices ls :
  Forall2 (fun i l => lines !! Z.to_nat i = Some l) indices ls →
  derefLines lines indices = joinLines ls.
Proof. intros H. unfold derefLines. by rewrite (derefLines_acc _ _ ls). Qed.

Lemma joinLines_splitLines_from text line :
  joinLines (splitLines_from text line)
  = line +:+ match text with
             | EmptyString => String newline EmptyString
             | _ => terminated text
             end.
Proof.
  revert line. induction text as [|c text IH]; intros line; [done|].
  cbn [splitLines_from].
  destruct (Ascii.eqb_spec c newline) as [->|Hc].
  - rewrite joinLines_cons. destruct text as [|c' text]; [done|].
    rewrite IH. done.
  - rewrite IH, append_assoc. f_equal.
    destruct text as [|c' text].
    + simpl. destruct (Ascii.eqb_spec c newline); [done|done].
    + done.
Qed.

(** The lines the re-encoding loop visits, put together again, are the
    text with a newline behind its last line. *)
Lemma joinLines_splitLines text : joinLines (splitLines text) = terminated text.
Proof.
  destruct text as [|c text]; [done|].
  unfold splitLines. by rewrite joinLines_splitLines_from.
Qed.

(** *** The table of known lines *)

Lemma table_names_ext table lines ext :
  table_names table lines → table_names table (lines ++ ext).
Proof.
  intros H line index Hl. destruct (H line index Hl) as [H0 Hk].
  split; [done|]. by apply lookup_app_l_Some.
Qed.

Lemma table_names_emplace table (lines : list string) line index :
  table_names table lines → 0 ≤ index →
  lines !! Z.to_nat index = Some line →
  table_names (emplace line index table) lines.
Proof.
  intros H H0 Hk. unfold emplace.
  destruct (table !! line) eqn:E; [done|].
  intros line' index' Hl. destruct (decide (line' = line)) as [->|Hne].
  - rewrite lookup_insert_eq in Hl. by injection Hl as <-.
  - rewrite lookup_insert_ne in Hl by done. by apply H.
Qed.

Lemma buildTable_names_from rest :
  ∀ (pre : list string) table,
    table_names table (pre ++ rest) →
    Z.of_nat (length (pre ++ rest)) ≤ 65536 →
    table_names (buildTable rest (Z.of_nat (length pre)) table) (pre ++ rest).
Proof.
  induction rest as [|line rest IH]; intros pre table Ht Hlen; [done|].
  cbn [buildTable].
  rewrite length_app in Hlen. simpl in Hlen.
  rewrite Z.mod_small by lia.
  replace (Z.of_nat (length pre) + 1) with (Z.of_nat (length (pre ++ [line])))
    by (rewrite length_app; simpl; lia).
  replace (pre ++ line :: rest) with ((pre ++ [line]) ++ rest)
    by (by rewrite <- app_assoc).
  apply IH.
  - rewrite <- app_assoc. simpl.
    apply table_names_emplace; [done | lia |].
    rewrite Nat2Z.id. by apply list_lookup_middle.
  - rewrite !length_app. simpl. lia.
Qed.

(** With at most 65536 lines in the dictionary, every entry of the table
    [replaceShader] starts from names a line by an index of its own. *)
Lemma buildTable_names lines :
  Z.of_nat (length lines) ≤ 65536 →
  table_names (buildTable lines 0 ∅) lines.
Proof.
  intros Hlen. apply (buildTable_names_from lines [] ∅); [|done].
  intros line index Hl. by rewrite lookup_empty in Hl.
Qed.

Lemma encodeLines_spec seeded newLines :
  ∀ table lines indices table' lines' indices',
    encodeLines seeded newLines table lines indices
    = Some (table', lines', indices', true) →
    table_names table lines →
    table_names table' lines'
    ∧ (∃ ext, lines' = lines ++ ext)
    ∧ ∃ new, indices' = indices ++ new
        ∧ Forall2 (fun i l => 0 ≤ i ∧ lines' !! Z.to_nat i = Some l) new newLines.
Proof.
  induction newLines as [|newLine rest IH];
    intros table lines indices table' lines' indices' H Ht; simpl in H.
  - injection H as <- <- <-. split; [done|].
    split; [exists []; by rewrite app_nil_r|].
    exists []. split; [by rewrite app_nil_r | constructor].
  - destruct (dangling seeded lines); [done|].
    destruct (table !! newLine) as [second|] eqn:E.
    + destruct (IH _ _ _ _ _ _ H Ht) as (Ht' & [ext ->] & new & -> & Hnew).
      split; [done|]. split; [by exists ext|].
      exists (second :: new). split; [by rewrite <- app_assoc|].
      constructor; [|done].
      destruct (Ht newLine second E) as [H0 Hk].
      split; [done|]. by apply lookup_app_l_Some.
    + case_decide as Hfull; [done|]. unfold UINT16_MAX in Hfull.
      assert (Ht1 : table_names (emplace newLine (Z.of_nat (length lines)) table)
                      (lines ++ [newLine])).
      { apply table_names_emplace; [by apply table_names_ext | lia |].
        rewrite Nat2Z.id. by apply list_lookup_middle. }
      destruct (IH _ _ _ _ _ _ H Ht1) as (Ht' & [ext ->] & new & -> & Hnew).
      split; [done|]. split; [exists ([newLine] ++ ext); by rewrite <- app_assoc|].
      exists (Z.of_nat (length lines) :: new). split; [by rewrite <- app_assoc|].
      constructor; [|done]. split; [lia|].
      rewrite Nat2Z.id, <- app_assoc. by apply list_lookup_middle.
Qed.

Lemma reencoded_ext lines' ext r r' :
  reencoded lines' r r' → reencoded (lines' ++ ext) r r'.
Proof.
  intros (Hm & Hv & Hs & Ht & Hl & Hi). repeat (split; [done|]).
  eapply Forall2_impl; [exact Hi|]. intros i l [H0 Hk].
  split; [done|]. by apply lookup_app_l_Some.
Qed.

Lemma encodeRecords_spec seeded records :
  ∀ offset_ table lines records' lines',
    encodeRecords seeded records offset_ table lines = Some (records', lines', true) →
    table_names table lines →
    (∃ ext, lines' = lines ++ ext)
    ∧ Forall2 (reencoded lines') records records'.
Proof.
  induction records as [|record rest IH];
    intros offset_ table lines records' lines' H Ht; simpl in H.
  - injection H as <- <-. split; [exists []; by rewrite app_nil_r | constructor].
  - destruct (encodeLines seeded (splitLines (decodedShaderText record)) table lines [])
      as [[[[table1 lines1] indices1] ok1]|] eqn:E; [|done].
    destruct ok1.
    + destruct (encodeRecords seeded rest _ table1 lines1)
        as [[[rest' lines2] ok2]|] eqn:E2; [|done].
      injection H as <- <- ->.
      destruct (encodeLines_spec _ _ _ _ _ _ _ _ E Ht)
        as (Ht1 & [ext1 ->] & new & Hnew & Hall).
      simpl in Hnew. subst new.
      destruct (IH _ _ _ _ _ E2 Ht1) as ([ext2 ->] & Hrest).
      split; [exists (ext1 ++ ext2); by rewrite <- app_assoc|].
      constructor; [|done].
      apply reencoded_ext. by repeat (split; [done|]).
    + by injection H.
Qed.

(** X17: a successful [replaceShader] re-encodes every record against the
    dictionary it leaves.  With at most 65536 lines in the dictionary, the
    call defined and no error logged, the old dictionary is the beginning of the new one;
    the records keep their keys and their order; the text of each is the
    text the first pass decoded, except that the first record with the
    key holds the new source; and the line indices of each record are all
    inside the new dictionary and name, line by line, that text with a
    newline behind its last line. *)
Theorem replaceShader_reencodes
    (idx : ShaderIndex) (shaderModel variant_ stage_ : Z) (source : string)
    (idx' : ShaderIndex) :
  Z.of_nat (length (mStringLines idx)) ≤ 65536 →
  replaceShader idx shaderModel variant_ stage_ source = Some (idx', None) →
  (∃ ext, mStringLines idx' = mStringLines idx ++ ext)
  ∧ Forall2
      (fun r r' =>
         model r' = model r ∧ variant r' = variant r ∧ stage r' = stage r
         ∧ decodedShaderText r' = decodedShaderText r
         ∧ Forall (fun i => 0 ≤ i < Z.of_nat (length (mStringLines idx')))
             (lineIndices r')
         ∧ derefLines (mStringLines idx') (lineIndices r')
           = terminated (decodedShaderText r))
      (replaceText (shaderModel mod 2 ^ 8) variant_ stage_ source
         (decodeRecords (mStringLines idx) (mShaderRecords idx)).1)
      (mShaderRecords idx').
Proof.
  intros Hlen. unfold replaceShader.
  destruct (decodeRecords (mStringLines idx) (mShaderRecords idx))
    as [decoded ok].
  destruct ok; [|done]. cbn [fst].
  destruct (encodeRecords _ _ _ _ (mStringLines idx))
    as [[[records lines] ok']|] eqn:E; [|done].
  destruct ok'; [|done]. intros [= <-]. cbn [mStringLines mShaderRecords].
  destruct (encodeRecords_spec _ _ _ _ _ _ _ E (buildTable_names _ Hlen))
    as (Hext & Hall).
  split; [done|].
  eapply Forall2_impl; [exact Hall|].
  intros r r' (Hm & Hv & Hs & Ht & _ & Hi).
  repeat (split; [done|]). split.
  - clear -Hi. induction Hi as [|i l ids ls [H0 Hk] _ IH]; constructor; [|done].
    apply lookup_lt_Some in Hk. lia.
  - rewrite <- joinLines_splitLines. apply derefLines_join.
    eapply Forall2_impl; [exact Hi|]. by intros i l [_ Hk].
Qed.

(** *** Offsets *)

Lemma wrap32_small v : 0 ≤ v < 2 ^ 32 → wrap32 v = v.
Proof. intros H. unfold wrap32. by apply Z.mod_small. Qed.

Lemma encodeRecords_offsets seeded records :
  ∀ offset_ table lines records' lines',
    encodeRecords seeded records offset_ table lines = Some (records', lines', true) →
    0 ≤ offset_ →
    offset_ + Z.of_nat (length (concat (map recordTail records'))) < 2 ^ 32 →
    length records' = length records
    ∧ ∀ i r', records' !! i = Some r' →
        offset r'
        = offset_ + Z.of_nat (length (concat (map recordTail (take i records')))).
Proof.
  induction records as [|record rest IH];
    intros offset_ table lines records' lines' H H0 Hlt; simpl in H.
  - injection H as <- <-. split; [done|]. intros i r' Hi. done.
  - destruct (encodeLines seeded (splitLines (decodedShaderText record)) table lines [])
      as [[[[table1 lines1] indices1] ok1]|] eqn:E; [|done].
    destruct ok1; [|by injection H].
    destruct (encodeRecords seeded rest _ table1 lines1)
        as [[[rest' lines2] ok2]|] eqn:E2; [|done].
    injection H as <- <- ->.
    cbn [map concat] in Hlt. rewrite length_app, length_recordTail in Hlt.
    cbn [lineIndices] in Hlt.
    assert (Hnext : wrap32 (wrap32 (wrap32 (offset_ + 4) + 4)
                            + 2 * Z.of_nat (length indices1))
                    = offset_ + 8 + 2 * Z.of_nat (length indices1)).
    { rewrite (wrap32_small (offset_ + 4)) by lia.
      rewrite (wrap32_small (offset_ + 4 + 4)) by lia.
      rewrite wrap32_small by lia. lia. }
    rewrite Hnext in E2.
    destruct (IH _ _ _ _ _ E2) as [Hlen Hoff]; [lia | lia |].
    split; [simpl; by rewrite Hlen|].
    intros [|i] r' Hi; simpl in Hi.
    + injection Hi as <-. simpl. lia.
    + rewrite (Hoff i r' Hi). cbn [take map concat].
      rewrite length_app, length_recordTail. cbn [lineIndices]. lia.
Qed.

Lemma fold_entry_offsets {A} (l : list A) :
  8 + 7 * Z.of_nat (length l) < 2 ^ 32 →
  fold_left (fun offset_ _ =>
      wrap32 (wrap32 (wrap32 (wrap32 (offset_ + 1) + 1) + 1) + 4)) l 8
  = 8 + 7 * Z.of_nat (length l).
Proof.
  assert (H : ∀ acc, 0 ≤ acc → acc + 7 * Z.of_nat (length l) < 2 ^ 32 →
            fold_left (fun offset_ (_ : A) =>
              wrap32 (wrap32 (wrap32 (wrap32 (offset_ + 1) + 1) + 1) + 4)) l acc
            = acc + 7 * Z.of_nat (length l)).
  { induction l as [|x l IH]; intros acc H0 Hlt; simpl; [lia|].
    simpl in Hlt.
    assert (wrap32 (wrap32 (wrap32 (wrap32 (acc + 1) + 1) + 1) + 4) = acc + 7)
      as ->.
    { rewrite (wrap32_small (acc + 1)) by lia.
      rewrite (wrap32_small (acc + 1 + 1)) by lia.
      rewrite (wrap32_small (acc + 1 + 1 + 1)) by lia.
      rewrite wrap32_small by lia. lia. }
    rewrite IH by lia. lia. }
  intros Hlt. by apply H.
Qed.

Lemma length_matPayload records :
  length (matPayload records)
  = (8 + 7 * length records + length (concat (map recordTail records)))%nat.
Proof.
  unfold matPayload.
  rewrite !length_app, le_bytes_length,
    (length_concat_const recordEntry 7) by apply length_recordEntry.
  lia.
Qed.

Lemma encodeRecords_length seeded records :
  ∀ offset_ table lines records' lines',
    encodeRecords seeded records offset_ table lines = Some (records', lines', true) →
    length records' = length records.
Proof.
  induction records as [|record rest IH];
    intros offset_ table lines records' lines' H; simpl in H.
  - by injection H as <- <-.
  - destruct (encodeLines seeded _ table lines [])
      as [[[[table1 lines1] indices1] ok1]|]; [|done].
    destruct ok1; [|by injection H].
    destruct (encodeRecords seeded rest _ table1 lines1)
      as [[[rest' lines2] ok2]|] eqn:E2; [|done].
    injection H as <- <- ->. simpl. f_equal. by eapply IH.
Qed.

Lemma replaceShader_tails_at idx shaderModel variant_ stage_ source idx' :
  replaceShader idx shaderModel variant_ stage_ source = Some (idx', None) →
  Z.of_nat (length (matPayload (mShaderRecords idx'))) < 2 ^ 32 →
  tails_at (mShaderRecords idx').
Proof.
  unfold replaceShader.
  destruct (decodeRecords (mStringLines idx) (mShaderRecords idx))
    as [decoded ok].
  destruct ok; [|done].
  destruct (encodeRecords _ _ _ _ (mStringLines idx))
    as [[[records lines] ok']|] eqn:E; [|done].
  destruct ok'; [|done]. intros [= <-]. cbn [mShaderRecords].
  rewrite length_matPayload. intros Hlt.
  assert (Hlen : length records
                 = length (replaceText (shaderModel mod 2 ^ 8) variant_ stage_
                             source decoded)).
  { by apply (encodeRecords_length _ _ _ _ _ _ _ E). }
  rewrite fold_entry_offsets in E by (rewrite <- Hlen; lia).
  destruct (encodeRecords_offsets _ _ _ _ _ _ _ E) as [_ Hoff];
    [lia | rewrite <- Hlen; lia |].
  intros i r Hi. rewrite (Hoff i r Hi), Hlen. lia.
Qed.

Lemma tails_at_drop records i r :
  tails_at records → records !! i = Some r →
  drop (Z.to_nat (offset r)) (matPayload records)
  = recordTail r ++ concat (map recordTail (drop (S i) records)).
Proof.
  intros Ht Hi. rewrite (Ht i r Hi). unfold matPayload.
  rewrite (concat_records_split recordTail records i r Hi).
  set (before := concat (map recordTail (take i records))).
  rewrite (app_assoc (concat (map recordEntry records)) before),
    (app_assoc (le_bytes 8 _)).
  apply drop_app_length'.
  rewrite !length_app, le_bytes_length,
    (length_concat_const recordEntry 7) by apply length_recordEntry.
  lia.
Qed.

(** X18: after a successful [replaceShader] the offset of every record is
    the place of its own line indices.  When the material chunk fits the
    32 bits of its size field, the bytes of the payload [writeChunks]
    writes, from the offset of a record on, are the string length, the
    line count and the line indices of that record, followed by those of
    the records behind it. *)
Theorem replaceShader_offsets
    (idx : ShaderIndex) (shaderModel variant_ stage_ : Z) (source : string)
    (idx' : ShaderIndex) (i : nat) (record : ShaderRecord) :
  replaceShader idx shaderModel variant_ stage_ source = Some (idx', None) →
  Z.of_nat (length (matPayload (mShaderRecords idx'))) < 2 ^ 32 →
  mShaderRecords idx' !! i = Some record →
  drop (Z.to_nat (offset record)) (matPayload (mShaderRecords idx'))
  = recordTail record
    ++ concat (map recordTail (drop (S i) (mShaderRecords idx'))).
Proof.
  intros H Hlt Hi. apply tails_at_drop; [|done].
  by eapply replaceShader_tails_at.
Qed.

(** *** Reading the chunks back *)

Lemma sread_front data p bs rest dst :
  drop p data = bs ++ rest → length dst = length bs →
  sread (mkIstream data p true) dst (length bs)
  = (bs, mkIstream data (p + length bs) true)
  ∧ drop (p + length bs) data = rest.
Proof.
  intros Hd Hdst. split.
  - unfold sread. cbn [sgood sdata spos]. rewrite Hd.
    rewrite decide_True by (rewrite length_app; lia).
    rewrite take_app_length.
    by rewrite drop_ge, app_nil_r by lia.
  - rewrite <- drop_drop, Hd. apply drop_app_length.
Qed.

Lemma cstr_at_c_str s rest :
  UberzMore.nul_free s = true → cstr_at (c_str s ++ rest) = Some (s, rest).
Proof.
  unfold c_str. induction s as [|c s IH]; intros Hs; simpl.
  - done.
  - unfold UberzMore.nul_free in Hs. simpl in Hs.
    apply andb_true_iff in Hs as [Hc Hs].
    rewrite decide_False.
    + rewrite IH by done. simpl. by rewrite ascii_of_byte_of_ascii.
    + intros H0. apply byte_of_ascii_zero in H0 as ->. done.
Qed.

Lemma readLines_c_str lines rest :
  Forall (fun line => UberzMore.nul_free line = true) lines →
  readLines (length lines) (concat (map c_str lines) ++ rest) = Some lines.
Proof.
  induction 1 as [|line lines Hline _ IH]; [done|].
  cbn [length readLines map concat]. rewrite <- app_assoc.
  rewrite cstr_at_c_str by done. simpl. by rewrite IH.
Qed.

Lemma u16s_le_bytes indices :
  Forall (fun index => 0 ≤ index < 2 ^ 16) indices →
  u16s (concat (map (le_bytes 2) indices)) = indices.
Proof.
  induction 1 as [|index indices Hi _ IH]; [done|].
  change (concat (map (le_bytes 2) (index :: indices)))
    with (index mod 256 :: (index / 256) mod 256
          :: concat (map (le_bytes 2) indices)).
  cbn [u16s]. rewrite IH. f_equal.
  rewrite (Z.mod_small (index / 256)).
  - pose proof (Z.div_mod index 256). lia.
  - split; [apply Z.div_pos; lia|]. apply Z.div_lt_upper_bound; lia.
Qed.

Lemma le_value_1 v : 0 ≤ v < 2 ^ 8 → le_value (le_bytes 1 v) = v.
Proof. intros H. by apply (le_value_le_bytes_small 1). Qed.

Lemma le_value_4 v : 0 ≤ v < 2 ^ 32 → le_value (le_bytes 4 v) = v.
Proof. intros H. by apply (le_value_le_bytes_small 4). Qed.

Lemma le_value_8 v : 0 ≤ v < 2 ^ 64 → le_value (le_bytes 8 v) = v.
Proof. intros H. by apply (le_value_le_bytes_small 8). Qed.

(** One pass of the loop of the constructor, on a stream that stands at
    the fixed part of a record whose offset leads to its line indices. *)
Lemma readShaderRecord_at data p r restE restT :
  record_fits r →
  Z.of_nat (length (lineIndices r)) < 2 ^ 32 →
  drop p data = recordEntry r ++ restE →
  drop (Z.to_nat (offset r)) data = recordTail r ++ restT →
  readShaderRecord (mkIstream data p true)
  = Some (stored r, mkIstream data (p + 7) true).
Proof.
  intros (Hm & Hv & Hs & Ho & Hl & Hi) Hcount HE HT.
  assert (Hlen1 : (p + 7 ≤ length data)%nat).
  { apply (f_equal length) in HE.
    rewrite length_drop, length_app, length_recordEntry in HE. lia. }
  assert (Hlen2 : (Z.to_nat (offset r) + 8 ≤ length data)%nat).
  { apply (f_equal length) in HT.
    rewrite length_drop, length_app, length_recordTail in HT. lia. }
  unfold recordEntry in HE. unfold recordTail in HT.
  rewrite <- !app_assoc in HE. rewrite <- !app_assoc in HT.
  unfold readShaderRecord.
  destruct (sread_front data p (le_bytes 1 (model r)) _ [0] HE eq_refl)
    as [R1 D1].
  rewrite le_bytes_length in R1, D1. rewrite R1.
  destruct (sread_front data (p + 1) (le_bytes 1 (variant r)) _ [0] D1 eq_refl)
    as [R2 D2].
  rewrite le_bytes_length in R2, D2. rewrite R2.
  destruct (sread_front data (p + 1 + 1) (le_bytes 1 (stage r)) _ [0] D2 eq_refl)
    as [R3 D3].
  rewrite le_bytes_length in R3, D3. rewrite R3.
  destruct (sread_front data (p + 1 + 1 + 1) (le_bytes 4 (offset r)) _
              (replicate 4 0) D3 eq_refl) as [R4 D4].
  rewrite le_bytes_length in R4, D4. rewrite R4.
  cbn [spos]. rewrite le_value_4 by done.
  assert (Hseek : ∀ q (pos : Z), 0 ≤ pos ≤ Z.of_nat (length data) →
            sseekg (mkIstream data q true) pos
            = mkIstream data (Z.to_nat pos) true).
  { intros q pos Hpos. unfold sseekg. cbn [sgood sdata spos].
    by rewrite decide_True. }
  rewrite Hseek by lia.
  destruct (sread_front data (Z.to_nat (offset r))
              (le_bytes 4 (stringLength r)) _ (replicate 4 0) HT eq_refl)
    as [R5 D5].
  rewrite le_bytes_length in R5, D5. rewrite R5.
  destruct (sread_front data (Z.to_nat (offset r) + 4)
              (le_bytes 4 (Z.of_nat (length (lineIndices r)))) _
              (replicate 4 0) D5 eq_refl) as [R6 D6].
  rewrite le_bytes_length in R6, D6. rewrite R6.
  cbn [sgood]. rewrite le_value_4 by lia. rewrite Nat2Z.id.
  assert (Hn : length (concat (map (le_bytes 2) (lineIndices r)))
               = (2 * length (lineIndices r))%nat)
    by apply length_le_bytes_concat.
  destruct (sread_front data (Z.to_nat (offset r) + 4 + 4)
              (concat (map (le_bytes 2) (lineIndices r))) restT
              (replicate (2 * length (lineIndices r)) 0) D6)
    as [R7 D7]; [by rewrite length_replicate|].
  rewrite Hn in R7. rewrite R7.
  rewrite Hseek by lia.
  rewrite Nat2Z.id, !le_value_1, le_value_4, u16s_le_bytes by done.
  do 3 f_equal. lia.
Qed.

Lemma entry_at_drop records i r :
  records !! i = Some r →
  drop (8 + 7 * i) (matPayload records)
  = recordEntry r
    ++ concat (map recordEntry (drop (S i) records))
    ++ concat (map recordTail records).
Proof.
  intros Hi. unfold matPayload.
  rewrite (concat_records_split recordEntry records i r Hi).
  rewrite <- !app_assoc.
  rewrite (app_assoc (le_bytes 8 _)).
  apply drop_app_length'.
  rewrite length_app, le_bytes_length,
    (length_concat_const recordEntry 7) by apply length_recordEntry.
  rewrite length_take. apply lookup_lt_Some in Hi. lia.
Qed.

Lemma length_lineIndices_bound records i r :
  records !! i = Some r →
  Z.of_nat (length (matPayload records)) < 2 ^ 32 →
  Z.of_nat (length (lineIndices r)) < 2 ^ 32.
Proof.
  intros Hi. rewrite length_matPayload.
  rewrite (concat_records_split recordTail records i r Hi).
  rewrite !length_app, length_recordTail. lia.
Qed.

Lemma readShaderRecords_at records :
  Forall record_fits records →
  tails_at records →
  Z.of_nat (length (matPayload records)) < 2 ^ 32 →
  ∀ k i, (i + k = length records)%nat →
    readShaderRecords k (mkIstream (matPayload records) (8 + 7 * i) true)
    = Some (map stored (drop i records)).
Proof.
  intros Hfits Htails Hlt. induction k as [|k IH]; intros i Hik.
  - by rewrite drop_ge by lia.
  - destruct (lookup_lt_is_Some_2 records i ltac:(lia)) as [r Hi].
    cbn [readShaderRecords].
    rewrite (readShaderRecord_at _ _ r _ _
               (proj1 (Forall_forall _ _) Hfits r (list_elem_of_lookup_2 _ _ _ Hi))
               (length_lineIndices_bound _ _ _ Hi Hlt)
               (entry_at_drop _ _ _ Hi) (tails_at_drop _ _ _ Htails Hi)).
    cbn [mbind option_bind].
    replace (8 + 7 * i + 7)%nat with (8 + 7 * S i)%nat by lia.
    rewrite IH by lia. cbn [mbind option_bind].
    by rewrite (drop_S _ _ _ Hi).
Qed.

(** The constructor on a container that holds the payloads of given
    lines and records. *)
Lemma ShaderIndex_new_payloads
    (dictTag matTag : Z) (cc : ChunkContainer)
    (lines : list string) (records : list ShaderRecord)
    (dictStart dictSize matStart : nat) (rest : list Z) :
  ccChunks cc !! dictTag = Some (dictStart, dictSize) →
  drop dictStart (ccData cc) = dictPayload lines ++ rest →
  ccChunks cc !! matTag = Some (matStart, length (matPayload records)) →
  take (length (matPayload records)) (drop matStart (ccData cc))
  = matPayload records →
  Forall (fun line => UberzMore.nul_free line = true) lines →
  Z.of_nat (length lines) < 2 ^ 32 →
  Forall record_fits records →
  tails_at records →
  Z.of_nat (length (matPayload records)) < 2 ^ 32 →
  ShaderIndex_new dictTag matTag cc
  = Some (mkShaderIndex dictTag matTag (map stored records) lines).
Proof.
  intros Hd Hdict Hm Hmat Hnul Hcount Hfits Htails Hlt.
  unfold ShaderIndex_new, getChunkStart, getChunkEnd.
  rewrite Hd, Hm. cbn [fmap option_fmap option_map mbind option_bind fst snd].
  rewrite Hdict.
  case_guard as Hg;
    [|unfold dictPayload in Hg; rewrite !length_app, le_bytes_length in Hg; lia].
  cbn [mbind option_bind mret option_ret]. unfold dictPayload.
  rewrite <- !app_assoc.
  rewrite take_app_length' by (by rewrite le_bytes_length).
  rewrite drop_app_length' by (by rewrite le_bytes_length).
  rewrite le_value_4 by lia. rewrite Nat2Z.id.
  rewrite readLines_c_str by done. cbn [mbind option_bind].
  replace (matStart + length (matPayload records) - matStart)%nat
    with (length (matPayload records)) by lia.
  rewrite Hmat. unfold istream_of.
  destruct (sread_front (matPayload records) 0
              (le_bytes 8 (Z.of_nat (length records)))
              (concat (map recordEntry records) ++ concat (map recordTail records))
              (replicate 8 0) eq_refl eq_refl) as [R _].
  rewrite le_bytes_length in R. rewrite R. cbn [sgood].
  case_guard as Hg'; [|done]. cbn [mbind option_bind mret option_ret].
  rewrite length_matPayload in Hlt.
  rewrite le_value_8 by lia. rewrite Nat2Z.id.
  change (0 + 8)%nat with (8 + 7 * 0)%nat.
  rewrite (readShaderRecords_at records Hfits Htails) by (rewrite ?length_matPayload; lia).
  by rewrite drop_0.
Qed.

(** X19: the constructor of [ShaderIndex] reads back what [writeChunks]
    writes.  On a container whose dictionary chunk and material chunk
    hold the payloads written for a list of lines and a list of records,
    the constructor builds an index with these lines and these records
    (without their texts, which the package does not hold), provided no
    line holds the terminator, every field fits its width, the material
    chunk fits its size field and every offset leads to the line indices
    of its own record. *)
Theorem ShaderIndex_reads_back
    (dictTag matTag : Z) (cc : ChunkContainer)
    (lines : list string) (records : list ShaderRecord)
    (dictStart dictSize matStart : nat) (rest : list Z) :
  ccChunks cc !! dictTag = Some (dictStart, dictSize) →
  drop dictStart (ccData cc) = dictPayload lines ++ rest →
  ccChunks cc !! matTag = Some (matStart, length (matPayload records)) →
  take (length (matPayload records)) (drop matStart (ccData cc))
  = matPayload records →
  Forall (fun line => UberzMore.nul_free line = true) lines →
  Z.of_nat (length lines) < 2 ^ 32 →
  Forall record_fits records →
  tails_at records →
  Z.of_nat (length (matPayload records)) < 2 ^ 32 →
  ShaderIndex_new dictTag matTag cc
  = Some (mkShaderIndex dictTag matTag (map stored records) lines).
Proof.
  intros Hd Hdict Hm Hmat Hnul Hcount Hfits Htails Hlt.
  by apply (ShaderIndex_new_payloads dictTag matTag cc lines records dictStart
              dictSize matStart rest).
Qed.

(** *** The outcomes of a rewrite *)

Section RewriteOutcomes.
Variables MaterialGlsl MaterialMetal MaterialSpirv : Z.
Variables DictionaryText DictionarySpirv Unknown : Z.
Variable unflatten : ChunkContainer → Z → option (list (list Z)).
Variable flattenDictionary : list (list Z) → nat → list Z.
Variable compileSpirv : Z → Z → string → option (list Z).

Lemma replaceSpirv_outcomes r cc shaderModel variant_ stage_ source ok r' :
  replaceSpirv unflatten flattenDictionary compileSpirv r cc
    shaderModel variant_ stage_ source = Some (ok, r') →
  (ok = false ∧ r' = r ∧ compileSpirv shaderModel stage_ source = None)
  ∨ (ok = true ∧ ∃ data, r' = setEdited r data).
Proof.
  unfold replaceSpirv.
  destruct (compileSpirv shaderModel stage_ source) as [spirv|];
    [|intros [= <- <-]; by left].
  intros H. right.
  destruct (cloneChunks _ _ _) as [copied|]; [|done].
  cbn [mbind option_bind] in H.
  destruct (BlobIndex_new _ _ _ _) as [bidx|]; [|done].
  cbn [mbind option_bind] in H.
  destruct (BlobIndex_isEmpty bidx).
  { injection H as <- <-. split; [done|]. by eexists. }
  destruct (BlobIndex_replaceShader _ _ _ _ _) as [[bidx' log]|]; [|done].
  cbn [mbind option_bind] in H.
  destruct (BlobIndex_writeChunks _ _ _) as [[bidx'' out]|]; [|done].
  cbn [mbind option_bind] in H.
  injection H as <- <-. split; [done|]. by eexists.
Qed.

(** X20: a rewrite that returns false has changed nothing, and one that
    returns true has stored an edited package and changed nothing else.
    [replaceShaderSource] returns false only when the package does not
    parse, when it lacks the material or the dictionary chunk, or, on the
    SPIR-V path, when the source does not compile; the replacer is then
    as it was.  In all other cases that are defined it returns true and
    the replacer differs from the one before in its edited package
    only. *)
Theorem rewrite_outcomes
    (r : ShaderReplacer) (shaderModel variant_ stage_ : Z) (source : string)
    (ok : bool) (r' : ShaderReplacer) :
  replaceShaderSource DictionarySpirv unflatten flattenDictionary compileSpirv
    r shaderModel variant_ stage_ source = Some (ok, r') →
  (ok = false ∧ r' = r
   ∧ (parse (mOriginalPackage r) = None
      ∨ (∃ cc, parse (mOriginalPackage r) = Some cc
               ∧ (hasChunk cc (mMaterialTag r) = false
                  ∨ hasChunk cc (mDictionaryTag r) = false))
      ∨ (mDictionaryTag r = DictionarySpirv
         ∧ compileSpirv shaderModel stage_ source = None)))
  ∨ (ok = true ∧ ∃ data, r' = setEdited r data).
Proof.
  unfold replaceShaderSource.
  destruct (parse (mOriginalPackage r)) as [cc|] eqn:Hparse;
    [|intros [= <- <-]; left; by repeat split; try left].
  destruct (hasChunk cc (mMaterialTag r)) eqn:Hmat; cbn [negb orb].
  2:{ intros [= <- <-]. left. split; [done|]. split; [done|].
      right. left. exists cc. split; [done|]. by left. }
  destruct (hasChunk cc (mDictionaryTag r)) eqn:Hdict; cbn [negb].
  2:{ intros [= <- <-]. left. split; [done|]. split; [done|].
      right. left. exists cc. split; [done|]. by right. }
  case_decide as Hspirv.
  - intros H. apply replaceSpirv_outcomes in H as [(-> & -> & Hc)|H].
    + left. split; [done|]. split; [done|]. right. right. done.
    + by right.
  - intros H. right.
    destruct (cloneChunks _ _ _) as [copied|]; [|done].
    cbn [mbind option_bind] in H.
    destruct (ShaderIndex_new _ _ _) as [idx|]; [|done].
    cbn [mbind option_bind] in H.
    destruct (isEmpty idx).
    { injection H as <- <-. split; [done|]. by eexists. }
    destruct (replaceShader idx shaderModel variant_ stage_ source)
      as [[idx' log]|]; [|done].
    cbn [mbind option_bind] in H.
    injection H as <- <-. split; [done|]. by eexists.
Qed.

End RewriteOutcomes.

(** *** The blob index *)

Lemma addBlob_spec blobs blob blobs' i :
  addBlob blobs blob = (blobs', i) →
  (∃ ext, blobs' = blobs ++ ext)
  ∧ 0 ≤ i ∧ blobs' !! Z.to_nat i = Some blob
  ∧ (NoDup blobs → NoDup blobs').
Proof.
  unfold addBlob.
  destruct (list_find (fun b => b = blob) blobs) as [[k b]|] eqn:E.
  - intros [= <- <-]. apply list_find_Some in E as (Hk & -> & _).
    split; [exists []; by rewrite app_nil_r|].
    split; [lia|]. split; [by rewrite Nat2Z.id | done].
  - intros [= <- <-]. rewrite list_find_None in E.
    split; [by exists [blob]|]. split; [lia|].
    split; [rewrite Nat2Z.id; by apply list_lookup_middle|].
    intros Hnd. apply NoDup_app. split; [done|].
    split; [|apply NoDup_singleton].
    intros b Hb Hb'. apply list_elem_of_singleton in Hb' as ->.
    rewrite Forall_forall in E. by apply (E blob Hb).
Qed.

Lemma consolidate_spec dataBlobs records :
  ∀ blobs records' blobs',
    consolidate dataBlobs records blobs = Some (records', blobs') →
    Z.of_nat (length blobs') ≤ 2 ^ 32 →
    (∃ ext, blobs' = blobs ++ ext)
    ∧ (NoDup blobs → NoDup blobs')
    ∧ Forall2
        (fun r r' =>
           bmodel r' = bmodel r ∧ bvariant r' = bvariant r
           ∧ bstage r' = bstage r
           ∧ ∃ src, dataBlobs !! Z.to_nat (blobIndex r) = Some src
                    ∧ 0 ≤ blobIndex r'
                    ∧ blobs' !! Z.to_nat (blobIndex r') = Some (blobWords src))
        records records'.
Proof.
  induction records as [|r rest IH]; intros blobs records' blobs' H Hlen;
    simpl in H.
  - injection H as <- <-.
    split; [exists []; by rewrite app_nil_r|]. split; [done | constructor].
  - destruct (dataBlobs !! Z.to_nat (blobIndex r)) as [src|] eqn:Hsrc; [|done].
    cbn [mbind option_bind] in H.
    destruct (addBlob blobs (blobWords src)) as [blobs1 i] eqn:Hadd.
    destruct (consolidate dataBlobs rest blobs1) as [[rest' blobs2]|] eqn:Hrest;
      [|done].
    cbn [mbind option_bind] in H. injection H as <- <-.
    destruct (addBlob_spec _ _ _ _ Hadd) as ([ext1 ->] & Hi0 & Hi & Hnd1).
    destruct (IH _ _ _ Hrest Hlen) as ([ext2 ->] & Hnd2 & Hall).
    split; [exists (ext1 ++ ext2); by rewrite <- app_assoc|].
    split; [auto|].
    constructor; [|done]. cbn [bmodel bvariant bstage blobIndex].
    repeat (split; [done|]). exists src. split; [done|].
    assert (Hlt : i < 2 ^ 32).
    { apply lookup_lt_Some in Hi. rewrite !length_app in Hlen.
      rewrite length_app in Hi. lia. }
    unfold wrap32. rewrite Z.mod_small by lia.
    split; [done|]. by apply lookup_app_l_Some.
Qed.

Lemma consolidate_NoDup dataBlobs records :
  ∀ blobs records' blobs',
    consolidate dataBlobs records blobs = Some (records', blobs') →
    NoDup blobs → NoDup blobs'.
Proof.
  induction records as [|r rest IH]; intros blobs records' blobs' H Hnd;
    simpl in H.
  - by injection H as <- <-.
  - destruct (dataBlobs !! Z.to_nat (blobIndex r)) as [src|]; [|done].
    cbn [mbind option_bind] in H.
    destruct (addBlob blobs (blobWords src)) as [blobs1 i] eqn:Hadd.
    destruct (consolidate dataBlobs rest blobs1) as [[rest' blobs2]|] eqn:Hrest;
      [|done].
    cbn [mbind option_bind] in H. injection H as <- <-.
    eapply IH; [exact Hrest|].
    by apply (addBlob_spec _ _ _ _ Hadd).
Qed.

(** X21: [BlobIndex::writeChunks] merges equal blobs and keeps what every
    record points at.  The call appends the flattened dictionary of the
    merged blobs and a material chunk whose declared size is the size of
    its payload; the merged dictionary holds no blob twice; the records
    keep their keys and their order, and the new blob index of each names,
    in the merged dictionary, the whole words of the blob its old index
    named in the blobs of the index.  The blobs of the index itself stay
    as they were. *)
Theorem BlobIndex_writeChunks_consolidates
    (flattenDictionary : list (list Z) → nat → list Z)
    (idx idx' : BlobIndex) (stream out : list Z) :
  BlobIndex_writeChunks flattenDictionary idx stream = Some (idx', out) →
  ∃ blobs,
    out = stream ++ flattenDictionary blobs (length stream mod 8)%nat
          ++ chunk_bytes (bMatTag idx) (blobMatPayload (bShaderRecords idx'))
    ∧ NoDup blobs
    ∧ mDataBlobs idx' = mDataBlobs idx
    ∧ (Z.of_nat (length blobs) ≤ 2 ^ 32 →
       Forall2
         (fun r r' =>
            bmodel r' = bmodel r ∧ bvariant r' = bvariant r
            ∧ bstage r' = bstage r
            ∧ ∃ src, mDataBlobs idx !! Z.to_nat (blobIndex r) = Some src
                     ∧ 0 ≤ blobIndex r'
                     ∧ blobs !! Z.to_nat (blobIndex r') = Some (blobWords src))
         (bShaderRecords idx) (bShaderRecords idx')).
Proof.
  unfold BlobIndex_writeChunks.
  destruct (consolidate (mDataBlobs idx) (bShaderRecords idx) [])
    as [[records blobs]|] eqn:E; [|done].
  cbn [mbind option_bind]. intros [= <- <-]. exists blobs.
  cbn [bShaderRecords mDataBlobs].
  split.
  { assert (Hsize :
      le_bytes 4 (wrap32 (8 + Z.of_nat (length records) * (1 + 1 + 1 + 4)))
      = le_bytes 4 (Z.of_nat (length (blobMatPayload records)))).
    { rewrite le_bytes_wrap32. f_equal. unfold blobMatPayload.
      rewrite length_app, le_bytes_length,
        (length_concat_const blobRecordEntry 7) by apply length_blobRecordEntry.
      lia. }
    unfold chunk_bytes. rewrite <- Hsize. unfold blobMatPayload.
    by rewrite <- ?app_assoc. }
  assert (Hnd : NoDup blobs)
    by (apply (consolidate_NoDup _ _ _ _ _ E); constructor).
  split; [done|]. split; [done|].
  intros Hlen. by apply (consolidate_spec _ _ _ _ _ E Hlen).
Qed.

(** *** An edited index, written and read again *)

Lemma nul_free_app a b :
  UberzMore.nul_free (a +:+ b) = UberzMore.nul_free a && UberzMore.nul_free b.
Proof.
  unfold UberzMore.nul_free. induction a as [|c a IH]; [done|].
  rewrite append_cons. simpl. rewrite IH. by rewrite andb_assoc.
Qed.

Lemma splitLines_from_nul_free text :
  ∀ line, UberzMore.nul_free text = true → UberzMore.nul_free line = true →
    Forall (fun l => UberzMore.nul_free l = true) (splitLines_from text line).
Proof.
  induction text as [|c text IH]; intros line Ht Hl; simpl.
  - by constructor.
  - unfold UberzMore.nul_free in Ht. simpl in Ht.
    apply andb_true_iff in Ht as [Hc Ht].
    destruct (Ascii.eqb c newline).
    + constructor; [done|]. destruct text; [constructor|]. by apply IH.
    + apply IH; [done|]. rewrite nul_free_app, Hl. unfold UberzMore.nul_free.
      simpl. by rewrite Hc.
Qed.

Lemma splitLines_nul_free text :
  UberzMore.nul_free text = true →
  Forall (fun l => UberzMore.nul_free l = true) (splitLines text).
Proof.
  intros Ht. destruct text as [|c text]; [constructor|].
  unfold splitLines. by apply splitLines_from_nul_free.
Qed.

Lemma derefLines_nul_free (lines : list string) indices :
  Forall (fun l => UberzMore.nul_free l = true) lines →
  UberzMore.nul_free (derefLines lines indices) = true.
Proof.
  intros Hl. unfold derefLines.
  assert (H : ∀ acc, UberzMore.nul_free acc = true →
    UberzMore.nul_free
      (fold_left (fun text index =>
           (text +:+ default EmptyString (lines !! Z.to_nat index))
           +:+ String newline EmptyString) indices acc) = true).
  { induction indices as [|i indices IH]; intros acc Hacc; [done|].
    cbn [fold_left]. apply IH. rewrite !nul_free_app, Hacc.
    destruct (lines !! Z.to_nat i) as [l|] eqn:E; simpl; [|done].
    rewrite Forall_forall in Hl.
    rewrite (Hl l (list_elem_of_lookup_2 _ _ _ E)). done. }
  by apply H.
Qed.

Lemma decodeRecords_nul_free lines records :
  Forall (fun l => UberzMore.nul_free l = true) lines →
  (decodeRecords lines records).2 = true →
  Forall (fun r => UberzMore.nul_free (decodedShaderText r) = true)
    (decodeRecords lines records).1.
Proof.
  intros Hl. induction records as [|r rest IH]; [constructor|].
  simpl. destruct (forallb _ (lineIndices r)); [|done].
  destruct (decodeRecords lines rest) as [rest' ok]. simpl in *.
  intros ->. constructor; [|by apply IH].
  by apply derefLines_nul_free.
Qed.

Lemma replaceText_nul_free shaderModel variant_ stage_ source records :
  UberzMore.nul_free source = true →
  Forall (fun r => UberzMore.nul_free (decodedShaderText r) = true) records →
  Forall (fun r => UberzMore.nul_free (decodedShaderText r) = true)
    (replaceText shaderModel variant_ stage_ source records).
Proof.
  intros Hs. induction 1 as [|r rest Hr Hrest IH]; [constructor|].
  simpl. case_decide; constructor; done.
Qed.

Lemma encodeLines_new seeded newLines :
  ∀ table lines indices table' lines' indices' ok,
    encodeLines seeded newLines table lines indices
    = Some (table', lines', indices', ok) →
    ∀ l, l ∈ lines' → l ∈ lines ∨ l ∈ newLines.
Proof.
  induction newLines as [|newLine rest IH];
    intros table lines indices table' lines' indices' ok H l Hl; simpl in H.
  - injection H as <- <- <- <-. by left.
  - destruct (dangling seeded lines); [done|].
    destruct (table !! newLine).
    + destruct (IH _ _ _ _ _ _ _ H l Hl) as [?|?]; [by left|].
      right. by apply elem_of_cons; right.
    + case_decide.
      * injection H as <- <- <- <-. by left.
      * destruct (IH _ _ _ _ _ _ _ H l Hl) as [Hin|?].
        -- apply elem_of_app in Hin as [?|Hin]; [by left|].
           apply list_elem_of_singleton in Hin as ->. right.
           apply elem_of_cons. by left.
        -- right. by apply elem_of_cons; right.
Qed.

Lemma encodeRecords_nul_free seeded records :
  ∀ offset_ table lines records' lines' ok,
    encodeRecords seeded records offset_ table lines = Some (records', lines', ok) →
    Forall (fun r => UberzMore.nul_free (decodedShaderText r) = true) records →
    Forall (fun l => UberzMore.nul_free l = true) lines →
    Forall (fun l => UberzMore.nul_free l = true) lines'.
Proof.
  induction records as [|record rest IH];
    intros offset_ table lines records' lines' ok H Hr Hl; simpl in H.
  - by injection H as <- <- <-.
  - apply Forall_cons in Hr as [Hrec Hrest].
    destruct (encodeLines seeded (splitLines (decodedShaderText record)) table lines [])
      as [[[[table1 lines1] indices1] ok1]|] eqn:E; [|done].
    assert (Hl1 : Forall (fun l => UberzMore.nul_free l = true) lines1).
    { apply Forall_forall. intros l Hin.
      destruct (encodeLines_new _ _ _ _ _ _ _ _ _ E l Hin) as [H1|H1].
      - rewrite Forall_forall in Hl. by apply Hl.
      - pose proof (splitLines_nul_free _ Hrec) as Hs.
        rewrite Forall_forall in Hs. by apply Hs. }
    destruct ok1.
    + destruct (encodeRecords seeded rest _ table1 lines1)
        as [[[rest' lines2] ok2]|] eqn:E2; [|done].
      injection H as <- <- <-. by eapply IH.
    + by injection H as <- <- <-.
Qed.

Lemma decodeRecords_keys_fit lines records :
  Forall (fun r => 0 ≤ model r < 2 ^ 8 ∧ 0 ≤ variant r < 2 ^ 8
                   ∧ 0 ≤ stage r < 2 ^ 8) records →
  Forall (fun r => 0 ≤ model r < 2 ^ 8 ∧ 0 ≤ variant r < 2 ^ 8
                   ∧ 0 ≤ stage r < 2 ^ 8) (decodeRecords lines records).1.
Proof.
  induction 1 as [|r rest Hr Hrest IH]; [constructor|].
  simpl. destruct (forallb _ (lineIndices r)); [|by constructor].
  destruct (decodeRecords lines rest) as [rest' ok]. simpl in *.
  by constructor.
Qed.

Lemma replaceText_keys_fit shaderModel variant_ stage_ source records :
  Forall (fun r => 0 ≤ model r < 2 ^ 8 ∧ 0 ≤ variant r < 2 ^ 8
                   ∧ 0 ≤ stage r < 2 ^ 8) records →
  Forall (fun r => 0 ≤ model r < 2 ^ 8 ∧ 0 ≤ variant r < 2 ^ 8
                   ∧ 0 ≤ stage r < 2 ^ 8)
    (replaceText shaderModel variant_ stage_ source records).
Proof.
  induction 1 as [|r rest Hr Hrest IH]; [constructor|].
  simpl. case_decide; constructor; done.
Qed.

(** X22: a package edited once can be edited again.  When
    [replaceShader] succeeds on an index whose dictionary has at most
    65536 lines, none of which holds the terminator, whose keys fit one
    byte each and whose new source holds no terminator either, and the
    material chunk fits its size field, the constructor of [ShaderIndex],
    run on a container that holds the two chunks [writeChunks] writes for
    the index, builds that index again: the same lines, and the same
    records up to their texts. *)
Theorem edited_index_reads_back
    (idx : ShaderIndex) (shaderModel variant_ stage_ : Z) (source : string)
    (idx' : ShaderIndex) (cc : ChunkContainer)
    (dictStart dictSize matStart : nat) (rest : list Z) :
  Z.of_nat (length (mStringLines idx)) ≤ 65536 →
  Forall (fun line => UberzMore.nul_free line = true) (mStringLines idx) →
  UberzMore.nul_free source = true →
  Forall (fun r => 0 ≤ model r < 2 ^ 8 ∧ 0 ≤ variant r < 2 ^ 8
                   ∧ 0 ≤ stage r < 2 ^ 8) (mShaderRecords idx) →
  replaceShader idx shaderModel variant_ stage_ source = Some (idx', None) →
  Z.of_nat (length (matPayload (mShaderRecords idx'))) < 2 ^ 32 →
  ccChunks cc !! mDictTag idx = Some (dictStart, dictSize) →
  drop dictStart (ccData cc) = dictPayload (mStringLines idx') ++ rest →
  ccChunks cc !! mMatTag idx
  = Some (matStart, length (matPayload (mShaderRecords idx'))) →
  take (length (matPayload (mShaderRecords idx'))) (drop matStart (ccData cc))
  = matPayload (mShaderRecords idx') →
  ShaderIndex_new (mDictTag idx) (mMatTag idx) cc
  = Some (mkShaderIndex (mDictTag idx) (mMatTag idx)
            (map stored (mShaderRecords idx')) (mStringLines idx')).
Proof.
  intros Hlen Hnul Hsrc Hkeys Hrep Hsize Hd Hdict Hm Hmat.
  pose proof (replaceShader_tails_at _ _ _ _ _ _ Hrep Hsize) as Htails.
  revert Hrep. unfold replaceShader.
  pose proof (decodeRecords_nul_free (mStringLines idx) (mShaderRecords idx) Hnul)
    as Hdec.
  pose proof (decodeRecords_keys_fit (mStringLines idx) _ Hkeys) as Hdk.
  destruct (decodeRecords (mStringLines idx) (mShaderRecords idx))
    as [decoded ok].
  destruct ok; [|done]. cbn [fst snd] in *. specialize (Hdec eq_refl).
  destruct (encodeRecords _ _ _ _ (mStringLines idx))
    as [[[records lines] ok']|] eqn:E; [|done].
  destruct ok'; [|done]. intros [= <-].
  cbn [mShaderRecords mStringLines] in *.
  destruct (encodeRecords_spec _ _ _ _ _ _ _ E (buildTable_names _ Hlen))
    as (Hext & Hall).
  destruct (encodeRecords_lines _ _ _ _ _ _ _ _ E) as (Hle & _ & _).
  specialize (Hle Hlen).
  pose proof (encodeRecords_nul_free _ _ _ _ _ _ _ _ E
                (replaceText_nul_free _ _ _ _ _ Hsrc Hdec) Hnul) as Hnul'.
  pose proof (replaceText_keys_fit (shaderModel mod 2 ^ 8) variant_ stage_
                source _ Hdk) as Hrk.
  apply (ShaderIndex_new_payloads _ _ cc lines records dictStart dictSize
           matStart rest); try done; [lia|].
  apply Forall_forall. intros r' Hr'.
  apply list_elem_of_lookup_1 in Hr' as [i Hi].
  destruct (Forall2_lookup_r _ _ _ _ _ Hall Hi) as (r & Hr & Hre).
  destruct Hre as (Hm' & Hv' & Hs' & _ & Hsl & Hidx).
  rewrite Forall_forall in Hrk.
  destruct (Hrk r (list_elem_of_lookup_2 _ _ _ Hr)) as (Km & Kv & Ks).
  unfold record_fits. rewrite Hm', Hv', Hs', Hsl.
  repeat (split; [lia|]).
  split.
  { rewrite (Htails i r' Hi). rewrite length_matPayload in Hsize. split; [lia|].
    rewrite (concat_records_split recordTail records i r' Hi) in Hsize.
    rewrite !length_app in Hsize. lia. }
  split; [apply Z.mod_pos_bound; lia|].
  clear -Hidx Hle. induction Hidx as [|j l js ls [H0 Hk] _ IH]; constructor; [|done].
  apply lookup_lt_Some in Hk. lia.
Qed.

Import PackageInputs RewriteInputs.

Lemma clone_block_output_witness :
  cloneChunks DictionaryText MaterialGlsl (stream_of [(tag_other, [1; 2; 3])])
  = Some (stream_of [(tag_other, [1; 2; 3]); (tag_other, [1; 2; 3])]).
Proof.
  apply (clone_block_output DictionaryText MaterialGlsl [(tag_other, [1; 2; 3])]).
  - discriminate.
  - constructor; [|constructor].
    split; [split; [discriminate | reflexivity] | reflexivity].
Defined.

Lemma decoding_error_keeps_chunks_witness :
  ∃ idx',
    replaceShader index_bad 1 7 0 new_source = Some (idx', Some msg_decoding)
    ∧ mStringLines idx' = mStringLines index_bad
    ∧ writeChunks idx' [7] = writeChunks index_bad [7].
Proof.
  apply (decoding_error_keeps_chunks index_bad 1 7 0 new_source record_bad 5 [7]).
  - apply elem_of_cons. by left.
  - apply elem_of_cons. right. apply elem_of_cons. by left.
  - discriminate.
Defined.

Lemma replaceShader_reencodes_witness :
  ∃ ext, mStringLines index_edited = (mStringLines index_small ++ ext)%list.
Proof.
  apply (replaceShader_reencodes index_small 1 7 0 new_source index_edited).
  - discriminate.
  - reflexivity.
Defined.

Lemma replaceShader_offsets_witness :
  drop (Z.to_nat (offset record_edited)) (matPayload (mShaderRecords index_edited))
  = (recordTail record_edited
     ++ concat (map recordTail (drop 1 (mShaderRecords index_edited))))%list.
Proof.
  apply (replaceShader_offsets index_small 1 7 0 new_source index_edited 0
           record_edited); reflexivity.
Defined.

Lemma ShaderIndex_reads_back_witness :
  ShaderIndex_new DictionaryText MaterialGlsl container_edited
  = Some (mkShaderIndex DictionaryText MaterialGlsl
            (map stored [record_edited]) lines_edited).
Proof.
  apply (ShaderIndex_reads_back DictionaryText MaterialGlsl container_edited
           lines_edited [record_edited] 12 70 94
           (chunk_bytes MaterialGlsl (matPayload [record_edited]))).
  - reflexivity.
  - reflexivity.
  - reflexivity.
  - reflexivity.
  - repeat constructor.
  - reflexivity.
  - constructor; [|constructor].
    repeat split; try discriminate; try reflexivity.
    constructor; [|constructor]. split; [discriminate | reflexivity].
  - intros [|i] record Hi; [|done]. injection Hi as <-. reflexivity.
  - reflexivity.
Defined.

Lemma rewrite_outcomes_witness :
  (false = false ∧ replacer [1; 2; 3] = replacer [1; 2; 3]
   ∧ (parse (mOriginalPackage (replacer [1; 2; 3])) = None
      ∨ (∃ cc, parse (mOriginalPackage (replacer [1; 2; 3])) = Some cc
               ∧ (hasChunk cc (mMaterialTag (replacer [1; 2; 3])) = false
                  ∨ hasChunk cc (mDictionaryTag (replacer [1; 2; 3])) = false))
      ∨ (mDictionaryTag (replacer [1; 2; 3]) = DictionarySpirv
         ∧ no_compile 1 0 new_source = None)))
  ∨ (false = true ∧ ∃ data, replacer [1; 2; 3] = setEdited (replacer [1; 2; 3]) data).
Proof.
  apply (rewrite_outcomes DictionarySpirv no_unflatten no_flatten no_compile
           (replacer [1; 2; 3]) 1 7 0 new_source false (replacer [1; 2; 3])).
  reflexivity.
Defined.

Lemma BlobIndex_writeChunks_consolidates_witness :
  ∃ blobs,
    [7; 82; 73; 80; 83; 95; 84; 65; 77; 22; 0; 0; 0; 2; 0; 0; 0; 0; 0;
     0; 0; 1; 0; 0; 0; 0; 0; 0; 1; 1; 0; 0; 0; 0; 0]
    = ([7] ++ no_flatten blobs (length [7] mod 8)%nat
       ++ chunk_bytes (bMatTag index_shared)
            (blobMatPayload (bShaderRecords index_shared)))%list
    ∧ NoDup blobs
    ∧ mDataBlobs index_shared = mDataBlobs index_shared
    ∧ (Z.of_nat (length blobs) ≤ 2 ^ 32 →
       Forall2
         (fun r r' =>
            bmodel r' = bmodel r ∧ bvariant r' = bvariant r
            ∧ bstage r' = bstage r
            ∧ ∃ src, mDataBlobs index_shared !! Z.to_nat (blobIndex r) = Some src
                     ∧ 0 ≤ blobIndex r'
                     ∧ blobs !! Z.to_nat (blobIndex r') = Some (blobWords src))
         (bShaderRecords index_shared) (bShaderRecords index_shared)).
Proof.
  apply (BlobIndex_writeChunks_consolidates no_flatten index_shared index_shared
           [7]).
  reflexivity.
Defined.

Lemma edited_index_reads_back_witness :
  ShaderIndex_new (mDictTag index_small) (mMatTag index_small) container_edited
  = Some (mkShaderIndex (mDictTag index_small) (mMatTag index_small)
            (map stored (mShaderRecords index_edited))
            (mStringLines index_edited)).
Proof.
  apply (edited_index_reads_back index_small 1 7 0 new_source index_edited
           container_edited 12 70 94
           (chunk_bytes MaterialGlsl (matPayload [record_edited]))).
  - discriminate.
  - repeat constructor.
  - reflexivity.
  - constructor; [|constructor]. repeat split; (discriminate || reflexivity).
  - reflexivity.
  - reflexivity.
  - reflexivity.
  - reflexivity.
  - reflexivity.
  - reflexivity.
Defined.

End MatdbgMoreFacts.

(** * From the spec file to the archive *)

Module SpecArchiveFacts.
Import Uberz UberzMore UberzFacts SpecFileFacts ArchiveRoundTrip.

Lemma isAlphaNumeric_not_nul c :
  isAlphaNumeric c = true → negb (Ascii.eqb c Ascii.zero) = true.
Proof.
  intros H. destruct (Ascii.eqb_spec c Ascii.zero) as [->|]; [done|done].
Qed.

Lemma identifier_nul_free s :
  string_forallb isAlphaNumeric s = true → nul_free s = true.
Proof.
  unfold nul_free. induction s as [|c s IH]; [done|]. simpl.
  intros H. apply andb_true_iff in H as [Hc Hs].
  by rewrite isAlphaNumeric_not_nul, IH.
Qed.

Lemma elem_of_allFlags entry mats :
  entry ∈ allFlags mats ↔ ∃ mat, mat ∈ mats ∧ entry ∈ mflags mat.
Proof.
  induction mats as [|m mats IH].
  - split; [intros H; by apply elem_of_nil in H|].
    intros (mat & H & _). by apply elem_of_nil in H.
  - rewrite allFlags_cons, elem_of_app, IH. split.
    + intros [H|(mat & Hmat & H)].
      * exists m. split; [apply elem_of_cons; by left | done].
      * exists mat. split; [apply elem_of_cons; by right | done].
    + intros (mat & Hmat & H). apply elem_of_cons in Hmat as [->|Hmat].
      * by left.
      * right. by exists mat.
Qed.

Lemma elem_of_insert_list {A} (l : list A) i x y :
  y ∈ <[i := x]> l → y = x ∨ y ∈ l.
Proof.
  intros Hy. apply list_elem_of_lookup_1 in Hy as [j Hj].
  destruct (decide (i = j)) as [->|Hne].
  - left. apply list_lookup_insert_Some in Hj as [(_ & -> & _)|[? _]]; done.
  - right. rewrite list_lookup_insert_ne in Hj by done.
    by eapply list_elem_of_lookup_2.
Qed.

Section Names.
Variable robin_insert :
  list (string * ArchiveFeature) → string → ArchiveFeature
  → list (string * ArchiveFeature).
Hypothesis robin_insert_entries :
  ∀ fl k v, robin_insert fl k v ≡ₚ (k, v) :: fl.

(** X23: every flag name a spec file gives a material is a run of letters,
    digits and underscores.  If the names of all flags of the writer are
    such runs before a line, they are after every line [addSpecLine]
    accepts; [addMaterial] starts a material without flags.  No name
    then holds the terminator, which is what reading the archive back
    asks for. *)
Theorem accepted_line_keeps_identifiers
    (a a' : WritableArchive) (line : string) :
  addSpecLine robin_insert a line = Accepted a' →
  Forall (fun entry => string_forallb isAlphaNumeric (fst entry) = true)
    (allFlags (wMaterials a)) →
  Forall (fun entry => string_forallb isAlphaNumeric (fst entry) = true)
    (allFlags (wMaterials a'))
  ∧ Forall (fun entry => nul_free (fst entry) = true) (allFlags (wMaterials a')).
Proof.
  intros H Hall.
  assert (Hgoal : Forall (fun entry => string_forallb isAlphaNumeric (fst entry) = true)
                    (allFlags (wMaterials a'))).
  2:{ split; [done|]. eapply Forall_impl; [exact Hgoal|].
      intros entry. apply identifier_nul_free. }
  revert H. unfold addSpecLine.
  destruct (decide (wMaterialIndex a > -1)); [|done].
  destruct (wMaterials a !! Z.to_nat (wMaterialIndex a)) as [material|] eqn:Hmat;
    [|done].
  destruct (isSkipped line); [by intros [= <-]|].
  assert (Hkeep : ∀ material',
            mflags material' = mflags material →
            Forall (fun entry => string_forallb isAlphaNumeric (fst entry) = true)
              (allFlags (<[Z.to_nat (wMaterialIndex a) := material']> (wMaterials a)))).
  { intros material' Hfl. apply Forall_forall. intros entry Hin.
    apply elem_of_allFlags in Hin as (mat & Hmat' & Hin).
    rewrite Forall_forall in Hall. apply Hall, elem_of_allFlags.
    apply elem_of_insert_list in Hmat' as [->|Hmat'].
    - exists material. split; [by eapply list_elem_of_lookup_2|]. by rewrite <- Hfl.
    - by exists mat. }
  destruct (Keyword_test "BlendingMode" line);
    [|destruct (Keyword_test "ShadingModel" line)].
  - destruct (parseBlendingMode material _) as [[m' [s' c']]|[??]] eqn:Hp; [|done].
    cbn [fst snd]. destruct s'; [|done]. intros [= <-]. cbn [wMaterials].
    apply parseBlendingMode_inv in Hp as (? & ? & ? & ? & _ & _ & _ & _ & ->).
    by apply Hkeep.
  - destruct (parseShadingModel material _) as [[m' [s' c']]|[??]] eqn:Hp; [|done].
    cbn [fst snd]. destruct s'; [|done]. intros [= <-]. cbn [wMaterials].
    apply parseShadingModel_inv in Hp as (? & ? & ? & ? & _ & _ & _ & _ & ->).
    by apply Hkeep.
  - destruct (parseFeatureFlag robin_insert material _)
      as [[m' [s' c']]|[??]] eqn:Hp; [|done].
    cbn [fst snd]. destruct s'; [|done]. intros [= <-]. cbn [wMaterials].
    apply parseFeatureFlag_inv in Hp
      as (id & ws1 & ws2 & f & _ & _ & Hid & _ & _ & ->).
    apply Forall_forall. intros [k w] Hin. cbn [fst].
    apply elem_of_allFlags in Hin as (mat & Hmat' & Hin).
    rewrite Forall_forall in Hall.
    apply elem_of_insert_list in Hmat' as [->|Hmat'].
    + cbn [mflags] in Hin.
      destruct (decide (k = id)) as [->|Hne]; [done|].
      destruct (setFlag_entries robin_insert (mflags material) id f
                  robin_insert_entries) as (_ & Hother & _).
      apply (Hother k w Hne) in Hin.
      apply (Hall (k, w)), elem_of_allFlags. exists material.
      split; [by eapply list_elem_of_lookup_2 | done].
    + apply (Hall (k, w)), elem_of_allFlags. by exists mat.
Qed.

End Names.

Import Inputs SpecInputs.

Lemma accepted_line_keeps_identifiers_witness :
  Forall (fun entry => string_forallb isAlphaNumeric (fst entry) = true)
    (allFlags [material_A;
               mkMaterial "B" [9] [("normalMap", REQUIRED)]
                 INVALID_BLENDING INVALID_SHADING_MODEL])
  ∧ Forall (fun entry => nul_free (fst entry) = true)
      (allFlags [material_A;
                 mkMaterial "B" [9] [("normalMap", REQUIRED)]
                   INVALID_BLENDING INVALID_SHADING_MODEL]).
Proof.
  apply (accepted_line_keeps_identifiers insert_front (fun fl k v => reflexivity _)
           writer_AB
           (mkWritable 2 1
              [material_A;
               mkMaterial "B" [9] [("normalMap", REQUIRED)]
                 INVALID_BLENDING INVALID_SHADING_MODEL])
           "normalMap = required").
  - reflexivity.
  - repeat constructor.
Defined.

End SpecArchiveFacts.

(** * A text package, rewritten from end to end *)

Module TextRewriteFacts.
Import Matdbg MatdbgMore BytesFacts MatdbgFacts MatdbgMoreFacts.

(** *** Parsing a chunk stream *)

Lemma drop_stream_chunk pre t p post :
  drop (length pre) (pre ++ chunk_bytes t p ++ post) = chunk_bytes t p ++ post.
Proof. apply drop_app_length. Qed.

Lemma chunk_tag t p post :
  take 8 (chunk_bytes t p ++ post) = le_bytes 8 t.
Proof.
  unfold chunk_bytes. rewrite <- !app_assoc.
  by rewrite take_app_length' by (by rewrite le_bytes_length).
Qed.

Lemma chunk_size t p post :
  take 4 (drop 8 (chunk_bytes t p ++ post))
  = le_bytes 4 (Z.of_nat (length p)).
Proof.
  unfold chunk_bytes. rewrite <- !app_assoc.
  rewrite drop_app_length' by (by rewrite le_bytes_length).
  by rewrite take_app_length' by (by rewrite le_bytes_length).
Qed.

Lemma parseChunks_stream_of cs :
  Forall wf_chunk cs →
  ∀ fuel pre chunks,
    (length cs < fuel)%nat →
    parseChunks fuel (pre ++ stream_of cs) (length pre) chunks
    = Some (chunkTable (length pre) cs chunks).
Proof.
  induction 1 as [|[t p] cs [Ht Hp] Hwf IH]; intros fuel pre chunks Hfuel.
  - destruct fuel as [|fuel]; [simpl in Hfuel; lia|].
    cbn [parseChunks]. rewrite drop_app_length.
    by rewrite decide_True.
  - destruct fuel as [|fuel]; [simpl in Hfuel; lia|].
    simpl in Ht, Hp, Hfuel.
    cbn [parseChunks]. rewrite stream_of_cons. cbn [fst snd].
    rewrite drop_stream_chunk.
    assert (Hlen : length (chunk_bytes t p ++ stream_of cs)
                   = (12 + length p + length (stream_of cs))%nat)
      by (rewrite length_app, chunk_bytes_length; lia).
    rewrite decide_False.
    2:{ intros E. apply (f_equal length) in E. rewrite Hlen in E. simpl in E. lia. }
    rewrite decide_True by lia.
    rewrite chunk_tag, chunk_size.
    rewrite !le_value_le_bytes_small by (simpl; lia).
    rewrite Nat2Z.id.
    rewrite decide_True by lia.
    rewrite (app_assoc pre).
    replace (length pre + 12 + length p)%nat
      with (length (pre ++ chunk_bytes t p))
      by (rewrite length_app, chunk_bytes_length; lia).
    rewrite IH by lia. cbn [chunkTable fst snd].
    do 3 f_equal; rewrite length_app, chunk_bytes_length; lia.
Qed.

Lemma parse_stream_of cs :
  Forall wf_chunk cs →
  parse (stream_of cs) = Some (mkContainer (stream_of cs) (chunkTable 0 cs ∅)).
Proof.
  intros Hwf. unfold parse.
  rewrite (parseChunks_stream_of cs Hwf _ [] ∅); [done|].
  pose proof (stream_of_length cs). simpl. lia.
Qed.

Lemma chunkTable_notin cs :
  ∀ pos chunks t, t ∉ map fst cs →
    chunkTable pos cs chunks !! t = chunks !! t.
Proof.
  induction cs as [|c cs IH]; intros pos chunks t Hnot; [done|].
  cbn [chunkTable]. cbn [map] in Hnot. apply not_elem_of_cons in Hnot as [Hne Hnot].
  rewrite IH by done. by rewrite lookup_insert_ne.
Qed.

Lemma chunkTable_lookup pre :
  ∀ pos chunks t p post, t ∉ map fst post →
    chunkTable pos (pre ++ (t, p) :: post) chunks !! t
    = Some (pos + length (stream_of pre) + 12, length p)%nat.
Proof.
  induction pre as [|c pre IH]; intros pos chunks t p post Hnot.
  - cbn [app chunkTable fst snd]. rewrite chunkTable_notin by done.
    rewrite lookup_insert_eq. do 2 f_equal. simpl. lia.
  - cbn [app chunkTable]. rewrite IH by done.
    rewrite stream_of_cons, length_app, chunk_bytes_length. do 2 f_equal. lia.
Qed.

(** *** The rewrite *)

Lemma replaceShader_tags idx shaderModel variant_ stage_ source idx' log :
  replaceShader idx shaderModel variant_ stage_ source = Some (idx', log) →
  mDictTag idx' = mDictTag idx ∧ mMatTag idx' = mMatTag idx.
Proof.
  unfold replaceShader.
  destruct (decodeRecords (mStringLines idx) (mShaderRecords idx)) as [decoded ok].
  destruct ok; [|by intros [= <- <-]].
  destruct (encodeRecords _ _ _ _ (mStringLines idx))
    as [[[records lines] ok']|]; [|done].
  by intros [= <- <-].
Qed.

Lemma writeChunks_chunks idx stream :
  writeChunks idx stream
  = stream
    ++ chunk_bytes (mDictTag idx) (dictPayload (mStringLines idx))
    ++ chunk_bytes (mMatTag idx) (matPayload (mShaderRecords idx)).
Proof.
  unfold writeChunks, chunk_bytes.
  rewrite dictChunkSize_payload, matChunkSize_payload.
  unfold dictPayload, matPayload. by rewrite <- !app_assoc.
Qed.

Lemma filter_kept_others d m others c1 c2 :
  Forall (fun c => fst c ≠ d ∧ fst c ≠ m) others →
  kept d m c1 = false → kept d m c2 = false →
  List.filter (kept d m) (others ++ [c1; c2]) = others.
Proof.
  intros Hall H1 H2. induction Hall as [|c others [Hd Hm] _ IH].
  - simpl. by rewrite H1, H2.
  - cbn [app List.filter]. rewrite IH.
    unfold kept. rewrite bool_decide_eq_false_2 by tauto. done.
Qed.

Lemma length_lines_payload lines :
  (length lines ≤ length (concat (map c_str lines)))%nat.
Proof.
  induction lines as [|l lines IH]; simpl; [lia|].
  rewrite length_app, length_c_str. lia.
Qed.

Section TextRewrite.
Variables MaterialGlsl MaterialMetal MaterialSpirv : Z.
Variables DictionaryText DictionarySpirv Unknown : Z.
Variable unflatten : ChunkContainer → Z → option (list (list Z)).
Variable flattenDictionary : list (list Z) → nat → list Z.
Variable compileSpirv : Z → Z → string → option (list Z).

(** X24: the text path from end to end.  The package is a well-formed
    chunk stream that ends with the dictionary chunk and the material
    chunk, written for given lines and records, and holds no other chunk
    with one of their tags; the call of [replaceShader] on the index of
    these lines and records is defined and leaves the index [idx'].  Then
    [replaceShaderSource] returns true and the package it stores is the
    same chunk stream with the payloads of these two chunks replaced by
    those of [idx']: every other chunk is kept once, in order, and the two
    chunks are framed with the sizes of their new payloads. *)
Theorem text_package_rewritten
    (r : ShaderReplacer) (others : list (Z * list Z))
    (lines : list string) (records : list ShaderRecord)
    (shaderModel variant_ stage_ : Z) (source : string)
    (idx' : ShaderIndex) (log : option string) :
  mOriginalPackage r
  = stream_of (others ++ [(mDictionaryTag r, dictPayload lines);
                          (mMaterialTag r, matPayload records)]) →
  Forall wf_chunk (others ++ [(mDictionaryTag r, dictPayload lines);
                              (mMaterialTag r, matPayload records)]) →
  Forall (fun c => fst c ≠ mDictionaryTag r ∧ fst c ≠ mMaterialTag r) others →
  mDictionaryTag r ≠ mMaterialTag r →
  mDictionaryTag r ≠ DictionarySpirv →
  Forall (fun line => UberzMore.nul_free line = true) lines →
  Forall record_fits records →
  tails_at records →
  lines ≠ [] ∨ records ≠ [] →
  replaceShader
    (mkShaderIndex (mDictionaryTag r) (mMaterialTag r) (map stored records) lines)
    shaderModel variant_ stage_ source
  = Some (idx', log) →
  replaceShaderSource DictionarySpirv unflatten flattenDictionary compileSpirv
    r shaderModel variant_ stage_ source
  = Some (true,
          setEdited r
            (stream_of
               (others
                ++ [(mDictionaryTag r, dictPayload (mStringLines idx'));
                    (mMaterialTag r, matPayload (mShaderRecords idx'))]))).
Proof.
  intros Hpkg Hwf Hothers Hdm Hspirv Hnul Hfits Htails Hnonempty Hrep.
  set (d := mDictionaryTag r) in *. set (m := mMaterialTag r) in *.
  set (cs := others ++ [(d, dictPayload lines); (m, matPayload records)]) in *.
  set (idx := mkShaderIndex d m (map stored records) lines) in *.
  pose proof (parse_stream_of cs Hwf) as Hparse. rewrite <- Hpkg in Hparse at 1.
  set (cc := mkContainer (stream_of cs) (chunkTable 0 cs ∅)) in *.
  assert (Hwf' := Hwf). unfold cs in Hwf'.
  apply Forall_app in Hwf' as [_ Hwf'].
  apply Forall_cons in Hwf' as [[_ Hdsize] Hwf'].
  apply Forall_cons in Hwf' as [[_ Hmsize] _]. cbn [snd] in Hdsize, Hmsize.
  assert (Hd : ccChunks cc !! d
               = Some (length (stream_of others) + 12, length (dictPayload lines))%nat).
  { unfold cc, cs. cbn [ccChunks].
    rewrite (chunkTable_lookup others 0 ∅ d (dictPayload lines)
               [(m, matPayload records)]); [done|].
    cbn [map fst]. intros Hin. apply list_elem_of_singleton in Hin. done. }
  assert (Hm : ccChunks cc !! m
               = Some (length (stream_of (others ++ [(d, dictPayload lines)])) + 12,
                       length (matPayload records))%nat).
  { unfold cc, cs. cbn [ccChunks].
    replace (others ++ [(d, dictPayload lines); (m, matPayload records)])
      with ((others ++ [(d, dictPayload lines)]) ++ (m, matPayload records) :: [])
      by (by rewrite <- app_assoc).
    rewrite (chunkTable_lookup _ 0 ∅ m (matPayload records) []); [done|].
    apply not_elem_of_nil. }
  assert (Hdata : ccData cc
                  = stream_of others
                    ++ chunk_bytes d (dictPayload lines)
                    ++ chunk_bytes m (matPayload records)).
  { unfold cc, cs. cbn [ccData].
    by rewrite stream_of_app, !stream_of_cons, app_nil_r. }
  assert (Hidx : ShaderIndex_new d m cc = Some idx).
  { apply (ShaderIndex_new_payloads d m cc lines records
             (length (stream_of others) + 12) (length (dictPayload lines))
             (length (stream_of (others ++ [(d, dictPayload lines)])) + 12)
             (chunk_bytes m (matPayload records)) Hd); [|exact Hm| |done| |done|done|done].
    - rewrite Hdata. unfold chunk_bytes at 1.
      rewrite <- (app_assoc (le_bytes 8 d)), <- (app_assoc (le_bytes 4 _)).
      rewrite (app_assoc (le_bytes 8 d) (le_bytes 4 _)),
        (app_assoc (stream_of others)).
      apply drop_app_length'.
      rewrite !length_app, !le_bytes_length. lia.
    - rewrite Hdata, stream_of_app, stream_of_cons, app_nil_r. cbn [fst snd].
      unfold chunk_bytes at 3.
      rewrite (app_assoc (le_bytes 8 m)), (app_assoc (chunk_bytes d _)),
        (app_assoc (stream_of others)).
      rewrite drop_app_length'
        by (rewrite !length_app, !le_bytes_length; lia).
      by apply take_ge.
    - pose proof (length_lines_payload lines).
      unfold dictPayload in Hdsize. rewrite length_app in Hdsize. lia. }
  destruct (replaceShaderSource_text DictionarySpirv unflatten flattenDictionary
              compileSpirv r shaderModel variant_ stage_ source cc idx)
    as (copied & Hcopied & Hres); try done.
  { unfold hasChunk. fold m. by rewrite Hm. }
  { unfold hasChunk. fold d. by rewrite Hd. }
  rewrite Hres.
  assert (isEmpty idx = false) as ->.
  { unfold isEmpty, idx. apply bool_decide_eq_false_2.
    cbn [mStringLines mShaderRecords]. rewrite length_map. intros [H1 H2].
    destruct Hnonempty as [H|H]; apply H; by apply nil_length_inv. }
  rewrite Hrep. do 3 f_equal.
  fold d m in Hcopied. rewrite Hpkg in Hcopied.
  rewrite (cloneChunks_last_rewritten d m cs (m, matPayload records)) in Hcopied;
    [| done | unfold cs; by rewrite last_app | ].
  2:{ unfold kept. cbn [fst]. by rewrite bool_decide_eq_true_2 by (by right). }
  injection Hcopied as <-.
  unfold cs. rewrite filter_kept_others; [|done| |].
  2:{ unfold kept. cbn [fst]. by rewrite bool_decide_eq_true_2 by (by left). }
  2:{ unfold kept. cbn [fst]. by rewrite bool_decide_eq_true_2 by (by right). }
  rewrite writeChunks_chunks.
  destruct (replaceShader_tags idx shaderModel variant_ stage_ source idx' log Hrep)
    as [-> ->].
  by rewrite stream_of_app, !stream_of_cons, app_nil_r.
Qed.

End TextRewrite.

Import PackageInputs RewriteInputs.

Lemma text_package_rewritten_witness :
  replaceShaderSource DictionarySpirv no_unflatten no_flatten no_compile
    (replacer package_other_first) 1 7 0 new_source
  = Some (true,
          setEdited (replacer package_other_first)
            (stream_of
               ([(tag_other, [1; 2; 3])]
                ++ [(DictionaryText, dictPayload lines_edited);
                    (MaterialGlsl, matPayload [record_edited])]))).
Proof.
  apply (text_package_rewritten DictionarySpirv no_unflatten no_flatten no_compile
           (replacer package_other_first) [(tag_other, [1; 2; 3])]
           ["#version 310 es"; "void main(){}"]%string
           [mkShaderRecord 1 7 0 15 [0; 1] "" 31] 1 7 0 new_source
           index_edited None).
  - reflexivity.
  - repeat constructor; (discriminate || reflexivity).
  - constructor; [split; discriminate | constructor].
  - discriminate.
  - discriminate.
  - repeat constructor.
  - constructor; [|constructor].
    repeat split; try discriminate; try reflexivity.
    repeat constructor; (discriminate || reflexivity).
  - intros [|i] record Hi; [|done]. injection Hi as <-. reflexivity.
  - left. discriminate.
  - reflexivity.
Defined.

End TextRewriteFacts.

(** * The blob index, read back *)

Module BlobIndexFacts.
Import Matdbg MatdbgMore BytesFacts MatdbgFacts MatdbgMoreFacts ArchiveRoundTrip.

Lemma readBlobRecord_at data p r rest :
  blob_record_fits r →
  drop p data = blobRecordEntry r ++ rest →
  readBlobRecord (mkIstream data p true) = (r, mkIstream data (p + 7) true).
Proof.
  intros (Hm & Hv & Hs & Hb) HE.
  unfold blobRecordEntry in HE. rewrite <- !app_assoc in HE.
  unfold readBlobRecord.
  destruct (sread_front data p (le_bytes 1 (bmodel r)) _ [0] HE eq_refl)
    as [R1 D1].
  rewrite le_bytes_length in R1, D1. rewrite R1.
  destruct (sread_front data (p + 1) (le_bytes 1 (bvariant r)) _ [0] D1 eq_refl)
    as [R2 D2].
  rewrite le_bytes_length in R2, D2. rewrite R2.
  destruct (sread_front data (p + 1 + 1) (le_bytes 1 (bstage r)) _ [0] D2 eq_refl)
    as [R3 D3].
  rewrite le_bytes_length in R3, D3. rewrite R3.
  destruct (sread_front data (p + 1 + 1 + 1) (le_bytes 4 (blobIndex r)) _
              (replicate 4 0) D3 eq_refl) as [R4 D4].
  rewrite le_bytes_length in R4, D4. rewrite R4.
  rewrite !le_value_1, le_value_4 by done.
  destruct r. cbn. do 2 f_equal. lia.
Qed.

Lemma blob_entry_at_drop records i r :
  records !! i = Some r →
  drop (8 + 7 * i) (blobMatPayload records)
  = blobRecordEntry r ++ concat (map blobRecordEntry (drop (S i) records)).
Proof.
  intros Hi. unfold blobMatPayload.
  rewrite (concat_records_split blobRecordEntry records i r Hi).
  rewrite (app_assoc (le_bytes 8 _)).
  apply drop_app_length'.
  rewrite length_app, le_bytes_length,
    (length_concat_const blobRecordEntry 7) by apply length_blobRecordEntry.
  rewrite length_take. apply lookup_lt_Some in Hi. lia.
Qed.

Lemma readBlobRecords_at records :
  Forall blob_record_fits records →
  ∀ k i, (i + k = length records)%nat →
    readBlobRecords k (mkIstream (blobMatPayload records) (8 + 7 * i) true)
    = drop i records.
Proof.
  intros Hfits. induction k as [|k IH]; intros i Hik.
  - by rewrite drop_ge by lia.
  - destruct (lookup_lt_is_Some_2 records i ltac:(lia)) as [r Hi].
    cbn [readBlobRecords].
    rewrite (readBlobRecord_at _ _ r _
               (proj1 (Forall_forall _ _) Hfits r (list_elem_of_lookup_2 _ _ _ Hi))
               (blob_entry_at_drop _ _ _ Hi)).
    replace (8 + 7 * i + 7)%nat with (8 + 7 * S i)%nat by lia.
    rewrite IH by lia. by rewrite (drop_S _ _ _ Hi).
Qed.

(** X25: the constructor of [BlobIndex] reads back the material chunk
    [BlobIndex::writeChunks] writes.  On a container whose dictionary
    unflattens to given blobs and whose material chunk holds the payload
    written for given records, the constructor builds the index with these
    blobs and these records, provided every field fits its width. *)
Theorem BlobIndex_reads_back
    (unflatten : ChunkContainer → Z → option (list (list Z)))
    (dictTag matTag : Z) (cc : ChunkContainer)
    (blobs : list (list Z)) (records : list BlobRecord) (matStart : nat) :
  unflatten cc dictTag = Some blobs →
  ccChunks cc !! matTag = Some (matStart, length (blobMatPayload records)) →
  take (length (blobMatPayload records)) (drop matStart (ccData cc))
  = blobMatPayload records →
  Forall blob_record_fits records →
  Z.of_nat (length records) < 2 ^ 64 →
  BlobIndex_new unflatten dictTag matTag cc
  = Some (mkBlobIndex dictTag matTag records blobs).
Proof.
  intros Hun Hm Hmat Hfits Hcount.
  unfold BlobIndex_new, getChunkStart, getChunkEnd.
  rewrite Hun, Hm.
  cbn [fmap option_fmap option_map mbind option_bind fst snd].
  replace (matStart + length (blobMatPayload records) - matStart)%nat
    with (length (blobMatPayload records)) by lia.
  rewrite Hmat. unfold istream_of.
  destruct (sread_front (blobMatPayload records) 0
              (le_bytes 8 (Z.of_nat (length records)))
              (concat (map blobRecordEntry records))
              (replicate 8 0) eq_refl eq_refl) as [R _].
  rewrite le_bytes_length in R. rewrite R. cbn [sgood].
  case_guard as Hg; [|done]. cbn [mbind option_bind mret option_ret].
  rewrite le_value_8 by lia. rewrite Nat2Z.id.
  change (0 + 8)%nat with (8 + 7 * 0)%nat.
  rewrite (readBlobRecords_at records Hfits) by lia.
  by rewrite drop_0.
Qed.

Import PackageInputs.

Lemma BlobIndex_reads_back_witness :
  BlobIndex_new (fun _ _ => Some [blob_old]) DictionarySpirv MaterialSpirv
    (mkContainer (blobMatPayload (bShaderRecords index_shared))
       {[MaterialSpirv := (0, 22)%nat]})
  = Some (mkBlobIndex DictionarySpirv MaterialSpirv
            (bShaderRecords index_shared) [blob_old]).
Proof.
  apply (BlobIndex_reads_back (fun _ _ => Some [blob_old])
           DictionarySpirv MaterialSpirv
           (mkContainer (blobMatPayload (bShaderRecords index_shared))
              {[MaterialSpirv := (0, 22)%nat]})
           [blob_old] (bShaderRecords index_shared) 0).
  - reflexivity.
  - reflexivity.
  - reflexivity.
  - repeat constructor; (discriminate || reflexivity).
  - reflexivity.
Defined.

End BlobIndexFacts.

(** * A key that matches no record *)

Module NoMatchFacts.
Import Matdbg MatdbgMore BytesFacts UberzFacts SpecFileFacts MatdbgFacts
  MatdbgMoreFacts TextRewriteFacts.

(** *** The lines of a decoded text *)

Lemma splitLines_from_line l :
  ∀ acc rest, newline_free l = true →
    splitLines_from (l +:+ String newline rest) acc
    = (acc +:+ l) :: match rest with
                     | EmptyString => []
                     | _ => splitLines_from rest EmptyString
                     end.
Proof.
  induction l as [|c l IH]; intros acc rest Hl.
  - change ("" +:+ String newline rest)%string with (String newline rest).
    cbn [splitLines_from]. rewrite Ascii.eqb_refl. by rewrite append_nil_r.
  - unfold newline_free in Hl. cbn [UberzMore.string_forallb] in Hl.
    apply andb_true_iff in Hl as [Hc Hl].
    rewrite append_cons. cbn [splitLines_from].
    apply negb_true_iff in Hc. rewrite Hc.
    rewrite (IH _ _ Hl). f_equal.
    by rewrite append_assoc.
Qed.

(** Lines without a line feed, put together by the first pass, come apart
    again as they were. *)
Lemma splitLines_joinLines ls :
  Forall (fun l => newline_free l = true) ls →
  splitLines (joinLines ls) = ls.
Proof.
  induction 1 as [|l ls Hl _ IH]; [done|].
  rewrite joinLines_cons.
  assert (Hsplit : splitLines (l +:+ String newline (joinLines ls))
                   = splitLines_from (l +:+ String newline (joinLines ls)) EmptyString).
  { by destruct l. }
  rewrite Hsplit, (splitLines_from_line l _ _ Hl).
  change ("" +:+ l)%string with l. f_equal.
  exact IH.
Qed.

(** The lines a list of indices names, when each index is inside the
    dictionary. *)
Lemma indices_name_lines (lines : list string) indices :
  lines ≠ [] ∨ Forall (fun index => 0 ≤ index) indices →
  forallb (fun index => index <? Z.of_nat (length lines)) indices = true →
  ∃ ls, Forall2 (fun i l => lines !! Z.to_nat i = Some l) indices ls
        ∧ Forall (fun l => l ∈ lines) ls.
Proof.
  intros Hu. induction indices as [|i indices IH]; intros Hin.
  - exists []. split; constructor.
  - cbn [forallb] in Hin. apply andb_true_iff in Hin as [Hi Hin].
    apply Z.ltb_lt in Hi.
    destruct IH as (ls & Hall & Hls); [|done|].
    { destruct Hu as [Hu|Hu]; [by left|]. right. by apply Forall_cons in Hu as [_ Hu]. }
    assert (Hlt : (Z.to_nat i < length lines)%nat).
    { destruct Hu as [Hu|Hu].
      - destruct lines; [done|]. simpl in *. lia.
      - apply Forall_cons in Hu as [Hu _]. lia. }
    destruct (lookup_lt_is_Some_2 lines _ Hlt) as [l Hl].
    exists (l :: ls). split; constructor; try done.
    by eapply list_elem_of_lookup_2.
Qed.

(** After the first pass, every line of every text is a string of the
    dictionary. *)
Lemma decoded_lines_known lines records :
  Forall (fun l => newline_free l = true) lines →
  lines ≠ [] ∨ (∀ record index, record ∈ records →
                  index ∈ lineIndices record → 0 ≤ index) →
  ∀ decoded, decodeRecords lines records = (decoded, true) →
    ∀ record l, record ∈ decoded →
      l ∈ splitLines (decodedShaderText record) → l ∈ lines.
Proof.
  intros Hnl. induction records as [|r rest IH]; intros Hu decoded H record l Hin Hl.
  - injection H as <-. by apply elem_of_nil in Hin.
  - cbn [decodeRecords] in H.
    destruct (forallb _ (lineIndices r)) eqn:Hfit; [|discriminate H].
    destruct (decodeRecords lines rest) as [rest' ok] eqn:E.
    injection H as <- ->.
    apply elem_of_cons in Hin as [->|Hin].
    + cbn [decodedShaderText] in Hl.
      destruct (indices_name_lines lines (lineIndices r)) as (ls & Hall & Hls);
        [|done|].
      { destruct Hu as [Hu|Hu]; [by left|]. right.
        apply Forall_forall. intros i Hi. apply (Hu r i); [by left | done]. }
      rewrite (derefLines_join _ _ ls Hall) in Hl.
      rewrite splitLines_joinLines in Hl.
      * rewrite Forall_forall in Hls. by apply Hls.
      * rewrite Forall_forall in Hnl, Hls. apply Forall_forall.
        intros x Hx. apply Hnl, Hls, Hx.
    + apply (IH) with (decoded := rest') (record := record); try done.
      destruct Hu as [Hu|Hu]; [by left|]. right.
      intros r0 i Hr0 Hi. apply (Hu r0 i); [by right | done].
Qed.

(** *** Re-encoding without a new line *)

Lemma encodeLines_found seeded newLines :
  ∀ table lines indices,
    (length lines ≤ seeded)%nat →
    (∀ l, l ∈ newLines → is_Some (table !! l)) →
    ∃ indices',
      encodeLines seeded newLines table lines indices
      = Some (table, lines, indices', true).
Proof.
  induction newLines as [|newLine rest IH]; intros table lines indices Hs Hall.
  - by exists indices.
  - cbn [encodeLines]. rewrite dangling_seed by done.
    destruct (Hall newLine) as [second ->]; [by left|].
    apply IH; [done|]. intros l Hl. apply Hall. by right.
Qed.

Lemma encodeRecords_found seeded records :
  ∀ offset_ table lines,
    (length lines ≤ seeded)%nat →
    (∀ record l, record ∈ records →
       l ∈ splitLines (decodedShaderText record) → is_Some (table !! l)) →
    ∃ records',
      encodeRecords seeded records offset_ table lines
      = Some (records', lines, true).
Proof.
  induction records as [|record rest IH]; intros offset_ table lines Hs Hall.
  - by exists [].
  - cbn [encodeRecords].
    destruct (encodeLines_found seeded (splitLines (decodedShaderText record))
                table lines [] Hs) as (indices1 & ->).
    { intros l Hl. apply (Hall record l); [by left | done]. }
    destruct (IH (wrap32 (wrap32 (wrap32 (offset_ + 4) + 4)
                          + 2 * Z.of_nat (length indices1))) table lines Hs)
      as (rest' & ->).
    { intros r l Hr Hl. apply (Hall r l); [by right | done]. }
    by eexists.
Qed.

(** *** Re-encoding from an empty dictionary

    A table that was seeded from nothing holds views into the texts of the
    records only, so the pass is defined whatever it appends. *)
Lemma encodeLines_seedless newLines :
  ∀ table lines indices, is_Some (encodeLines 0 newLines table lines indices).
Proof.
  induction newLines as [|newLine rest IH]; intros table lines indices; [done|].
  cbn [encodeLines].
  assert (dangling 0 lines = false) as ->.
  { unfold dangling. apply bool_decide_eq_false_2. lia. }
  destruct (table !! newLine); [apply IH|].
  case_decide; [done | apply IH].
Qed.

Lemma encodeRecords_seedless records :
  ∀ offset_ table lines, is_Some (encodeRecords 0 records offset_ table lines).
Proof.
  induction records as [|record rest IH]; intros offset_ table lines; [done|].
  cbn [encodeRecords].
  destruct (encodeLines_seedless (splitLines (decodedShaderText record))
              table lines []) as [[[[table1 lines1] indices1] ok1] ->].
  destruct ok1; [|done].
  by destruct (IH (wrap32 (wrap32 (wrap32 (offset_ + 4) + 4)
                           + 2 * Z.of_nat (length indices1))) table1 lines1)
    as [[[rest' lines2] ok2] ->].
Qed.

(** *** The text index *)

(** A key that matches no record: the call is defined when no string of
    the dictionary holds a line feed, and with unsigned line indices it
    leaves the dictionary as it was and logs nothing about the key. *)
Lemma replaceShader_unmatched idx shaderModel variant_ stage_ source :
  Forall (fun line => newline_free line = true) (mStringLines idx) →
  no_record_matches idx shaderModel variant_ stage_ →
  ∃ idx' log,
    replaceShader idx shaderModel variant_ stage_ source = Some (idx', log)
    ∧ (unsigned_indices idx →
       mStringLines idx' = mStringLines idx
       ∧ (log = None ∨ log = Some msg_decoding)).
Proof.
  intros Hnl Hno. unfold replaceShader.
  pose proof (decodeRecords_keys (mStringLines idx) (mShaderRecords idx)) as Hkeys.
  pose proof (decoded_lines_known (mStringLines idx) (mShaderRecords idx) Hnl)
    as Hknown.
  destruct (decodeRecords (mStringLines idx) (mShaderRecords idx))
    as [decoded ok] eqn:E.
  cbn [fst] in Hkeys.
  destruct ok.
  2:{ eexists _, _. split; [done|]. intros _. split; [done | by right]. }
  rewrite replaceText_no_match.
  2:{ intros r Hr (Hm & Hv & Hs). destruct (Hkeys r Hr) as (r0 & Hr0 & Em & Ev & Es).
      apply (Hno r0 Hr0). repeat split; congruence. }
  set (offset_ := fold_left _ decoded 8).
  assert (Hfound : mStringLines idx ≠ [] ∨ unsigned_indices idx →
            ∃ records', encodeRecords (length (mStringLines idx)) decoded offset_
                          (buildTable (mStringLines idx) 0 ∅) (mStringLines idx)
                        = Some (records', mStringLines idx, true)).
  { intros Hu. apply encodeRecords_found; [done|].
    intros r l Hr Hl. apply buildTable_covers.
    by apply (Hknown Hu decoded eq_refl r l). }
  destruct (decide (mStringLines idx = [])) as [Hnil|Hne].
  - destruct (encodeRecords_seedless decoded offset_
                (buildTable (mStringLines idx) 0 ∅) (mStringLines idx))
      as [[[records' lines'] ok'] Hrun].
    assert (Hlen0 : length (mStringLines idx) = 0%nat) by (by rewrite Hnil).
    rewrite Hlen0, Hrun.
    eexists _, _. split; [done|]. intros Hu.
    destruct (Hfound (or_intror Hu)) as (records'' & Hrun').
    rewrite Hlen0, Hrun in Hrun'. injection Hrun' as _ -> ->.
    cbn [mStringLines]. split; [done | by left].
  - destruct (Hfound (or_introl Hne)) as (records' & ->).
    eexists _, _. split; [done|]. intros _. cbn [mStringLines].
    split; [done | by left].
Qed.

Lemma ShaderIndex_new_tags dictTag matTag cc idx :
  ShaderIndex_new dictTag matTag cc = Some idx →
  mDictTag idx = dictTag ∧ mMatTag idx = matTag.
Proof.
  unfold ShaderIndex_new. intros H.
  destruct (getChunkStart cc dictTag) as [dictStart|]; [|done].
  cbn [mbind option_bind] in H.
  case_guard; [|done]. cbn [mbind option_bind] in H.
  destruct (readLines _ _) as [lines|]; [|done]. cbn [mbind option_bind] in H.
  destruct (getChunkStart cc matTag) as [chunkContent|]; [|done].
  cbn [mbind option_bind] in H.
  destruct (getChunkEnd cc matTag) as [chunkEnd|]; [|done].
  cbn [mbind option_bind] in H.
  destruct (sread _ _ _) as [recordCount stream].
  case_guard; [|done]. cbn [mbind option_bind] in H.
  destruct (readShaderRecords _ _) as [records|]; [|done].
  cbn [mbind option_bind] in H.
  by injection H as <-.
Qed.

Section NoMatch.
Variable DictionarySpirv : Z.
Variable unflatten : ChunkContainer → Z → option (list (list Z)).
Variable flattenDictionary : list (list Z) → nat → list Z.
Variable compileSpirv : Z → Z → string → option (list Z).

Local Abbreviation replaceShaderSource :=
  (replaceShaderSource DictionarySpirv unflatten flattenDictionary compileSpirv).

Lemma BlobIndex_new_tags dictTag matTag cc bidx :
  BlobIndex_new unflatten dictTag matTag cc = Some bidx →
  bDictTag bidx = dictTag ∧ bMatTag bidx = matTag.
Proof.
  unfold BlobIndex_new. intros H.
  destruct (unflatten cc dictTag) as [blobs|]; [|done].
  cbn [mbind option_bind] in H.
  destruct (getChunkStart cc matTag) as [chunkContent|]; [|done].
  cbn [mbind option_bind] in H.
  destruct (getChunkEnd cc matTag) as [chunkEnd|]; [|done].
  cbn [mbind option_bind] in H.
  destruct (sread _ _ _) as [recordCount stream].
  case_guard; [|done]. cbn [mbind option_bind] in H.
  by injection H as <-.
Qed.

(** The SPIR-V path, once the source compiled: with no record for the
    key, the blobs are merged and written as they are. *)
Lemma replaceSpirv_no_match r cc shaderModel variant_ stage_ source spirv bidx
    records blobs :
  compileSpirv shaderModel stage_ source = Some spirv →
  BlobIndex_new unflatten (mDictionaryTag r) (mMaterialTag r) cc = Some bidx →
  findBlobRecord (shaderModel mod 2 ^ 8) variant_ stage_ (bShaderRecords bidx) = None →
  consolidate (mDataBlobs bidx) (bShaderRecords bidx) [] = Some (records, blobs) →
  ∃ copied,
    cloneChunks (mDictionaryTag r) (mMaterialTag r) (ccData cc) = Some copied
    ∧ replaceSpirv unflatten flattenDictionary compileSpirv r cc
        shaderModel variant_ stage_ source
      = Some (true,
              setEdited r
                (if BlobIndex_isEmpty bidx then copied
                 else copied
                      ++ flattenDictionary blobs (length copied mod 8)%nat
                      ++ chunk_bytes (mMaterialTag r) (blobMatPayload records))).
Proof.
  intros Hcompile Hidx Hfind Hcons.
  destruct (cloneChunks_total (mDictionaryTag r) (mMaterialTag r) (ccData cc))
    as [copied Hcopied].
  exists copied. split; [done|].
  destruct (BlobIndex_new_tags _ _ _ _ Hidx) as [_ Htag].
  unfold replaceSpirv. rewrite Hcompile, Hcopied. cbn [mbind option_bind].
  rewrite Hidx. cbn [mbind option_bind].
  destruct (BlobIndex_isEmpty bidx); [done|].
  unfold BlobIndex_replaceShader. rewrite Hfind. cbn [mbind option_bind].
  unfold BlobIndex_writeChunks. rewrite Hcons. cbn [mbind option_bind].
  rewrite Htag. do 5 f_equal.
  unfold chunk_bytes, blobMatPayload.
  rewrite le_bytes_wrap32, length_app, le_bytes_length,
    (length_concat_const blobRecordEntry 7) by apply length_blobRecordEntry.
  do 2 f_equal. f_equal. lia.
Qed.

(** C5, amended: for a key that matches no record the rewrite does not
    fail.  On the text path, for a package that parses, holds the two
    chunks and whose dictionary strings hold no line feed,
    [ShaderIndex::replaceShader] is defined and replaces no text, and
    [replaceShaderSource] returns true and stores a package: the cloned
    chunks alone when the index is empty, and otherwise the cloned chunks
    followed by the dictionary chunk and the material chunk of the index
    [replaceShader] leaves, whose dictionary is the one of the package
    when the line indices are unsigned; the stored package does not depend
    on the new source.  On the SPIR-V path [BlobIndex::replaceShader] logs
    "Unable to replace shader." and leaves the index as it is, and, once
    the source compiled, [replaceSpirv] returns true and stores the cloned
    chunks, followed, unless the index is empty, by the dictionary of the
    merged blobs and the material chunk of the records. *)
Theorem rewrite_without_matching_record
    r shaderModel variant_ stage_ source cc idx :
  parse (mOriginalPackage r) = Some cc →
  hasChunk cc (mMaterialTag r) = true →
  hasChunk cc (mDictionaryTag r) = true →
  mDictionaryTag r ≠ DictionarySpirv →
  ShaderIndex_new (mDictionaryTag r) (mMaterialTag r) cc = Some idx →
  Forall (fun line => newline_free line = true) (mStringLines idx) →
  no_record_matches idx shaderModel variant_ stage_ →
  (∃ copied idx' log out,
     cloneChunks (mDictionaryTag r) (mMaterialTag r) (mOriginalPackage r)
     = Some copied
     ∧ replaceShader idx shaderModel variant_ stage_ source = Some (idx', log)
     ∧ (unsigned_indices idx →
        mStringLines idx' = mStringLines idx
        ∧ (log = None ∨ log = Some msg_decoding))
     ∧ out = (if isEmpty idx then copied
              else copied
                   ++ chunk_bytes (mDictionaryTag r) (dictPayload (mStringLines idx'))
                   ++ chunk_bytes (mMaterialTag r) (matPayload (mShaderRecords idx')))
     ∧ replaceShaderSource r shaderModel variant_ stage_ source
       = Some (true, setEdited r out)
     ∧ getEditedPackage (setEdited r out) = Some out)
  ∧ replaceShaderSource r shaderModel variant_ stage_ source
    = replaceShaderSource r shaderModel variant_ stage_ EmptyString
  ∧ ∀ bidx spirv,
      findBlobRecord (shaderModel mod 2 ^ 8) variant_ stage_ (bShaderRecords bidx) = None →
      BlobIndex_replaceShader bidx shaderModel variant_ stage_ spirv
      = Some (bidx, Some msg_unable)
      ∧ ∀ r' cc' source' records blobs,
          compileSpirv shaderModel stage_ source' = Some spirv →
          BlobIndex_new unflatten (mDictionaryTag r') (mMaterialTag r') cc' = Some bidx →
          consolidate (mDataBlobs bidx) (bShaderRecords bidx) [] = Some (records, blobs) →
          ∃ copied',
            cloneChunks (mDictionaryTag r') (mMaterialTag r') (ccData cc')
            = Some copied'
            ∧ replaceSpirv unflatten flattenDictionary compileSpirv r' cc'
                shaderModel variant_ stage_ source'
              = Some (true,
                      setEdited r'
                        (if BlobIndex_isEmpty bidx then copied'
                         else copied'
                              ++ flattenDictionary blobs (length copied' mod 8)%nat
                              ++ chunk_bytes (mMaterialTag r')
                                   (blobMatPayload records))).
Proof.
  intros Hparse Hmat Hdict Hne Hidx Hnl Hno.
  destruct (replaceShaderSource_text DictionarySpirv unflatten flattenDictionary
              compileSpirv r shaderModel variant_ stage_ source cc idx)
    as (copied & Hcopied & Hres); try done.
  destruct (replaceShaderSource_text DictionarySpirv unflatten flattenDictionary
              compileSpirv r shaderModel variant_ stage_ EmptyString cc idx)
    as (copied' & Hcopied' & Hres'); try done.
  destruct (replaceShader_unmatched idx shaderModel variant_ stage_ source Hnl Hno)
    as (idx' & log & Hrun & Hsame).
  split; [|split].
  - exists copied, idx', log. eexists. split; [done|]. split; [done|].
    split; [done|]. split; [reflexivity|]. split; [|done].
    rewrite Hres, Hrun. destruct (isEmpty idx); [done|].
    rewrite writeChunks_chunks.
    destruct (replaceShader_tags _ _ _ _ _ _ _ Hrun) as [-> ->].
    by destruct (ShaderIndex_new_tags _ _ _ _ Hidx) as [-> ->].
  - rewrite Hres, Hres'.
    assert (copied' = copied) as -> by congruence.
    by rewrite (replaceShader_no_match idx _ _ _ source EmptyString Hno).
  - intros bidx spirv Hfind. split.
    + unfold BlobIndex_replaceShader. by rewrite Hfind.
    + intros r' cc' source' records blobs Hcompile Hbidx Hcons.
      by eapply replaceSpirv_no_match.
Qed.

End NoMatch.

Import PackageInputs.

Lemma rewrite_without_matching_record_witness :
  ∃ copied idx' log out,
    cloneChunks (mDictionaryTag (replacer package_other_first))
      (mMaterialTag (replacer package_other_first))
      (mOriginalPackage (replacer package_other_first))
    = Some copied
    ∧ replaceShader index_small 1 8 0 new_source = Some (idx', log)
    ∧ (unsigned_indices index_small →
       mStringLines idx' = mStringLines index_small
       ∧ (log = None ∨ log = Some msg_decoding))
    ∧ out = (if isEmpty index_small then copied
             else copied
                  ++ chunk_bytes (mDictionaryTag (replacer package_other_first))
                       (dictPayload (mStringLines idx'))
                  ++ chunk_bytes (mMaterialTag (replacer package_other_first))
                       (matPayload (mShaderRecords idx')))
    ∧ replaceShaderSource DictionarySpirv no_unflatten no_flatten no_compile
        (replacer package_other_first) 1 8 0 new_source
      = Some (true, setEdited (replacer package_other_first) out)
    ∧ getEditedPackage (setEdited (replacer package_other_first) out) = Some out.
Proof.
  refine (proj1 (rewrite_without_matching_record DictionarySpirv no_unflatten
            no_flatten no_compile (replacer package_other_first) 1 8 0 new_source
            (mkContainer package_other_first
               (default ∅ (parseChunks (S (length package_other_first))
                             package_other_first 0 ∅)))
            index_small _ _ _ _ _ _ _)).
  - vm_compute. reflexivity.
  - vm_compute. reflexivity.
  - vm_compute. reflexivity.
  - vm_compute. discriminate.
  - vm_compute. reflexivity.
  - repeat constructor.
  - intros record Hin. apply list_elem_of_singleton in Hin. subst record.
    vm_compute. intros (_ & Hv & _). discriminate Hv.
Defined.

End NoMatchFacts.
